(** * btclib: scalar multiplication on an elliptic-curve group

    A shallow embedding of [btclib/curvemult2.py] (the five multiplication
    engines and their public entry points) and of the conversions of
    [btclib/utils.py], with the properties of the engines proved against an
    abstract curve group and those of the hashes against an abstract
    [hashlib].

    Conventions of the embedding.
    - Python integers are [Z]; [//] and [%] are [Z.div] and [Z.modulo] (both
      round towards minus infinity, as Python does) and raise
      [ZeroDivisionError] on a zero divisor.
    - A computation that calls the curve ([ec._add_jac], [ec.negate]) lives
      in the monad [M]: it threads the number of group operations performed
      so far and ends with a value, an exception, or [OutOfFuel].
    - [while] loops take a [fuel] bound on their number of iterations;
      [OutOfFuel] means that the loop was still running when the fuel ran out.
      [for] loops over a [range] are bounded by construction.
    - A call [ec._add_jac(X, X)] on one and the same variable is counted as a
      doubling, every other call as an addition.
    - The one float of the code, [w2 / 2] in [mods], is kept as the rational
      number it is, and the division overflows where Python's does. *)

From Stdlib Require Import ZArith List Bool Lia String Ascii QArith DecimalString.
From Stdlib Require Import Zmod.
Import ListNotations.
Local Open Scope Z_scope.

(* ================================================================= *)
(** ** Outcomes of a Python call *)

Inductive exn : Type :=
| ValueError (msg : string)
| BTClibTypeError (msg : string)
| BTClibValueError (msg : string)
| IndexError
| ZeroDivisionError
| OverflowError
| FloatArithmetic.
(* [FloatArithmetic] is not a Python exception: it marks the places where the
   code would go on computing with floats ([pow(2, w)] for [w < 0]), which
   the embedding does not follow. *)

Inductive outcome (A : Type) : Type :=
| Ret (a : A)
| Raise (e : exn)
| OutOfFuel.
Arguments Ret {A} a.
Arguments Raise {A} e.
Arguments OutOfFuel {A}.

Definition obind {A B} (c : outcome A) (k : A -> outcome B) : outcome B :=
  match c with
  | Ret a => k a
  | Raise e => Raise e
  | OutOfFuel => OutOfFuel
  end.

(** Group operations performed so far. *)
Record cost : Type := mkCost { additions : nat; doublings : nat; negations : nat }.

Definition no_cost : cost := mkCost 0 0 0.
Definition tick_add (c : cost) := mkCost (S (additions c)) (doublings c) (negations c).
Definition tick_dbl (c : cost) := mkCost (additions c) (S (doublings c)) (negations c).
Definition tick_neg (c : cost) := mkCost (additions c) (doublings c) (S (negations c)).

Definition M (A : Type) : Type := cost -> outcome A * cost.

Definition ret {A} (a : A) : M A := fun c => (Ret a, c).
Definition raise {A} (e : exn) : M A := fun c => (Raise e, c).
Definition out_of_fuel {A} : M A := fun c => (OutOfFuel, c).
Definition lift {A} (o : outcome A) : M A := fun c => (o, c).

Definition bind {A B} (m : M A) (k : A -> M B) : M B :=
  fun c =>
    match m c with
    | (Ret a, c') => k a c'
    | (Raise e, c') => (Raise e, c')
    | (OutOfFuel, c') => (OutOfFuel, c')
    end.

Declare Scope py_scope.
Delimit Scope py_scope with py.
Notation "x <- c ;; k" := (bind c (fun x => k))
  (at level 61, c at next level, right associativity) : py_scope.
Notation "x <~ c ;; k" := (obind c (fun x => k))
  (at level 61, c at next level, right associativity) : py_scope.
Local Open Scope py_scope.

(* ================================================================= *)
(** ** Python built-ins used by the code *)

Definition len {A} (l : list A) : Z := Z.of_nat (List.length l).

(** [l[i]]: a negative index counts from the end, an index outside
    [-len(l) .. len(l)-1] raises [IndexError]. *)
Definition index {A} (l : list A) (i : Z) : outcome A :=
  let j := if i <? 0 then len l + i else i in
  if (0 <=? j) && (j <? len l) then
    match nth_error l (Z.to_nat j) with
    | Some a => Ret a
    | None => Raise IndexError
    end
  else Raise IndexError.

(** [a % b] and [a // b] on integers. *)
Definition py_mod (a b : Z) : outcome Z :=
  if b =? 0 then Raise ZeroDivisionError else Ret (a mod b).
Definition py_floordiv (a b : Z) : outcome Z :=
  if b =? 0 then Raise ZeroDivisionError else Ret (a / b).

(** [for i in range(start, stop, step)] with [count] iterations left,
    threading the variables the body assigns as a state [s]. *)
Fixpoint for_loop {S} (count : nat) (i step : Z) (body : Z -> S -> M S) (s : S) : M S :=
  match count with
  | O => ret s
  | Datatypes.S count' => s' <- body i s ;; for_loop count' (i + step) step body s'
  end.

(** [for i in range(start, stop)] *)
Definition for_range {S} (start stop : Z) (body : Z -> S -> M S) (s : S) : M S :=
  for_loop (Z.to_nat (stop - start)) start 1 body s.

(** [for i in range(start, stop, -1)] *)
Definition for_range_down {S} (start stop : Z) (body : Z -> S -> M S) (s : S) : M S :=
  for_loop (Z.to_nat (start - stop)) start (-1) body s.

(** The binary digits of a positive number, most significant first. *)
Fixpoint bits_of_pos (p : positive) (acc : list Z) : list Z :=
  match p with
  | xH => 1 :: acc
  | xO p' => bits_of_pos p' (0 :: acc)
  | xI p' => bits_of_pos p' (1 :: acc)
  end.

(** [[int(i) for i in bin(m)[2:]]].  [bin(0)] is ["0b0"]; for a negative [m]
    the slice of ["-0b..."] starts with the letter [b], on which [int]
    raises. *)
Definition bin_digits (m : Z) : outcome (list Z) :=
  match m with
  | Z0 => Ret [0]
  | Zpos p => Ret (bits_of_pos p [])
  | Zneg _ => Raise (ValueError "invalid literal for int() with base 10")
  end.

(** [m.bit_length()]: the number of bits of [abs(m)], and 0 for 0. *)
Definition bit_length (m : Z) : Z :=
  if m =? 0 then 0 else Z.log2 (Z.abs m) + 1.

(* ================================================================= *)
(** ** The curve group the engines run against *)

(** The operations of [CurveGroup] / [Curve] (module [btclib.curve]) and the
    constants of [btclib.alias] that [curvemult2.py] uses. *)
Class CurveGroup : Type := {
  Point : Type;
  JacPoint : Type;
  JacPoint_eq_dec : forall P Q : JacPoint, {P = Q} + {P <> Q};
  INFJ : JacPoint;
  n : Z;
  GJ : JacPoint;
  _add_jac : JacPoint -> JacPoint -> JacPoint;
  negate : JacPoint -> JacPoint;
  require_on_curve : Point -> outcome unit;
  _jac_from_aff : Point -> JacPoint;
  _aff_from_jac : JacPoint -> Point
}.

Section Engines.
Context {ec : CurveGroup}.

(** [ec._add_jac(P, Q)] *)
Definition add_jac (P Q : JacPoint) : M JacPoint :=
  fun c => (Ret (_add_jac P Q), tick_add c).
(** [ec._add_jac(P, P)] *)
Definition dbl_jac (P : JacPoint) : M JacPoint :=
  fun c => (Ret (_add_jac P P), tick_dbl c).
(** [ec.negate(P)] *)
Definition neg_jac (P : JacPoint) : M JacPoint :=
  fun c => (Ret (negate P), tick_neg c).

Definition is_INFJ (Q : JacPoint) : bool :=
  if JacPoint_eq_dec Q INFJ then true else false.

(* ----------------------------------------------------------------- *)
(** *** Montgomery ladder *)

(** One iteration of the ladder on the pair [(R, Q)]. *)
Definition ladder_step (bit : Z) (RQ : JacPoint * JacPoint) : M (JacPoint * JacPoint) :=
  let '(R, Q) := RQ in
  if bit =? 0 then
    Q' <- add_jac R Q ;;
    R' <- dbl_jac R ;;
    ret (R', Q')
  else
    R' <- add_jac R Q ;;
    Q' <- dbl_jac Q ;;
    ret (R', Q').

Fixpoint ladder_loop (bits : list Z) (RQ : JacPoint * JacPoint) : M (JacPoint * JacPoint) :=
  match bits with
  | [] => ret RQ
  | bit :: bits' => RQ' <- ladder_step bit RQ ;; ladder_loop bits' RQ'
  end.

Definition _mult_jac_mont_ladder (m : Z) (Q : JacPoint) : M JacPoint :=
  if m <? 0 then raise (ValueError "negative m")
  else if is_INFJ Q then ret Q
  else
    bits <- lift (bin_digits m) ;;
    RQ <- ladder_loop bits (INFJ, Q) ;;
    ret (fst RQ).

(* ----------------------------------------------------------------- *)
(** *** Digits in a base *)

(** The [while n:] loop of [numberToBase]; [digits] is least significant
    first. *)
Fixpoint numberToBase_loop (fuel : nat) (n b : Z) (digits : list Z) : outcome (list Z) :=
  match fuel with
  | O => OutOfFuel
  | S fuel' =>
    if n =? 0 then Ret digits
    else
      d <~ py_mod n b ;;
      n' <~ py_floordiv n b ;;
      numberToBase_loop fuel' n' b (digits ++ [d])
  end.

Definition numberToBase (fuel : nat) (n b : Z) : outcome (list Z) :=
  if n =? 0 then Ret [0]
  else
    digits <~ numberToBase_loop fuel n b [] ;;
    Ret (rev digits).

(* ----------------------------------------------------------------- *)
(** *** Scalar multiplication on basis 3 *)

(** [T.append(ec._add_jac(T[i - 1], Q))] *)
Definition append_sum (Q : JacPoint) (i : Z) (T : list JacPoint) : M (list JacPoint) :=
  prev <- lift (index T (i - 1)) ;;
  P <- add_jac prev Q ;;
  ret (T ++ [P]).

(** The [i]-th digit and the table entry it selects: [T[M[i]]]. *)
Definition table_at_digit (T : list JacPoint) (Md : list Z) (i : Z) : M JacPoint :=
  Mi <- lift (index Md i) ;;
  lift (index T Mi).

Definition _mult_jac_base_3 (fuel : nat) (m : Z) (Q : JacPoint) : M JacPoint :=
  if m <? 0 then raise (ValueError "negative m")
  else if is_INFJ Q then ret Q
  else
    T <- for_range 1 3 (append_sum Q) [INFJ] ;;
    Md <- lift (numberToBase fuel m 3) ;;
    R <- table_at_digit T Md 0 ;;
    for_range 1 (len Md)
      (fun i R =>
         R2 <- dbl_jac R ;;
         R <- add_jac R2 R ;;
         e <- table_at_digit T Md i ;;
         add_jac R e)
      R.

(* ----------------------------------------------------------------- *)
(** *** Fixed window *)

(** [for j in range(w): R = ec._add_jac(R, R)] *)
Definition double_times (w : Z) (R : JacPoint) : M JacPoint :=
  for_range 0 w (fun _ R => dbl_jac R) R.

Definition _mult_jac_fixed_window (fuel : nat) (m w : Z) (Q : JacPoint) : M JacPoint :=
  if m <? 0 then raise (ValueError "negative m")
  else if is_INFJ Q then ret Q
  else if w <=? 0 then raise (ValueError "w must be strictly positive")
  else
    let b := 2 ^ w in
    T <- for_range 1 b (append_sum Q) [INFJ] ;;
    Md <- lift (numberToBase fuel m b) ;;
    R <- table_at_digit T Md 0 ;;
    for_range 1 (len Md)
      (fun i R =>
         R <- double_times w R ;;
         e <- table_at_digit T Md i ;;
         add_jac R e)
      R.

(* ----------------------------------------------------------------- *)
(** *** Sliding window *)

(** The table of the sliding window: [P] is [Q] doubled [k = w - 1] times,
    then [p - 1] entries are appended, each the previous one plus [Q]. *)
Definition sliding_table (w : Z) (Q : JacPoint) : M (list JacPoint) :=
  let k := w - 1 in
  let p := 2 ^ k in
  P <- double_times k Q ;;
  for_range 1 p (append_sum Q) [P].

(** [t = M[i]; for a in range(1, j): t = 2 * t + M[i + a]] *)
Definition window_value (Md : list Z) (i j : Z) : M Z :=
  t <- lift (index Md i) ;;
  for_range 1 j (fun a t => Mia <- lift (index Md (i + a)) ;; ret (2 * t + Mia)) t.

(** The truncated last window:
    [for b in range(i, i + j): R = 2R; if M[b] == 1: R = R + Q]. *)
Definition short_window (Q : JacPoint) (Md : list Z) (i j : Z) (R : JacPoint) : M JacPoint :=
  for_range i (i + j)
    (fun b R =>
       R <- dbl_jac R ;;
       Mb <- lift (index Md b) ;;
       if Mb =? 1 then add_jac R Q else ret R)
    R.

(** The [while i < len(M):] loop. *)
Fixpoint sliding_loop (fuel : nat) (w p : Z) (Q : JacPoint) (T : list JacPoint)
    (Md : list Z) (i : Z) (R : JacPoint) : M JacPoint :=
  match fuel with
  | O => out_of_fuel
  | S fuel' =>
    if i <? len Md then
      Mi <- lift (index Md i) ;;
      if Mi =? 0 then
        R <- dbl_jac R ;;
        sliding_loop fuel' w p Q T Md (i + 1) R
      else
        let j := if len Md - i <? w then len Md - i else w in
        t <- window_value Md i j ;;
        if j <? w then short_window Q Md i j R
        else
          R <- double_times w R ;;
          e <- lift (index T (t - p)) ;;
          R <- add_jac R e ;;
          sliding_loop fuel' w p Q T Md (i + j) R
    else ret R
  end.

Definition _mult_jac_sliding_window (fuel : nat) (m w : Z) (Q : JacPoint) : M JacPoint :=
  if m <? 0 then raise (ValueError "negative m")
  else if is_INFJ Q then ret Q
  else if w <=? 0 then raise (ValueError "w must be strictly positive")
  else
    let p := 2 ^ (w - 1) in
    T <- sliding_table w Q ;;
    Md <- lift (numberToBase fuel m 2) ;;
    sliding_loop fuel w p Q T Md 0 INFJ.

(* ----------------------------------------------------------------- *)
(** *** wNAF *)

(** [pow(2, w)] is an integer for [w >= 0] and a float below. *)
Definition pow2 (w : Z) : outcome Z :=
  if w <? 0 then Raise FloatArithmetic else Ret (2 ^ w).

(** [w2 / 2], for [w2] a power of two.  Python's [/] on two integers returns
    the float nearest to the exact quotient and raises [OverflowError] when
    that is beyond the largest float.  Half a power of two is a float
    exactly, up to [2 ** 1023]; the float is kept here as the rational
    number it is. *)
Definition true_div_2 (w2 : Z) : outcome Q :=
  if 2 ^ 1025 <=? w2 then Raise OverflowError else Ret (w2 # 2)%Q.

(** [M >= x] for an integer [M] and a float [x] compares the exact values. *)
Definition int_ge_float (M : Z) (x : Q) : bool := Qle_bool x (inject_Z M).

Definition mods (m w : Z) : outcome Z :=
  w2 <~ pow2 w ;;
  Mr <~ py_mod m w2 ;;
  half <~ true_div_2 w2 ;;
  if int_ge_float Mr half then Ret (Mr - w2) else Ret Mr.

(** The [while (m > 0):] loop that writes [m] in signed digits, least
    significant first; it returns the final [i] and the digits. *)
Fixpoint naf_digits_loop (fuel : nat) (w m i : Z) (Md : list Z) : outcome (Z * list Z) :=
  match fuel with
  | O => OutOfFuel
  | S fuel' =>
    if 0 <? m then
      if m mod 2 =? 1 then
        d <~ mods m w ;;
        let Md' := Md ++ [d] in
        Mi <~ index Md' i ;;
        naf_digits_loop fuel' w ((m - Mi) / 2) (i + 1) Md'
      else
        naf_digits_loop fuel' w (m / 2) (i + 1) (Md ++ [0])
    else Ret (i, Md)
  end.

(** [T.append(ec.negate(T[i - (b // 2)]))] *)
Definition append_negated (h : Z) (i : Z) (T : list JacPoint) : M (list JacPoint) :=
  e <- lift (index T (i - h)) ;;
  N <- neg_jac e ;;
  ret (T ++ [N]).

Definition naf_table (b : Z) (Q : JacPoint) : M (list JacPoint) :=
  Q2 <- dbl_jac Q ;;
  T <- for_range 1 (b / 2) (append_sum Q2) [Q] ;;
  for_range (b / 2) b (append_negated (b / 2)) T.

(** The body of [for j in range(p - 1, -1, -1)]. *)
Definition naf_step (b : Z) (T : list JacPoint) (Md : list Z) (j : Z) (R : JacPoint) : M JacPoint :=
  R <- dbl_jac R ;;
  Mj <- lift (index Md j) ;;
  if negb (Mj =? 0) then
    if 0 <? Mj then
      e <- lift (index T ((Mj - 1) / 2)) ;;
      add_jac R e
    else
      e <- lift (index T (b / 2 - (Mj + 1) / 2)) ;;
      add_jac R e
  else ret R.

Definition _mult_jac_w_NAF (fuel : nat) (m w : Z) (Q : JacPoint) : M JacPoint :=
  if m <? 0 then raise (ValueError "negative m")
  else if m =? 0 then ret INFJ
  else if is_INFJ Q then ret Q
  else if w <=? 0 then raise (ValueError "w must be strictly positive")
  else
    pM <- lift (naf_digits_loop fuel w m 0 []) ;;
    let '(p, Md) := pM in
    let b := 2 ^ w in
    T <- naf_table b Q ;;
    for_range_down (p - 1) (-1) (naf_step b T Md) INFJ.

End Engines.

(* ================================================================= *)
(** ** [btclib/utils.py]: integers from their representations *)

(** [Integer = Union[int, str, bytes]]; [IOther] stands for a value of any
    other type.  A [str] is a sequence of code points below 256. *)
Inductive Integer : Type :=
| IInt (i : Z)
| IStr (s : string)
| IBytes (b : list Byte.byte)
| IOther.

(** [c.isspace()] *)
Definition isspace (c : ascii) : bool :=
  let k := Z.of_nat (nat_of_ascii c) in
  ((9 <=? k) && (k <=? 13)) || ((28 <=? k) && (k <=? 32)) || (k =? 133) || (k =? 160).

(** The white space that [bytes.fromhex] skips. *)
Definition is_ascii_space (c : ascii) : bool :=
  let k := Z.of_nat (nat_of_ascii c) in
  ((9 <=? k) && (k <=? 13)) || (k =? 32).

Fixpoint lstrip (s : string) : string :=
  match s with
  | String c s' => if isspace c then lstrip s' else s
  | EmptyString => s
  end.

Fixpoint rstrip (s : string) : string :=
  match s with
  | String c s' =>
    match rstrip s' with
    | EmptyString => if isspace c then EmptyString else String c EmptyString
    | r => String c r
    end
  | EmptyString => s
  end.

(** [s.strip()] *)
Definition strip (s : string) : string := rstrip (lstrip s).

(** [c.lower()] on the letters [A] to [Z]; the other letters below 256 that
    it changes are no part of a prefix or of a digit, before or after. *)
Definition lower_char (c : ascii) : ascii :=
  let k := nat_of_ascii c in
  if (Nat.leb 65 k && Nat.leb k 90)%bool then ascii_of_nat (k + 32) else c.

Fixpoint lower (s : string) : string :=
  match s with
  | String c s' => String (lower_char c) (lower s')
  | EmptyString => s
  end.

Definition hex_digit (c : ascii) : option Z :=
  let k := Z.of_nat (nat_of_ascii c) in
  if (48 <=? k) && (k <=? 57) then Some (k - 48)
  else if (97 <=? k) && (k <=? 102) then Some (k - 87)
  else if (65 <=? k) && (k <=? 70) then Some (k - 55)
  else None.

(** Hexadecimal digits, single underscores allowed between two digits. *)
Fixpoint hex_digits (s : string) (acc : Z) (after_digit : bool) : option Z :=
  match s with
  | EmptyString => if after_digit then Some acc else None
  | String c s' =>
    if Ascii.eqb c "_" then
      if after_digit then
        match s' with
        | EmptyString => None
        | _ => hex_digits s' acc false
        end
      else None
    else
      match hex_digit c with
      | Some d => hex_digits s' (16 * acc + d) true
      | None => None
      end
  end.

(** [int(s, 16)] on a stripped string: a sign, the prefix [0x] or [0X], an
    underscore, each optional, and digits. *)
Definition int_base16 (s : string) : outcome Z :=
  let '(neg, s1) :=
    match s with
    | String "-" r => (true, r)
    | String "+" r => (false, r)
    | _ => (false, s)
    end in
  let s2 :=
    match s1 with
    | String "0" (String "x" r) => match r with String "_" r' => r' | _ => r end
    | String "0" (String "X" r) => match r with String "_" r' => r' | _ => r end
    | _ => s1
    end in
  match hex_digits s2 0 false with
  | Some v => Ret (if neg then - v else v)
  | None => Raise (ValueError "invalid literal for int() with base 16")
  end.

(** [bytes.fromhex(s)] *)
Fixpoint bytes_fromhex (s : string) : outcome (list Byte.byte) :=
  match s with
  | EmptyString => Ret []
  | String c s' =>
    if is_ascii_space c then bytes_fromhex s'
    else
      match hex_digit c, s' with
      | Some hi, String c2 s'' =>
        match hex_digit c2 with
        | Some lo =>
          match Byte.of_N (Z.to_N (16 * hi + lo)) with
          | Some x => rest <~ bytes_fromhex s'' ;; Ret (x :: rest)
          | None => Raise (ValueError "non-hexadecimal number found in fromhex() arg")
          end
        | None => Raise (ValueError "non-hexadecimal number found in fromhex() arg")
        end
      | _, _ => Raise (ValueError "non-hexadecimal number found in fromhex() arg")
      end
  end.

(** [int.from_bytes(b, "big")] *)
Definition int_from_bytes_big (b : list Byte.byte) : Z :=
  fold_left (fun acc x => 256 * acc + Z.of_N (Byte.to_N x)) b 0.

Definition int_from_integer (i : Integer) : outcome Z :=
  match i with
  | IInt z => Ret z
  | IStr s =>
    let s := lower (strip s) in
    if (String.prefix "0x" s || String.prefix "-0x" s)%bool then int_base16 s
    else
      b <~ bytes_fromhex s ;;
      Ret (int_from_bytes_big b)
  | IBytes b => Ret (int_from_bytes_big b)
  | IOther => Raise (BTClibTypeError "not an Integer=Union[int, str, bytes]")
  end.

(* ================================================================= *)
(** ** [btclib/utils.py]: octets, bits and hex-strings *)

(** [Octets = Union[bytes, str]] *)
Inductive Octets : Type :=
| OStr (s : string)
| OBytes (b : list Byte.byte).

(** [NoneOneOrMoreInt = Optional[Union[int, Iterable[int]]]]: [None], one
    size, or a collection of sizes. *)
Inductive NoneOneOrMoreInt : Type :=
| NoSize
| OneSize (n : Z)
| Sizes (l : list Z).

(** [k in l] *)
Definition contains (l : list Z) (k : Z) : bool := existsb (Z.eqb k) l.

Definition bytes_from_octets (octets : Octets) (out_size : NoneOneOrMoreInt)
    : outcome (list Byte.byte) :=
  octets <~ match octets with
            | OStr s => bytes_fromhex s
            | OBytes b => Ret b
            end ;;
  if match out_size with
     | NoSize => true
     | OneSize n => len octets =? n
     | Sizes l => contains l (len octets)
     end
  then Ret octets
  else Raise (BTClibValueError "invalid size").

(** The two digests of [hashlib] that the code calls:
    [hashlib.sha256(x).digest()] and [hashlib.new("ripemd160", x).digest()],
    the latter with the error of a build that lacks the algorithm. *)
Class Hashlib : Type := {
  hashlib_sha256 : list Byte.byte -> list Byte.byte;
  hashlib_new_ripemd160 : list Byte.byte -> outcome (list Byte.byte)
}.

Section Hashes.
Context {H : Hashlib}.

Definition sha256 (octets : Octets) : outcome (list Byte.byte) :=
  octets <~ bytes_from_octets octets NoSize ;;
  Ret (hashlib_sha256 octets).

Definition hash160 (octets : Octets) : outcome (list Byte.byte) :=
  t <~ sha256 octets ;;
  hashlib_new_ripemd160 t.

Definition hash256 (octets : Octets) : outcome (list Byte.byte) :=
  t <~ sha256 octets ;;
  Ret (hashlib_sha256 t).

End Hashes.

(** [i >> n] for [n >= 0] *)
Definition rshift (i n : Z) : Z := Z.shiftr i n.

Definition int_from_bits (octets : Octets) (nlen : Z) : outcome Z :=
  octets <~ bytes_from_octets octets NoSize ;;
  let i := int_from_bytes_big octets in
  let blen := len octets * 8 in
  let n := if blen >=? nlen then blen - nlen else 0 in
  Ret (rshift i n).

(** The character of a hexadecimal digit, in lower case. *)
Definition hex_char (d : Z) : ascii :=
  ascii_of_nat (Z.to_nat (if d <? 10 then 48 + d else 87 + d)).

(** The hexadecimal digits of [i > 0], written in front of [acc]; [fuel]
    bounds their number. *)
Fixpoint hex_digits_of (fuel : nat) (i : Z) (acc : string) : string :=
  match fuel with
  | O => acc
  | S fuel' =>
    if i =? 0 then acc
    else hex_digits_of fuel' (i / 16) (String (hex_char (i mod 16)) acc)
  end.

(** [hex(i)] *)
Definition hex (i : Z) : string :=
  let digits :=
    if i =? 0 then "0"%string
    else hex_digits_of (S (Z.to_nat (Z.log2 (Z.abs i)))) (Z.abs i) EmptyString in
  if i <? 0 then ("-0x" ++ digits)%string else ("0x" ++ digits)%string.

(** [len(s)] on a string *)
Definition strlen (s : string) : Z := Z.of_nat (String.length s).

Fixpoint str_drop (k : nat) (s : string) : string :=
  match k, s with
  | S k', String _ s' => str_drop k' s'
  | _, _ => s
  end.

Fixpoint str_take (k : nat) (s : string) : string :=
  match k, s with
  | S k', String c s' => String c (str_take k' s')
  | _, _ => EmptyString
  end.

(** [s[lo:hi]] and [s[lo:]], for bounds that are not negative. *)
Definition slice (s : string) (lo hi : Z) : string :=
  str_take (Z.to_nat (hi - lo)) (str_drop (Z.to_nat lo) s).
Definition slice_from (s : string) (lo : Z) : string :=
  str_drop (Z.to_nat lo) s.

Fixpoint range_list (count : nat) (i step : Z) : list Z :=
  match count with
  | O => []
  | S count' => i :: range_list count' (i + step) step
  end.

(** [list(range(start, stop, step))] for a [step] other than 0. *)
Definition range (start stop step : Z) : list Z :=
  let count :=
    if 0 <? step then (stop - start + step - 1) / step
    else (start - stop - step - 1) / (- step) in
  range_list (Z.to_nat count) start step.

(** [sep.join(l)] *)
Fixpoint join (sep : string) (l : list string) : string :=
  match l with
  | [] => EmptyString
  | x :: l' =>
    match l' with
    | [] => x
    | _ => (x ++ sep ++ join sep l')%string
    end
  end.

(** [c.upper()] on the letters [a] to [z]; [hex_string] applies it to
    digits, the letters [a] to [f] and spaces only. *)
Definition upper_char (c : ascii) : ascii :=
  let k := nat_of_ascii c in
  if (Nat.leb 97 k && Nat.leb k 122)%bool then ascii_of_nat (k - 32) else c.

Fixpoint upper (s : string) : string :=
  match s with
  | String c s' => String (upper_char c) (upper s')
  | EmptyString => s
  end.

Definition hex_string (i : Integer) : outcome string :=
  int_ <~ int_from_integer i ;;
  if int_ <? 0 then Raise (BTClibValueError "negative integer")
  else
    let a_str := slice_from (hex int_) 2 in
    let a_str := if negb (strlen a_str mod 2 =? 0) then ("0" ++ a_str)%string else a_str in
    let indx := rev (range (strlen a_str) 0 (-8)) in
    let lresult := map (fun i => slice a_str (Z.max 0 (i - 8)) i) indx in
    let result := join " " lresult in
    Ret (upper result).

(** [n & (n - 1) != 0]; [var_name] only goes into the message. *)
Definition ensure_is_power_of_two (n : Z) (var_name : option string) : outcome unit :=
  if negb (Z.land n (n - 1) =? 0)
  then Raise (BTClibValueError "must be a power of two")
  else Ret tt.

(** [ScriptToken = Union[int, str, bytes]], which includes
    [String = Union[str, bytes]]. *)
Inductive ScriptToken : Type :=
| TInt (i : Z)
| TStr (s : string)
| TBytes (b : list Byte.byte).

(** [Printable = Union[int, str]] *)
Inductive Printable : Type :=
| PInt (i : Z)
| PStr (s : string).

(** [x.hex()] on one byte: two digits in lower case. *)
Definition byte_hex (x : Byte.byte) : string :=
  let k := Z.of_N (Byte.to_N x) in
  String (hex_char (k / 16)) (String (hex_char (k mod 16)) EmptyString).

(** [b.hex()] *)
Fixpoint bytes_hex (b : list Byte.byte) : string :=
  match b with
  | [] => EmptyString
  | x :: b' => (byte_hex x ++ bytes_hex b')%string
  end.

(** [str(i)]: the decimal digits, after a minus sign for a negative [i]. *)
Definition str_of_int (i : Z) : string :=
  DecimalString.NilZero.string_of_int (Z.to_int i).

Definition token_or_string_to_hex_string (val : ScriptToken) : string :=
  match val with
  | TBytes b => bytes_hex b
  | TInt i => str_of_int i
  | TStr s => s
  end.

Definition token_or_string_to_printable (val : list ScriptToken) : list Printable :=
  map (fun v =>
         match v with
         | TBytes b => PStr (bytes_hex b)
         | TInt i => PInt i
         | TStr s => PStr s
         end)
      val.

(* ================================================================= *)
(** ** The public entry points *)

Section EntryPoints.
Context {ec : CurveGroup}.

(** [if Q is None: QJ = ec.GJ
     else: ec.require_on_curve(Q); QJ = _jac_from_aff(Q)] *)
Definition jac_of_point (Q : option Point) : M JacPoint :=
  match Q with
  | None => ret GJ
  | Some Q =>
    _ <- lift (require_on_curve Q) ;;
    ret (_jac_from_aff Q)
  end.

(** [int_from_integer(m) % ec.n] *)
Definition reduced_scalar (m : Integer) : M Z :=
  m0 <- lift (int_from_integer m) ;;
  lift (py_mod m0 n).

Definition mult_mont_ladder (m : Integer) (Q : option Point) : M Point :=
  QJ <- jac_of_point Q ;;
  m <- reduced_scalar m ;;
  R <- _mult_jac_mont_ladder m QJ ;;
  ret (_aff_from_jac R).

Definition mult_base_3 (fuel : nat) (m : Integer) (Q : option Point) : M Point :=
  QJ <- jac_of_point Q ;;
  m <- reduced_scalar m ;;
  R <- _mult_jac_base_3 fuel m QJ ;;
  ret (_aff_from_jac R).

Definition mult_fixed_window (fuel : nat) (m w : Integer) (Q : option Point) : M Point :=
  QJ <- jac_of_point Q ;;
  m <- reduced_scalar m ;;
  w <- lift (int_from_integer w) ;;
  R <- _mult_jac_fixed_window fuel m w QJ ;;
  ret (_aff_from_jac R).

Definition mult_sliding_window (fuel : nat) (m w : Integer) (Q : option Point) : M Point :=
  QJ <- jac_of_point Q ;;
  m <- reduced_scalar m ;;
  w <- lift (int_from_integer w) ;;
  R <- _mult_jac_sliding_window fuel m w QJ ;;
  ret (_aff_from_jac R).

Definition mult_w_NAF (fuel : nat) (m w : Integer) (Q : option Point) : M Point :=
  QJ <- jac_of_point Q ;;
  m <- reduced_scalar m ;;
  w <- lift (int_from_integer w) ;;
  R <- _mult_jac_w_NAF fuel m w QJ ;;
  ret (_aff_from_jac R).

End EntryPoints.

(* ================================================================= *)
(** ** What the engines assume of the curve *)

(** The points of the curve form a commutative group. *)
Class AbGroup (A : Type) : Type := {
  zero : A;
  add : A -> A -> A;
  opp : A -> A;
  add_assoc : forall a b c, add a (add b c) = add (add a b) c;
  add_comm : forall a b, add a b = add b a;
  add_zero_r : forall a, add a zero = a;
  add_opp_r : forall a, add a (opp a) = zero
}.

(** [zmul m a] is the multiple [m * a]: [a + ... + a], [m] times, and the
    opposite of [(-m) * a] for a negative [m]. *)
Definition zmul {A} `{AbGroup A} (m : Z) (a : A) : A :=
  match m with
  | Z0 => zero
  | Zpos p => Pos.iter_op add p a
  | Zneg p => opp (Pos.iter_op add p a)
  end.

(** The contract of the [CurveGroup] collaborator.  [jac_point P] is the
    point of the curve that the Jacobian triple [P] stands for, [None] when
    [P] is not on the curve; [aff_point] the same for an affine pair, which
    determines its point. *)
Class CurveLaws (ec : CurveGroup) : Type := {
  pt : Type;
  pt_group :: AbGroup pt;
  jac_point : JacPoint -> option pt;
  aff_point : Point -> option pt;
  INFJ_point : jac_point INFJ = Some zero;
  add_jac_point : forall P Q a b,
    jac_point P = Some a -> jac_point Q = Some b ->
    jac_point (_add_jac P Q) = Some (add a b);
  negate_point : forall P a,
    jac_point P = Some a -> jac_point (negate P) = Some (opp a);
  GJ_on_curve : jac_point GJ <> None;
  require_on_curve_point : forall P,
    require_on_curve P = Ret tt <-> aff_point P <> None;
  jac_from_aff_point : forall P a,
    aff_point P = Some a -> jac_point (_jac_from_aff P) = Some a;
  aff_from_jac_point : forall P a,
    jac_point P = Some a -> aff_point (_aff_from_jac P) = Some a;
  aff_point_inj : forall P Q a,
    aff_point P = Some a -> aff_point Q = Some a -> P = Q;
  order_pos : 0 < n
}.

(** The point that an entry point multiplies: its argument, or the
    generator when there is none. *)
Definition point_arg {ec : CurveGroup} {L : CurveLaws ec} (Q : option Point) : option pt :=
  match Q with
  | Some P => aff_point P
  | None => jac_point GJ
  end.

(** The Jacobian triple [P] stands for the multiple [v * a]. *)
Definition repr {ec : CurveGroup} {L : CurveLaws ec} (a : pt) (P : JacPoint) (v : Z) : Prop :=
  jac_point P = Some (zmul v a).

(** The value of a digit sequence, most significant digit first, continuing
    from the value [v] of the digits before it. *)
Definition horner (b : Z) (v : Z) (ds : list Z) : Z :=
  fold_left (fun v d => b * v + d) ds v.

(** The value of a digit sequence, least significant digit first. *)
Fixpoint lsb_value (b : Z) (ds : list Z) : Z :=
  match ds with
  | [] => 0
  | d :: ds' => d + b * lsb_value b ds'
  end.

(** A fuel that lets every [while] loop of an engine run to its end on the
    scalar [m]: two more than the number of bits of [m]. *)
Definition enough_fuel (fuel : nat) (m : Z) : Prop :=
  m < 2 ^ (Z.of_nat fuel - 2).

(** The digits the loop writes: zero, or odd and below [2 ** (w - 1)] in
    absolute value. *)
Definition naf_digit (w d : Z) : Prop :=
  d = 0 \/ (d mod 2 = 1 /\ - 2 ^ (w - 1) < d < 2 ^ (w - 1)).

(** The multiple held at index [i] of the wNAF table for [h = 2 ** (w - 1)]:
    the odd multiples [1, 3, ..., 2h - 1], then their opposites. *)
Definition naf_entry (h i : Z) : Z :=
  if i <? h then 2 * i + 1 else - (2 * (i - h) + 1).

(** A table holds the multiples [f 0 * a], [f 1 * a], ... of a point. *)
Definition table_of {ec : CurveGroup} {L : CurveLaws ec} (a : pt) (f : Z -> Z) (T : list JacPoint) : Prop :=
  forall i, 0 <= i < len T -> exists P, index T i = Ret P /\ repr a P (f i).

(* ================================================================= *)
(** ** Signed digits and hexadecimal text, for the statements *)

(** The digits of [ds] other than 0 are at least [w] places apart, and none
    is among the first [z] of them. *)
Fixpoint spaced (w z : Z) (ds : list Z) : Prop :=
  match ds with
  | [] => True
  | d :: ds' => if d =? 0 then spaced w (z - 1) ds' else z <= 0 /\ spaced w (w - 1) ds'
  end.

(** The number of digits other than 0. *)
Definition count_nonzero (ds : list Z) : nat :=
  List.length (filter (fun d => negb (d =? 0)) ds).

(** The text of a sequence of hexadecimal digits, in lower case. *)
Fixpoint hex_text (ds : list Z) : string :=
  match ds with
  | [] => EmptyString
  | d :: ds' => String (hex_char d) (hex_text ds')
  end.

(** The digits of a text made of hexadecimal digits only. *)
Fixpoint text_digits (s : string) : option (list Z) :=
  match s with
  | EmptyString => Some []
  | String c s' =>
    match hex_digit c, text_digits s' with
    | Some d, Some ds => Some (d :: ds)
    | _, _ => None
    end
  end.

(** The bytes that a sequence of digits spells, two digits to a byte. *)
Fixpoint bytes_of_digits (ds : list Z) : list Byte.byte :=
  match ds with
  | hi :: lo :: ds' =>
    match Byte.of_N (Z.to_N (16 * hi + lo)) with
    | Some x => x :: bytes_of_digits ds'
    | None => []
    end
  | _ => []
  end.

(** The digits of a sequence of bytes. *)
Definition digits_of_bytes (b : list Byte.byte) : list Z :=
  flat_map (fun x => let k := Z.of_N (Byte.to_N x) in [k / 16; k mod 16]) b.

(** Every character of a string passes a test. *)
Fixpoint str_all (P : ascii -> bool) (s : string) : bool :=
  match s with
  | EmptyString => true
  | String c s' => P c && str_all P s'
  end.

(** A length that the size argument of [bytes_from_octets] lets through. *)
Definition size_allowed (out_size : NoneOneOrMoreInt) (k : Z) : Prop :=
  match out_size with
  | NoSize => True
  | OneSize n => k = n
  | Sizes l => In k l
  end.
(** Texts of digits, each of an even, positive number of them. *)
Definition digit_groups (ts : list string) (dss : list (list Z)) : Prop :=
  Forall2 (fun t ds => text_digits t = Some ds /\ ds <> [] /\ Z.even (len ds) = true) ts dss.

(** The digits and the letters [A] to [F]. *)
Definition is_upper_hex (c : ascii) : bool :=
  let k := Z.of_nat (nat_of_ascii c) in
  ((48 <=? k) && (k <=? 57)) || ((65 <=? k) && (k <=? 70)).

(* ================================================================= *)
(** ** A small curve to run the engines on *)

(** The curve [y^2 = x^3 + 7] over the field of 13 elements, in the
    coordinates and with the addition formulas used for the Bitcoin curve.
    It has 7 points, the multiples of [gen_aff = (7, 5)]. *)
Module Tiny.

Definition p : Z := 13.
Definition AffPair : Type := (Z * Z)%type.
Definition JacTriple : Type := (Z * Z * Z)%type.

Definition inf_aff : AffPair := (7, 0).
Definition inf_jac : JacTriple := (7, 0, 0).
Definition gen_aff : AffPair := (7, 5).
Definition gen_jac : JacTriple := (7, 5, 1).

Definition JacTriple_eq_dec (P Q : JacTriple) : {P = Q} + {P <> Q}.
Proof. repeat decide equality. Defined.

(** The inverse modulo [p], by Fermat's little theorem. *)
Definition mod_inv (x : Z) : Z := x ^ (p - 2) mod p.

Definition y2 (x : Z) : Z := (x * x * x + 7) mod p.

Definition in_field (x : Z) : bool := (0 <=? x) && (x <? p).

(** An affine pair is a point of the curve when it is [inf_aff] or solves the
    equation. *)
Definition is_on_curve (Q : AffPair) : bool :=
  let '(x, y) := Q in
  if y =? 0 then x =? 7
  else in_field x && in_field y && (y2 x =? y * y mod p).

Definition on_curve_or_raise (Q : AffPair) : outcome unit :=
  if is_on_curve Q then Ret tt else Raise (ValueError "point not on curve").

Definition jac_from_aff (Q : AffPair) : JacTriple :=
  let '(x, y) := Q in (x, y, if y =? 0 then 0 else 1).

Definition aff_from_jac (Q : JacTriple) : AffPair :=
  let '(X, Y, Z) := Q in
  if Z =? 0 then inf_aff
  else
    let Z2 := Z * Z in
    (X * mod_inv Z2 mod p, Y * mod_inv (Z2 * Z) mod p).

Definition jac_add (Q R : JacTriple) : JacTriple :=
  let '(QX, QY, QZ) := Q in
  let '(RX, RY, RZ) := R in
  if QZ =? 0 then R
  else if RZ =? 0 then Q
  else
    let RZ2 := RZ * RZ in
    let RZ3 := RZ2 * RZ in
    let QZ2 := QZ * QZ in
    let QZ3 := QZ2 * QZ in
    if QX * RZ2 mod p =? RX * QZ2 mod p then
      if QY * RZ3 mod p =? RY * QZ3 mod p then
        let QY2 := QY * QY in
        let W := (3 * QX * QX) mod p in
        let V := (4 * QX * QY2) mod p in
        let X := (W * W - 2 * V) mod p in
        let Y := (W * (V - X) - 8 * QY2 * QY2) mod p in
        let Z := (2 * QY * QZ) mod p in
        (X, Y, Z)
      else inf_jac
    else
      let T := (QY * RZ3) mod p in
      let U := (RY * QZ3) mod p in
      let W := (U - T) mod p in
      let M := (QX * RZ2) mod p in
      let N := (RX * QZ2) mod p in
      let V := (N - M) mod p in
      let V2 := V * V in
      let V3 := V2 * V in
      let MV2 := M * V2 in
      let X := (W * W - V3 - 2 * MV2) mod p in
      let Y := (W * (MV2 - X) - T * V3) mod p in
      let Z := (V * QZ * RZ) mod p in
      (X, Y, Z).

Definition jac_neg (Q : JacTriple) : JacTriple :=
  let '(X, Y, Z) := Q in (X, (p - Y) mod p, Z).

#[export] Instance ec : CurveGroup := {|
  Point := AffPair;
  JacPoint := JacTriple;
  JacPoint_eq_dec := JacTriple_eq_dec;
  INFJ := inf_jac;
  n := 7;
  GJ := gen_jac;
  _add_jac := jac_add;
  negate := jac_neg;
  require_on_curve := on_curve_or_raise;
  _jac_from_aff := jac_from_aff;
  _aff_from_jac := aff_from_jac
|}.

(** A Jacobian triple is on the curve when its coordinates are in the field
    and it has [Z = 0] or solves the equation [Y^2 = X^3 + 7 Z^6]. *)
Definition jac_on_curve (Q : JacTriple) : bool :=
  let '(X, Y, Z) := Q in
  in_field X && in_field Y && in_field Z &&
  ((Z =? 0) || (Y * Y mod p =? (X * X * X + 7 * Z ^ 6) mod p)).

(** The points of the curve: [multiples] holds [k * gen_aff] at index [k]. *)
Definition multiples : list AffPair :=
  [(7, 0); (7, 5); (8, 5); (11, 8); (11, 5); (8, 8); (7, 8)].

Definition AffPair_eqb (P Q : AffPair) : bool :=
  (fst P =? fst Q) && (snd P =? snd Q).

Fixpoint position (Q : AffPair) (l : list AffPair) (k : Z) : option Z :=
  match l with
  | [] => None
  | P :: l' => if AffPair_eqb P Q then Some k else position Q l' (k + 1)
  end.

(** [dlog Q] is the [k] with [Q = k * gen_aff]. *)
Definition dlog (Q : AffPair) : option Z := position Q multiples 0.

Definition jac_dlog (Q : JacTriple) : option Z :=
  if jac_on_curve Q then dlog (aff_from_jac Q) else None.

(** The group of the points: the integers modulo 7, [k] standing for
    [k * gen_aff]. *)
#[export] Instance Zmod7_group : AbGroup (Zmod 7) := {|
  zero := Zmod.zero;
  add := Zmod.add;
  opp := Zmod.opp;
  add_assoc := @Zmod.add_assoc 7;
  add_comm := @Zmod.add_comm 7;
  add_zero_r := @Zmod.add_0_r 7;
  add_opp_r := @Zmod.add_opp_same_r 7
|}.

Definition point_of_jac (Q : JacTriple) : option (Zmod 7) :=
  option_map (Zmod.of_Z 7) (jac_dlog Q).

Definition point_of_aff (Q : AffPair) : option (Zmod 7) :=
  option_map (Zmod.of_Z 7) (dlog Q).

(** The generator as a point of the group. *)
Definition g : Zmod 7 := Zmod.of_Z 7 1.

(** All the pairs and triples of field elements, to check the laws of the
    curve on each of them. *)
Definition field_elts : list Z := [0; 1; 2; 3; 4; 5; 6; 7; 8; 9; 10; 11; 12].

Definition all_pairs : list AffPair :=
  flat_map (fun x => map (fun y => (x, y)) field_elts) field_elts.

Definition all_triples : list JacTriple :=
  flat_map (fun xy => map (fun z => (fst xy, snd xy, z)) field_elts) all_pairs.

Definition on_curve_triples : list JacTriple := filter jac_on_curve all_triples.

Definition add_law_holds (P Q : JacTriple) : bool :=
  match jac_dlog P, jac_dlog Q, jac_dlog (jac_add P Q) with
  | Some u, Some v, Some s => s =? (u + v) mod 7
  | _, _, _ => false
  end.

Definition neg_law_holds (P : JacTriple) : bool :=
  match jac_dlog P, jac_dlog (jac_neg P) with
  | Some u, Some s => s =? (- u) mod 7
  | _, _ => false
  end.

Definition on_curve_law_holds (P : AffPair) : bool :=
  Bool.eqb (is_on_curve P) (match dlog P with Some _ => true | None => false end).

End Tiny.

(* ================================================================= *)
(** * Properties *)

(** ** Multiples in a commutative group *)

Section GroupFacts.
Context {A : Type} {G : AbGroup A}.

Lemma add_zero_l (a : A) : add zero a = a.
Proof. rewrite add_comm. apply add_zero_r. Qed.

Lemma add_opp_l (a : A) : add (opp a) a = zero.
Proof. rewrite add_comm. apply add_opp_r. Qed.

Lemma add_cancel_r (a b c : A) : add a c = add b c -> a = b.
Proof.
  intros E.
  rewrite <- (add_zero_r a), <- (add_zero_r b), <- (add_opp_r c).
  now rewrite !add_assoc, E.
Qed.

Lemma opp_unique (a b : A) : add a b = zero -> b = opp a.
Proof.
  intros E. apply add_cancel_r with a.
  now rewrite add_opp_l, add_comm.
Qed.

Lemma opp_zero : opp zero = zero :> A.
Proof. symmetry. apply opp_unique, add_zero_r. Qed.

Lemma opp_add (a b : A) : opp (add a b) = add (opp a) (opp b).
Proof.
  symmetry. apply opp_unique.
  rewrite (add_comm (opp a)), add_assoc, <- (add_assoc a).
  now rewrite add_opp_r, add_zero_r, add_opp_r.
Qed.


Lemma pmul_succ (p : positive) (a : A) :
  Pos.iter_op add (Pos.succ p) a = add a (Pos.iter_op add p a).
Proof. apply Pos.iter_op_succ, add_assoc. Qed.

Lemma zmul_0 (a : A) : zmul 0 a = zero.
Proof. reflexivity. Qed.

Lemma zmul_1 (a : A) : zmul 1 a = a.
Proof. reflexivity. Qed.

Lemma zmul_succ (z : Z) (a : A) : zmul (z + 1) a = add (zmul z a) a.
Proof.
  destruct z as [|p|p].
  - simpl. now rewrite add_zero_l.
  - replace (Z.pos p + 1) with (Z.pos (Pos.succ p)) by lia.
    simpl. rewrite pmul_succ. apply add_comm.
  - destruct (Pos.succ_pred_or p) as [->|E].
    + simpl. now rewrite add_opp_l.
    + rewrite <- E.
      replace (Z.neg (Pos.succ (Pos.pred p)) + 1) with (Z.neg (Pos.pred p)) by lia.
      simpl. rewrite pmul_succ, opp_add, (add_comm (opp a)), <- add_assoc.
      now rewrite add_opp_l, add_zero_r.
Qed.

Lemma zmul_pred (z : Z) (a : A) : zmul (z - 1) a = add (zmul z a) (opp a).
Proof.
  apply add_cancel_r with a.
  rewrite <- zmul_succ, <- add_assoc, add_opp_l, add_zero_r.
  f_equal. lia.
Qed.

Lemma zmul_add (x y : Z) (a : A) : zmul (x + y) a = add (zmul x a) (zmul y a).
Proof.
  revert y. apply Z.peano_ind.
  - now rewrite Z.add_0_r, zmul_0, add_zero_r.
  - intros y IH. unfold Z.succ.
    now rewrite Z.add_assoc, !zmul_succ, IH, add_assoc.
  - intros y IH. unfold Z.pred.
    replace (x + (y + -1)) with (x + y - 1) by lia.
    replace (y + -1) with (y - 1) by lia.
    now rewrite !zmul_pred, IH, add_assoc.
Qed.

Lemma zmul_opp (x : Z) (a : A) : zmul (- x) a = opp (zmul x a).
Proof.
  apply opp_unique. now rewrite <- zmul_add, Z.add_opp_diag_r.
Qed.

Lemma zmul_zero (x : Z) : zmul x (zero : A) = zero.
Proof.
  revert x. apply Z.peano_ind.
  - reflexivity.
  - intros x IH. unfold Z.succ. now rewrite zmul_succ, IH, add_zero_r.
  - intros x IH. unfold Z.pred.
    replace (x + -1) with (x - 1) by lia.
    now rewrite zmul_pred, IH, add_zero_l, opp_zero.
Qed.

Lemma zmul_mul (x y : Z) (a : A) : zmul (x * y) a = zmul x (zmul y a).
Proof.
  revert x. apply Z.peano_ind.
  - reflexivity.
  - intros x IH. unfold Z.succ.
    now rewrite Z.mul_add_distr_r, Z.mul_1_l, zmul_add, IH, zmul_succ.
  - intros x IH. unfold Z.pred.
    replace ((x + -1) * y) with (x * y + - y) by lia.
    replace (x + -1) with (x - 1) by lia.
    now rewrite zmul_add, IH, zmul_pred, zmul_opp.
Qed.

End GroupFacts.

(* ================================================================= *)
(** ** The monad, lists and loops *)

Lemma bind_Ret {A B} {m : M A} (k : A -> M B) {c c' : cost} {a : A} :
  m c = (Ret a, c') -> bind m k c = k a c'.
Proof. intros E. unfold bind. now rewrite E. Qed.

Lemma bind_lift_Ret {A B} {o : outcome A} (k : A -> M B) (c : cost) {a : A} :
  o = Ret a -> bind (lift o) k c = k a c.
Proof. intros ->. reflexivity. Qed.

Lemma bind_bind {A B C} (m : M A) (f : A -> M B) (g : B -> M C) (c : cost) :
  bind (bind m f) g c = bind m (fun x => bind (f x) g) c.
Proof. unfold bind. destruct (m c) as [[x|e|] c']; reflexivity. Qed.

Lemma bind_cong {A B} (m : M A) (k k' : A -> M B) (c : cost) :
  (forall x c', k x c' = k' x c') -> bind m k c = bind m k' c.
Proof. intros H. unfold bind. destruct (m c) as [[x|e|] c']; auto. Qed.

Lemma len_nonneg {A} (l : list A) : 0 <= len l.
Proof. unfold len. lia. Qed.

Lemma len_app {A} (l l' : list A) : len (l ++ l') = len l + len l'.
Proof. unfold len. rewrite length_app. lia. Qed.

Lemma len_cons {A} (x : A) (l : list A) : len (x :: l) = 1 + len l.
Proof. unfold len. simpl List.length. lia. Qed.

Lemma index_nth_error {A} (l : list A) (i : Z) (x : A) :
  0 <= i -> nth_error l (Z.to_nat i) = Some x -> index l i = Ret x.
Proof.
  intros Hi E. unfold index.
  assert (Hlt : (Z.to_nat i < List.length l)%nat)
    by (apply nth_error_Some; congruence).
  replace (i <? 0) with false by lia.
  replace ((0 <=? i) && (i <? len l)) with true by (unfold len; lia).
  now rewrite E.
Qed.

Lemma index_in_range {A} (l : list A) (i : Z) :
  0 <= i < len l -> exists x, index l i = Ret x /\ nth_error l (Z.to_nat i) = Some x.
Proof.
  intros Hi.
  destruct (nth_error l (Z.to_nat i)) as [x|] eqn:E.
  - exists x. split; [apply index_nth_error|]; easy.
  - apply nth_error_None in E. unfold len in Hi. lia.
Qed.


Lemma index_app_l {A} (l l' : list A) (i : Z) :
  0 <= i < len l -> index (l ++ l') i = index l i.
Proof.
  intros Hi.
  destruct (index_in_range l i Hi) as (x & -> & E).
  apply index_nth_error; [lia|].
  rewrite nth_error_app1; [easy|]. unfold len in Hi. lia.
Qed.

Lemma index_app_last {A} (l : list A) (x : A) : index (l ++ [x]) (len l) = Ret x.
Proof.
  apply index_nth_error; [apply len_nonneg|].
  unfold len. rewrite Nat2Z.id, nth_error_app2, Nat.sub_diag; reflexivity || lia.
Qed.


(** A [for] loop whose body keeps an invariant, indexed by the number of
    iterations done, runs to its end and establishes it. *)
Lemma for_loop_inv {S} (Inv : nat -> S -> cost -> Prop)
    (count : nat) (i step : Z) (body : Z -> S -> M S) (s : S) (c : cost) :
  Inv O s c ->
  (forall k s c, (k < count)%nat -> Inv k s c ->
     exists s' c', body (i + Z.of_nat k * step) s c = (Ret s', c') /\ Inv (Datatypes.S k) s' c') ->
  exists s' c', for_loop count i step body s c = (Ret s', c') /\ Inv count s' c'.
Proof.
  revert Inv i s c. induction count as [|count IH]; intros Inv i s c H0 Hstep.
  - now exists s, c.
  - destruct (Hstep O s c ltac:(lia) H0) as (s1 & c1 & E1 & H1).
    replace (i + Z.of_nat 0 * step) with i in E1 by lia.
    destruct (IH (fun k => Inv (Datatypes.S k)) (i + step) s1 c1 H1) as (s' & c' & E & H').
    + intros k s2 c2 Hk H2.
      destruct (Hstep (Datatypes.S k) s2 c2 ltac:(lia) H2) as (s3 & c3 & E3 & H3).
      exists s3, c3. split; [|exact H3].
      rewrite <- E3. f_equal. lia.
    + exists s', c'. split; [|exact H'].
      simpl. now rewrite (bind_Ret _ E1).
Qed.

(** ** Digits *)

Lemma horner_app (b v : Z) (ds ds' : list Z) :
  horner b v (ds ++ ds') = horner b (horner b v ds) ds'.
Proof. unfold horner. apply fold_left_app. Qed.

Lemma horner_rev (b : Z) (ds : list Z) : horner b 0 (rev ds) = lsb_value b ds.
Proof.
  induction ds as [|d ds IH]; [reflexivity|].
  simpl rev. rewrite horner_app, IH. simpl. lia.
Qed.


Lemma bits_of_pos_app (p : positive) (acc : list Z) :
  bits_of_pos p acc = bits_of_pos p [] ++ acc.
Proof.
  revert acc. induction p as [p IH|p IH|]; intros acc; simpl; [| |reflexivity].
  - rewrite (IH (1 :: acc)), (IH [1]), <- app_assoc. reflexivity.
  - rewrite (IH (0 :: acc)), (IH [0]), <- app_assoc. reflexivity.
Qed.

Lemma bits_of_pos_value (p : positive) : horner 2 0 (bits_of_pos p []) = Z.pos p.
Proof.
  induction p as [p IH|p IH|]; simpl; [| |reflexivity].
  - rewrite bits_of_pos_app, horner_app, IH. simpl. lia.
  - rewrite bits_of_pos_app, horner_app, IH. simpl. lia.
Qed.

Lemma bits_of_pos_bits (p : positive) :
  Forall (fun d => d = 0 \/ d = 1) (bits_of_pos p []).
Proof.
  induction p as [p IH|p IH|]; simpl.
  - rewrite bits_of_pos_app. apply Forall_app. split; [exact IH|]. constructor; auto.
  - rewrite bits_of_pos_app. apply Forall_app. split; [exact IH|]. constructor; auto.
  - constructor; auto.
Qed.

Lemma bits_of_pos_length (p : positive) :
  len (bits_of_pos p []) = Z.log2 (Z.pos p) + 1.
Proof.
  induction p as [p IH|p IH|]; simpl bits_of_pos.
  - rewrite bits_of_pos_app, len_app, IH.
    change (Z.pos p~1) with (2 * Z.pos p + 1).
    rewrite Z.log2_succ_double by lia. reflexivity.
  - rewrite bits_of_pos_app, len_app, IH.
    change (Z.pos p~0) with (2 * Z.pos p).
    rewrite Z.log2_double by lia. reflexivity.
  - reflexivity.
Qed.

(* ================================================================= *)
(** ** The engines against the curve laws *)

Section EngineFacts.
Context {ec : CurveGroup} {L : CurveLaws ec}.

(** The point the engine multiplies. *)
Variable a : pt.

Lemma repr_INFJ : repr a INFJ 0.
Proof. unfold repr. now rewrite zmul_0, INFJ_point. Qed.

Lemma repr_add (P Q : JacPoint) (u v : Z) :
  repr a P u -> repr a Q v -> repr a (_add_jac P Q) (u + v).
Proof.
  unfold repr. intros HP HQ.
  rewrite zmul_add. now apply add_jac_point.
Qed.

Lemma repr_negate (P : JacPoint) (u : Z) : repr a P u -> repr a (negate P) (- u).
Proof.
  unfold repr. intros HP.
  rewrite zmul_opp. now apply negate_point.
Qed.

Lemma repr_eq (P : JacPoint) (u v : Z) : u = v -> repr a P u -> repr a P v.
Proof. now intros ->. Qed.

Lemma repr_base (Q : JacPoint) : jac_point Q = Some a -> repr a Q 1.
Proof. unfold repr. now rewrite zmul_1. Qed.

Lemma is_INFJ_false (Q : JacPoint) : Q <> INFJ -> is_INFJ Q = false.
Proof. intros H. unfold is_INFJ. now destruct (JacPoint_eq_dec Q INFJ). Qed.

Lemma is_INFJ_true : is_INFJ INFJ = true.
Proof. unfold is_INFJ. now destruct (JacPoint_eq_dec INFJ INFJ). Qed.

(** When the input is [INFJ] it stands for every multiple of the point. *)
Lemma repr_of_INFJ (Q : JacPoint) (m : Z) :
  jac_point Q = Some a -> Q = INFJ -> repr a Q m.
Proof.
  intros HQ ->. unfold repr. rewrite HQ. f_equal.
  rewrite INFJ_point in HQ. injection HQ as <-. now rewrite zmul_zero.
Qed.

(** The test [Q == INFJ] of an engine that returns a triple [R] of [m * a]:
    on [INFJ] the engine returns it; the other case is left, with [NE]. *)
Ltac point_guard Q c HQ NE :=
  unfold is_INFJ;
  destruct (JacPoint_eq_dec Q INFJ) as [?E|NE];
  [exists Q, c; split; [reflexivity|now apply repr_of_INFJ]|].

(** *** Montgomery ladder *)

Lemma ladder_step_spec (bit : Z) (R Q : JacPoint) (v : Z) (c : cost) :
  bit = 0 \/ bit = 1 ->
  repr a R v -> repr a Q (v + 1) ->
  exists R' Q',
    ladder_step bit (R, Q) c = (Ret (R', Q'), tick_dbl (tick_add c)) /\
    repr a R' (2 * v + bit) /\ repr a Q' (2 * v + bit + 1).
Proof.
  intros [-> | ->] HR HQ; unfold ladder_step; simpl (_ =? _).
  - exists (_add_jac R R), (_add_jac R Q). split; [reflexivity|]. split.
    + apply repr_eq with (v + v); [lia|]. now apply repr_add.
    + apply repr_eq with (v + (v + 1)); [lia|]. now apply repr_add.
  - exists (_add_jac R Q), (_add_jac Q Q). split; [reflexivity|]. split.
    + apply repr_eq with (v + (v + 1)); [lia|]. now apply repr_add.
    + apply repr_eq with (v + 1 + (v + 1)); [lia|]. now apply repr_add.
Qed.

Lemma ladder_step_cost (bit : Z) (RQ : JacPoint * JacPoint) (c : cost) :
  exists RQ', ladder_step bit RQ c = (Ret RQ', tick_dbl (tick_add c)).
Proof.
  destruct RQ as [R Q]. unfold ladder_step.
  destruct (bit =? 0); eexists; reflexivity.
Qed.

Lemma ladder_loop_app (pre post : list Z) (RQ : JacPoint * JacPoint) (c : cost) :
  ladder_loop (pre ++ post) RQ c =
  (RQ' <- ladder_loop pre RQ ;; ladder_loop post RQ') c.
Proof.
  revert RQ c. induction pre as [|bit pre IH]; intros RQ c.
  - reflexivity.
  - simpl. destruct (ladder_step_cost bit RQ c) as (RQ1 & E).
    rewrite bind_bind, !(bind_Ret _ E). apply IH.
Qed.

Lemma ladder_loop_spec (bits : list Z) (R Q : JacPoint) (v : Z) (c : cost) :
  Forall (fun d => d = 0 \/ d = 1) bits ->
  repr a R v -> repr a Q (v + 1) ->
  exists R' Q' c',
    ladder_loop bits (R, Q) c = (Ret (R', Q'), c') /\
    repr a R' (horner 2 v bits) /\ repr a Q' (horner 2 v bits + 1).
Proof.
  intros Hbits. revert R Q v c.
  induction Hbits as [|bit bits Hbit _ IH]; intros R Q v c HR HQ.
  - now exists R, Q, c.
  - destruct (ladder_step_spec bit R Q v c Hbit HR HQ) as (R1 & Q1 & E1 & HR1 & HQ1).
    destruct (IH R1 Q1 _ (tick_dbl (tick_add c)) HR1 HQ1) as (R' & Q' & c' & E & HR' & HQ').
    exists R', Q', c'. split; [|now split].
    simpl. now rewrite (bind_Ret _ E1).
Qed.

Lemma ladder_loop_cost (bits : list Z) (RQ : JacPoint * JacPoint) (c : cost) :
  exists RQ' c',
    ladder_loop bits RQ c = (Ret RQ', c') /\
    additions c' = (additions c + List.length bits)%nat /\
    doublings c' = (doublings c + List.length bits)%nat /\
    negations c' = negations c.
Proof.
  revert RQ c. induction bits as [|bit bits IH]; intros RQ c.
  - exists RQ, c. simpl. repeat split; lia.
  - destruct (ladder_step_cost bit RQ c) as (RQ1 & E1).
    destruct (IH RQ1 (tick_dbl (tick_add c))) as (RQ' & c' & E & Ha & Hd & Hn).
    exists RQ', c'. simpl. rewrite (bind_Ret _ E1). simpl in Ha, Hd, Hn.
    repeat split; [exact E|lia..].
Qed.

Lemma bin_digits_spec (m : Z) :
  0 <= m ->
  exists bits,
    bin_digits m = Ret bits /\
    Forall (fun d => d = 0 \/ d = 1) bits /\
    horner 2 0 bits = m /\
    len bits = Z.max 1 (bit_length m).
Proof.
  intros Hm. destruct m as [|p|p]; [| |lia].
  - exists [0]. repeat split. constructor; auto.
  - exists (bits_of_pos p []). repeat split.
    + apply bits_of_pos_bits.
    + apply bits_of_pos_value.
    + rewrite bits_of_pos_length. unfold bit_length. simpl Z.abs.
      replace (Z.pos p =? 0) with false by lia.
      pose proof (Z.log2_nonneg (Z.pos p)). lia.
Qed.

(** The ladder returns a Jacobian triple of [m * a]. *)
Lemma mont_ladder_correct (m : Z) (Q : JacPoint) (c : cost) :
  0 <= m -> jac_point Q = Some a ->
  exists R c', _mult_jac_mont_ladder m Q c = (Ret R, c') /\ repr a R m.
Proof.
  intros Hm HQ. unfold _mult_jac_mont_ladder.
  replace (m <? 0) with false by lia.
  point_guard Q c HQ NE.
  destruct (bin_digits_spec m Hm) as (bits & Eb & Hbits & Hv & _).
  rewrite (bind_lift_Ret _ _ Eb).
  destruct (ladder_loop_spec bits INFJ Q 0 c Hbits repr_INFJ (repr_base Q HQ))
    as (R & Q' & c' & E & HR & _).
  rewrite (bind_Ret _ E). exists R, c'. split; [reflexivity|].
  now rewrite Hv in HR.
Qed.


(** ** Digits of [numberToBase] *)

Lemma numberToBase_loop_spec (b : Z) (fuel : nat) (n : Z) (acc : list Z) :
  2 <= b -> 0 <= n < 2 ^ Z.of_nat fuel ->
  exists ds,
    numberToBase_loop (S fuel) n b acc = Ret (acc ++ ds) /\
    lsb_value b ds = n /\
    Forall (fun d => 0 <= d < b) ds /\
    (List.length ds <= fuel)%nat /\
    (0 < n -> ds <> []).
Proof.
  intros Hb. revert n acc. induction fuel as [|fuel IH]; intros n acc Hn.
  - assert (n = 0) by (simpl in Hn; lia). subst n.
    exists []. simpl. rewrite app_nil_r. repeat split; auto; lia.
  - destruct (Z.eqb_spec n 0) as [->|Hn0].
    + exists []. simpl. rewrite app_nil_r. repeat split; auto; lia.
    + assert (Hdiv : 0 <= n / b < 2 ^ Z.of_nat fuel).
      { split; [apply Z.div_pos; lia|].
        apply Z.div_lt_upper_bound; [lia|].
        rewrite Nat2Z.inj_succ, Z.pow_succ_r in Hn by lia. nia. }
      destruct (IH (n / b) (acc ++ [n mod b]) Hdiv) as (ds & E & Hv & Hds & Hlen & _).
      exists (n mod b :: ds).
      split; [|split; [|split; [|split]]].
      * change (numberToBase_loop (S (S fuel)) n b acc)
          with (if n =? 0 then Ret acc
                else d <~ py_mod n b ;; n' <~ py_floordiv n b ;;
                     numberToBase_loop (S fuel) n' b (acc ++ [d])).
        replace (n =? 0) with false by lia.
        unfold py_mod, py_floordiv. replace (b =? 0) with false by lia.
        cbv beta iota delta [obind]. rewrite E, <- app_assoc. reflexivity.
      * simpl. rewrite Hv. pose proof (Z.div_mod n b). lia.
      * constructor; [apply Z.mod_pos_bound; lia|exact Hds].
      * simpl. lia.
      * discriminate.
Qed.

Lemma numberToBase_spec (b : Z) (fuel : nat) (m : Z) :
  2 <= b -> 0 <= m -> enough_fuel fuel m ->
  exists ds,
    numberToBase fuel m b = Ret ds /\
    horner b 0 ds = m /\
    Forall (fun d => 0 <= d < b) ds /\
    1 <= len ds < Z.of_nat fuel.
Proof.
  unfold enough_fuel. intros Hb Hm Hf.
  assert (Hfuel : (2 <= fuel)%nat).
  { destruct (Nat.le_gt_cases 2 fuel) as [|Hlt]; [easy|].
    rewrite Z.pow_neg_r in Hf by lia. lia. }
  unfold numberToBase. destruct (Z.eqb_spec m 0) as [->|Hm0].
  - exists [0]. repeat split; try (unfold len; simpl; lia).
    constructor; [lia|constructor].
  - destruct fuel as [|fuel]; [lia|].
    assert (Hlt : 0 <= m < 2 ^ Z.of_nat fuel).
    { split; [lia|]. eapply Z.lt_le_trans; [exact Hf|].
      apply Z.pow_le_mono_r; lia. }
    destruct (numberToBase_loop_spec b fuel m [] Hb Hlt) as (ds & E & Hv & Hds & Hlen & Hne).
    exists (rev ds). rewrite E. simpl. repeat split.
    + now rewrite horner_rev.
    + now apply Forall_rev.
    + unfold len. rewrite length_rev.
      destruct ds; [exfalso; apply Hne; [lia|reflexivity]|simpl; lia].
    + unfold len. rewrite length_rev. lia.
Qed.

Lemma firstn_succ_nth_error {A} (l : list A) (j : nat) (x : A) :
  nth_error l j = Some x -> firstn (S j) l = firstn j l ++ [x].
Proof.
  revert j. induction l as [|y l IH]; intros [|j] E; simpl in *; try discriminate.
  - now injection E as ->.
  - f_equal. now apply IH.
Qed.

Lemma index_Forall {A} (P : A -> Prop) (l : list A) (i : Z) :
  Forall P l -> 0 <= i < len l -> exists x, index l i = Ret x /\ P x /\ nth_error l (Z.to_nat i) = Some x.
Proof.
  intros HP Hi. destruct (index_in_range l i Hi) as (x & E & En).
  exists x. repeat split; try easy.
  rewrite Forall_forall in HP. apply HP. eapply nth_error_In, En.
Qed.

(** ** Tables of multiples *)

Lemma table_of_single (f : Z -> Z) (P : JacPoint) :
  repr a P (f 0) -> table_of a f [P].
Proof.
  intros HP i Hi. change (len [P]) with 1 in Hi.
  assert (i = 0) by lia. subst i. now exists P.
Qed.

Lemma table_of_snoc (f : Z -> Z) (T : list JacPoint) (P : JacPoint) :
  table_of a f T -> repr a P (f (len T)) -> table_of a f (T ++ [P]).
Proof.
  intros HT HP i Hi. rewrite len_app in Hi. change (len [P]) with 1 in Hi.
  destruct (Z.eq_dec i (len T)) as [->|NE].
  - exists P. now rewrite index_app_last.
  - rewrite index_app_l by lia. apply HT. lia.
Qed.

(** [for i in range(1, b): T.append(ec._add_jac(T[i - 1], Q))], started on
    a table of one entry, appends [b - 1] entries, each the sum of the one
    before it and [Q], at the price of [b - 1] additions. *)
Lemma chain_table (Q P0 : JacPoint) (q f0 b : Z) (c : cost) :
  repr a Q q -> repr a P0 f0 ->
  exists T c',
    for_range 1 b (append_sum Q) [P0] c = (Ret T, c') /\
    len T = Z.max 1 b /\
    table_of a (fun i => f0 + i * q) T /\
    additions c' = (additions c + Z.to_nat (b - 1))%nat /\
    doublings c' = doublings c /\
    negations c' = negations c.
Proof.
  intros HQ HP0. unfold for_range.
  destruct (for_loop_inv
    (fun k T c' =>
       len T = 1 + Z.of_nat k /\ table_of a (fun i => f0 + i * q) T /\
       additions c' = (additions c + k)%nat /\
       doublings c' = doublings c /\ negations c' = negations c)
    (Z.to_nat (b - 1)) 1 1 (append_sum Q) [P0] c) as (T & c' & E & Hlen & HT & Hc).
  - repeat split; try lia.
    apply table_of_single. apply repr_eq with f0; [lia|exact HP0].
  - intros k T c1 Hk (Hlen & HT & Ha & Hd & Hn).
    destruct (HT (Z.of_nat k) ltac:(lia)) as (P & EP & HP).
    exists (T ++ [_add_jac P Q]), (tick_add c1). split.
    + unfold append_sum.
      replace (1 + Z.of_nat k * 1 - 1) with (Z.of_nat k) by lia.
      now rewrite (bind_lift_Ret _ _ EP).
    + repeat split; cbn [additions doublings negations tick_add]; try lia.
      * rewrite len_app. change (len [_add_jac P Q]) with 1. lia.
      * apply table_of_snoc; [exact HT|].
        apply repr_eq with (f0 + Z.of_nat k * q + q); [lia|].
        now apply repr_add.
  - exists T, c'. repeat split; try easy; lia.
Qed.

(** The table of the fixed window and of basis 3: the multiples
    [0, 1, ..., b - 1] of the point. *)
Lemma full_table (Q : JacPoint) (b : Z) (c : cost) :
  1 <= b -> jac_point Q = Some a ->
  exists T c',
    for_range 1 b (append_sum Q) [INFJ] c = (Ret T, c') /\
    len T = b /\
    table_of a (fun k => k) T.
Proof.
  intros Hb HQ.
  destruct (chain_table Q INFJ 1 0 b c (repr_base Q HQ) repr_INFJ)
    as (T & c' & ET & Hlen & HT & _).
  exists T, c'. split; [exact ET|]. split; [lia|].
  intros i Hi. destruct (HT i Hi) as (P & EP & HP).
  exists P. split; [exact EP|]. apply repr_eq with (2 := HP). lia.
Qed.

(** ** Loops over the digits, most significant first *)

Lemma horner_firstn_succ (b : Z) (Md : list Z) (i : Z) (d : Z) :
  0 <= i -> nth_error Md (Z.to_nat i) = Some d ->
  horner b 0 (firstn (Z.to_nat (i + 1)) Md) = b * horner b 0 (firstn (Z.to_nat i) Md) + d.
Proof.
  intros Hi E. replace (Z.to_nat (i + 1)) with (S (Z.to_nat i)) by lia.
  rewrite (firstn_succ_nth_error _ _ _ E), horner_app. reflexivity.
Qed.

Lemma digit_loop_spec (b : Z) (Md : list Z) (body : Z -> JacPoint -> M JacPoint)
    (R0 : JacPoint) (c : cost) :
  1 <= len Md ->
  (forall i R v c, 1 <= i < len Md -> repr a R v ->
     exists d R' c',
       nth_error Md (Z.to_nat i) = Some d /\
       body i R c = (Ret R', c') /\ repr a R' (b * v + d)) ->
  repr a R0 (horner b 0 (firstn 1 Md)) ->
  exists R c', for_range 1 (len Md) body R0 c = (Ret R, c') /\ repr a R (horner b 0 Md).
Proof.
  intros Hlen Hbody HR0. unfold for_range.
  destruct (for_loop_inv
    (fun k R (_ : cost) => repr a R (horner b 0 (firstn (S k) Md)))
    (Z.to_nat (len Md - 1)) 1 1 body R0 c HR0) as (R & c' & E & HR).
  - intros k R c1 Hk HR.
    destruct (Hbody (1 + Z.of_nat k * 1) R _ c1 ltac:(lia) HR) as (d & R' & c' & Ed & E & HR').
    exists R', c'. split; [exact E|].
    apply repr_eq with (2 := HR'). symmetry.
    replace (S (S k)) with (Z.to_nat (1 + Z.of_nat k * 1 + 1)) by lia.
    rewrite (horner_firstn_succ b Md (1 + Z.of_nat k * 1) d ltac:(lia) Ed).
    do 4 f_equal. lia.
  - exists R, c'. split; [exact E|].
    replace (S (Z.to_nat (len Md - 1))) with (List.length Md) in HR by (unfold len in *; lia).
    now rewrite firstn_all in HR.
Qed.

(** [T[M[i]]] on a table of the multiples [0, 1, ..., b - 1]. *)
Lemma table_at_digit_spec (b : Z) (T : list JacPoint) (Md : list Z) (i : Z) (c : cost) :
  len T = b -> table_of a (fun k => k) T ->
  Forall (fun d => 0 <= d < b) Md -> 0 <= i < len Md ->
  exists d e,
    nth_error Md (Z.to_nat i) = Some d /\
    table_at_digit T Md i c = (Ret e, c) /\ repr a e d.
Proof.
  intros HlenT HT HMd Hi.
  destruct (index_Forall _ Md i HMd Hi) as (d & Ed & Hd & En).
  destruct (HT d ltac:(lia)) as (e & Ee & He).
  exists d, e. split; [exact En|]. split; [|exact He].
  unfold table_at_digit. now rewrite (bind_lift_Ret _ _ Ed), Ee.
Qed.

Lemma horner_firstn_1 (b : Z) (Md : list Z) (d : Z) :
  nth_error Md 0 = Some d -> horner b 0 (firstn 1 Md) = d.
Proof. destruct Md as [|x Md]; [discriminate|]. intros [= ->]. simpl. lia. Qed.

(** ** Scalar multiplication on basis 3 *)

Lemma base_3_correct (fuel : nat) (m : Z) (Q : JacPoint) (c : cost) :
  0 <= m -> jac_point Q = Some a -> enough_fuel fuel m ->
  exists R c', _mult_jac_base_3 fuel m Q c = (Ret R, c') /\ repr a R m.
Proof.
  intros Hm HQ Hf. unfold _mult_jac_base_3.
  replace (m <? 0) with false by lia.
  point_guard Q c HQ NE.
  destruct (full_table Q 3 c ltac:(lia) HQ) as (T & c1 & ET & HlenT & HT).
  rewrite (bind_Ret _ ET).
  destruct (numberToBase_spec 3 fuel m ltac:(lia) Hm Hf) as (Md & EM & Hv & HMd & Hlen).
  rewrite (bind_lift_Ret _ _ EM).
  destruct (table_at_digit_spec 3 T Md 0 c1 HlenT HT HMd ltac:(lia))
    as (d0 & R0 & Ed0 & ER0 & HR0).
  rewrite (bind_Ret _ ER0).
  rewrite <- Hv. apply digit_loop_spec; [lia| |].
  - intros i R v c2 Hi HR.
    destruct (table_at_digit_spec 3 T Md i (tick_add (tick_dbl c2)) HlenT HT HMd ltac:(lia))
      as (d & e & Ed & Ee & He).
    exists d, (_add_jac (_add_jac (_add_jac R R) R) e), (tick_add (tick_add (tick_dbl c2))).
    split; [exact Ed|]. split.
    + unfold dbl_jac, add_jac.
      unfold bind at 1. unfold bind at 1. now rewrite (bind_Ret _ Ee).
    + apply repr_eq with (v + v + v + d); [lia|].
      repeat apply repr_add; assumption.
  - now rewrite (horner_firstn_1 3 Md d0 Ed0).
Qed.

(** ** Fixed window *)

(** [w] doublings multiply by [2 ** w]. *)
Lemma double_times_spec (w : Z) (R : JacPoint) (v : Z) (c : cost) :
  0 <= w -> repr a R v ->
  exists R' c',
    double_times w R c = (Ret R', c') /\
    repr a R' (2 ^ w * v) /\
    additions c' = additions c /\
    doublings c' = (doublings c + Z.to_nat w)%nat /\
    negations c' = negations c.
Proof.
  intros Hw HR. unfold double_times, for_range.
  destruct (for_loop_inv
    (fun k R' c' =>
       repr a R' (2 ^ Z.of_nat k * v) /\
       additions c' = additions c /\
       doublings c' = (doublings c + k)%nat /\
       negations c' = negations c)
    (Z.to_nat (w - 0)) 0 1 (fun _ R => dbl_jac R) R c) as (R' & c' & E & HR' & Hc).
  - repeat split; try lia. apply repr_eq with v; [|exact HR].
    change (Z.of_nat 0) with 0. lia.
  - intros k R1 c1 Hk (HR1 & Ha & Hd & Hn).
    exists (_add_jac R1 R1), (tick_dbl c1). split; [reflexivity|].
    repeat split; cbn [additions doublings negations tick_dbl]; try lia.
    apply repr_eq with (2 ^ Z.of_nat k * v + 2 ^ Z.of_nat k * v).
    + rewrite Nat2Z.inj_succ, Z.pow_succ_r by lia. ring.
    + now apply repr_add.
  - exists R', c'. split; [exact E|].
    replace (Z.of_nat (Z.to_nat (w - 0))) with w in HR' by lia.
    replace (Z.to_nat (w - 0)) with (Z.to_nat w) in Hc by lia.
    now split.
Qed.

Lemma fixed_window_correct (fuel : nat) (m w : Z) (Q : JacPoint) (c : cost) :
  0 <= m -> 1 <= w -> jac_point Q = Some a -> enough_fuel fuel m ->
  exists R c', _mult_jac_fixed_window fuel m w Q c = (Ret R, c') /\ repr a R m.
Proof.
  intros Hm Hw HQ Hf. unfold _mult_jac_fixed_window.
  replace (m <? 0) with false by lia.
  point_guard Q c HQ NE.
  replace (w <=? 0) with false by lia. cbv zeta.
  assert (Hb : 2 <= 2 ^ w).
  { change 2 with (2 ^ 1) at 1. apply Z.pow_le_mono_r; lia. }
  destruct (full_table Q (2 ^ w) c ltac:(lia) HQ) as (T & c1 & ET & HlenT & HT).
  rewrite (bind_Ret _ ET).
  destruct (numberToBase_spec (2 ^ w) fuel m Hb Hm Hf) as (Md & EM & Hv & HMd & Hlen).
  rewrite (bind_lift_Ret _ _ EM).
  destruct (table_at_digit_spec (2 ^ w) T Md 0 c1 HlenT HT HMd ltac:(lia))
    as (d0 & R0 & Ed0 & ER0 & HR0).
  rewrite (bind_Ret _ ER0).
  rewrite <- Hv. apply digit_loop_spec; [lia| |].
  - intros i R v c2 Hi HR.
    destruct (double_times_spec w R v c2 ltac:(lia) HR) as (R1 & c3 & E1 & HR1 & _).
    destruct (table_at_digit_spec (2 ^ w) T Md i c3 HlenT HT HMd ltac:(lia))
      as (d & e & Ed & Ee & He).
    exists d, (_add_jac R1 e), (tick_add c3).
    split; [exact Ed|]. split.
    + now rewrite (bind_Ret _ E1), (bind_Ret _ Ee).
    + now apply repr_add.
  - now rewrite (horner_firstn_1 (2 ^ w) Md d0 Ed0).
Qed.

(** ** Sliding window *)

Lemma horner_shift (b v : Z) (ds : list Z) :
  horner b v ds = b ^ len ds * v + horner b 0 ds.
Proof.
  revert v. induction ds as [|d ds IH]; intros v.
  - change (len (@nil Z)) with 0. unfold horner. cbn [fold_left]. rewrite Z.pow_0_r. lia.
  - change (horner b v (d :: ds)) with (horner b (b * v + d) ds).
    change (horner b 0 (d :: ds)) with (horner b (b * 0 + d) ds).
    rewrite (IH (b * v + d)), (IH (b * 0 + d)), len_cons.
    rewrite Z.pow_add_r, Z.pow_1_r by (lia || apply len_nonneg). ring.
Qed.

Lemma horner_bits_bound (ds : list Z) :
  Forall (fun d => d = 0 \/ d = 1) ds -> 0 <= horner 2 0 ds < 2 ^ len ds.
Proof.
  induction ds as [|d ds IH] using rev_ind; intros H.
  - change (len (@nil Z)) with 0. unfold horner. cbn [fold_left]. rewrite Z.pow_0_r. lia.
  - apply Forall_app in H as [H1 H2]. inversion H2 as [|? ? Hd _]; subst.
    specialize (IH H1). rewrite horner_app, len_app.
    change (len [d]) with 1. rewrite Z.pow_add_r, Z.pow_1_r by (lia || apply len_nonneg).
    change (horner 2 (horner 2 0 ds) [d]) with (2 * horner 2 0 ds + d). lia.
Qed.

Lemma firstn_add_skipn {A} (i j : nat) (l : list A) :
  firstn (i + j) l = firstn i l ++ firstn j (skipn i l).
Proof.
  revert l. induction i as [|i IH]; intros l; [reflexivity|].
  destruct l as [|x l]; simpl.
  - now rewrite firstn_nil.
  - f_equal. apply IH.
Qed.

Lemma nth_error_skipn_add {A} (i k : nat) (l : list A) :
  nth_error (skipn i l) k = nth_error l (i + k).
Proof.
  revert l. induction i as [|i IH]; intros l; [reflexivity|].
  destruct l as [|x l]; simpl.
  - now destruct k.
  - apply IH.
Qed.

Lemma Forall_firstn_skipn {A} (P : A -> Prop) (i j : nat) (l : list A) :
  Forall P l -> Forall P (firstn j (skipn i l)).
Proof.
  intros H. rewrite <- (firstn_skipn i l) in H.
  apply Forall_app in H as [_ H].
  rewrite <- (firstn_skipn j (skipn i l)) in H.
  now apply Forall_app in H as [H _].
Qed.

Lemma sliding_table_spec (w : Z) (Q : JacPoint) (c : cost) :
  1 <= w -> repr a Q 1 ->
  exists T c',
    sliding_table w Q c = (Ret T, c') /\
    len T = 2 ^ (w - 1) /\
    table_of a (fun i => 2 ^ (w - 1) + i) T /\
    additions c' = (additions c + Z.to_nat (2 ^ (w - 1) - 1))%nat /\
    doublings c' = (doublings c + Z.to_nat (w - 1))%nat /\
    negations c' = negations c.
Proof.
  intros Hw HQ. unfold sliding_table.
  destruct (double_times_spec (w - 1) Q 1 c ltac:(lia) HQ) as (P & c1 & EP & HP & Ha1 & Hd1 & Hn1).
  rewrite (bind_Ret _ EP).
  destruct (chain_table Q P 1 (2 ^ (w - 1) * 1) (2 ^ (w - 1)) c1 HQ HP)
    as (T & c' & ET & Hlen & HT & Ha & Hd & Hn).
  assert (Hp : 1 <= 2 ^ (w - 1)) by (pose proof (Z.pow_pos_nonneg 2 (w - 1)); lia).
  exists T, c'. split; [exact ET|]. split; [lia|]. split.
  - intros i Hi. destruct (HT i Hi) as (e & Ee & He).
    exists e. split; [exact Ee|]. apply repr_eq with (2 := He). lia.
  - lia.
Qed.

Lemma window_value_spec (Md : list Z) (i j : Z) (c : cost) :
  0 <= i -> 1 <= j -> i + j <= len Md ->
  window_value Md i j c =
  (Ret (horner 2 0 (firstn (Z.to_nat j) (skipn (Z.to_nat i) Md))), c).
Proof.
  intros Hi Hj Hij. unfold window_value.
  destruct (index_in_range Md i ltac:(lia)) as (d0 & E0 & En0).
  rewrite (bind_lift_Ret _ _ E0). unfold for_range.
  destruct (for_loop_inv
    (fun k t c' => c' = c /\ t = horner 2 0 (firstn (S k) (skipn (Z.to_nat i) Md)))
    (Z.to_nat (j - 1)) 1 1
    (fun a t => Mia <- lift (index Md (i + a)) ;; ret (2 * t + Mia)) d0 c)
    as (t & c' & E & -> & ->).
  - split; [reflexivity|]. symmetry. apply horner_firstn_1.
    rewrite nth_error_skipn_add, Nat.add_0_r. exact En0.
  - intros k t c1 Hk (-> & ->).
    destruct (index_in_range Md (i + (1 + Z.of_nat k * 1)) ltac:(lia)) as (x & Ex & Enx).
    eexists _, c. split; [now rewrite (bind_lift_Ret _ _ Ex)|].
    split; [reflexivity|].
    rewrite (firstn_succ_nth_error _ (S k) x), horner_app; [reflexivity|].
    rewrite nth_error_skipn_add. rewrite <- Enx. f_equal. lia.
  - rewrite E. do 4 f_equal. lia.
Qed.

Lemma short_window_spec (Q : JacPoint) (Md : list Z) (i j : Z) (R : JacPoint) (v : Z) (c : cost) :
  Forall (fun d => d = 0 \/ d = 1) Md ->
  0 <= i -> 0 <= j -> i + j <= len Md ->
  repr a Q 1 -> repr a R v ->
  exists R' c',
    short_window Q Md i j R c = (Ret R', c') /\
    repr a R' (horner 2 v (firstn (Z.to_nat j) (skipn (Z.to_nat i) Md))).
Proof.
  intros HMd Hi Hj Hij HQ HR. unfold short_window, for_range.
  replace (i + j - i) with j by lia.
  apply (for_loop_inv
    (fun k R' (_ : cost) => repr a R' (horner 2 v (firstn k (skipn (Z.to_nat i) Md))))).
  - exact HR.
  - intros k R1 c1 Hk HR1.
    destruct (index_Forall _ Md (i + Z.of_nat k * 1) HMd ltac:(lia)) as (d & Ed & Hd & En).
    assert (Ek : firstn (S k) (skipn (Z.to_nat i) Md)
                 = firstn k (skipn (Z.to_nat i) Md) ++ [d]).
    { apply firstn_succ_nth_error. rewrite nth_error_skipn_add, <- En. f_equal. lia. }
    rewrite Ek, horner_app.
    set (x := horner 2 v (firstn k (skipn (Z.to_nat i) Md))) in *.
    assert (H2 : repr a (_add_jac R1 R1) (x + x)) by now apply repr_add.
    unfold dbl_jac. unfold bind at 1. rewrite (bind_lift_Ret _ _ Ed).
    destruct Hd as [-> | ->]; simpl (_ =? _).
    + eexists _, _. split; [reflexivity|].
      apply repr_eq with (2 := H2). unfold horner. cbn [fold_left]. lia.
    + eexists _, _. split; [reflexivity|].
      apply repr_eq with (x + x + 1); [unfold horner; cbn [fold_left]; lia|].
      now apply repr_add.
Qed.

Lemma len_firstn_skipn {A} (i j : Z) (l : list A) :
  0 <= i -> 0 <= j -> i + j <= len l ->
  len (firstn (Z.to_nat j) (skipn (Z.to_nat i) l)) = j.
Proof.
  intros Hi Hj Hij. unfold len in *.
  rewrite length_firstn, length_skipn. lia.
Qed.

(** A window that starts with the digit 1 has a value in the upper half. *)
Lemma window_lead_one (Md : list Z) (i j : Z) :
  Forall (fun d => d = 0 \/ d = 1) Md ->
  0 <= i -> 1 <= j -> i + j <= len Md ->
  nth_error Md (Z.to_nat i) = Some 1 ->
  2 ^ (j - 1) <= horner 2 0 (firstn (Z.to_nat j) (skipn (Z.to_nat i) Md)) < 2 ^ j.
Proof.
  intros HMd Hi Hj Hij E.
  pose proof (len_firstn_skipn i j Md Hi ltac:(lia) Hij) as Hlen.
  pose proof (Forall_firstn_skipn _ (Z.to_nat i) (Z.to_nat j) Md HMd) as Hbits.
  assert (E0 : nth_error (firstn (Z.to_nat j) (skipn (Z.to_nat i) Md)) 0 = Some 1).
  { rewrite nth_error_firstn.
    replace (0 <? Z.to_nat j)%nat with true by (symmetry; apply Nat.ltb_lt; lia).
    now rewrite nth_error_skipn_add, Nat.add_0_r. }
  revert Hlen Hbits E0.
  generalize (firstn (Z.to_nat j) (skipn (Z.to_nat i) Md)).
  intros [|d rest] Hlen Hbits E0; [discriminate|].
  injection E0 as ->. apply Forall_cons_iff in Hbits as [_ Hrest].
  rewrite len_cons in Hlen.
  change (horner 2 0 (1 :: rest)) with (horner 2 (2 * 0 + 1) rest).
  rewrite horner_shift. pose proof (horner_bits_bound rest Hrest) as Hb.
  subst j. replace (1 + len rest - 1) with (len rest) by lia.
  rewrite Z.pow_add_r, Z.pow_1_r by (lia || apply len_nonneg). lia.
Qed.

Lemma sliding_loop_spec (w : Z) (Q : JacPoint) (T : list JacPoint) (Md : list Z) :
  1 <= w -> repr a Q 1 ->
  len T = 2 ^ (w - 1) -> table_of a (fun i => 2 ^ (w - 1) + i) T ->
  Forall (fun d => d = 0 \/ d = 1) Md ->
  forall (fuel : nat) (i : Z) (R : JacPoint) (c : cost),
    0 <= i <= len Md -> len Md - i < Z.of_nat fuel ->
    repr a R (horner 2 0 (firstn (Z.to_nat i) Md)) ->
    exists R' c',
      sliding_loop fuel w (2 ^ (w - 1)) Q T Md i R c = (Ret R', c') /\
      repr a R' (horner 2 0 Md).
Proof.
  intros Hw HQ HlenT HT HMd.
  induction fuel as [|fuel IH]; intros i R c Hi Hfuel HR; [lia|].
  cbn [sliding_loop].
  destruct (Z.ltb_spec i (len Md)) as [Hlt|Hge].
  - destruct (index_Forall _ Md i HMd ltac:(lia)) as (d & Ed & Hd & En).
    rewrite (bind_lift_Ret _ _ Ed).
    set (v := horner 2 0 (firstn (Z.to_nat i) Md)) in *.
    destruct Hd as [-> | ->]; simpl (_ =? 0).
    + (* a zero bit *)
      unfold dbl_jac. unfold bind at 1.
      apply IH; [lia|lia|].
      rewrite (horner_firstn_succ 2 Md i 0 ltac:(lia) En). fold v.
      apply repr_eq with (v + v); [lia|]. now apply repr_add.
    + (* a window *)
      destruct (Z.ltb_spec (len Md - i) w) as [Hshort|Hfull].
      * cbv zeta.
        rewrite (bind_Ret _ (window_value_spec Md i (len Md - i) c
                               ltac:(lia) ltac:(lia) ltac:(lia))).
        replace (len Md - i <? w) with true by lia.
        destruct (short_window_spec Q Md i (len Md - i) R v c HMd ltac:(lia) ltac:(lia) ltac:(lia) HQ HR)
          as (R' & c' & E & HR').
        exists R', c'. split; [exact E|].
        apply repr_eq with (2 := HR').
        rewrite firstn_all2 by (rewrite length_skipn; unfold len; lia).
        unfold v. rewrite <- horner_app. now rewrite firstn_skipn.
      * cbv zeta.
        rewrite (bind_Ret _ (window_value_spec Md i w c
                               ltac:(lia) ltac:(lia) ltac:(lia))).
        replace (w <? w) with false by lia.
        set (t := horner 2 0 (firstn (Z.to_nat w) (skipn (Z.to_nat i) Md))).
        pose proof (window_lead_one Md i w HMd ltac:(lia) ltac:(lia) ltac:(lia) En) as Ht.
        fold t in Ht.
        destruct (double_times_spec w R v c ltac:(lia) HR) as (R1 & c1 & E1 & HR1 & _).
        rewrite (bind_Ret _ E1).
        assert (Hpow : 2 ^ w = 2 * 2 ^ (w - 1)).
        { replace w with (w - 1 + 1) at 1 by lia.
          rewrite Z.pow_add_r, Z.pow_1_r by lia. ring. }
        destruct (HT (t - 2 ^ (w - 1)) ltac:(lia)) as (e & Ee & He).
        rewrite (bind_lift_Ret _ _ Ee). unfold add_jac at 1. unfold bind at 1.
        apply IH; [lia|lia|].
        replace (Z.to_nat (i + w)) with (Z.to_nat i + Z.to_nat w)%nat by lia.
        rewrite firstn_add_skipn, horner_app, horner_shift. fold v. fold t.
        rewrite (len_firstn_skipn i w Md) by lia.
        apply repr_eq with (2 ^ w * v + (2 ^ (w - 1) + (t - 2 ^ (w - 1)))); [lia|].
        now apply repr_add.
  - exists R, c. split; [reflexivity|].
    replace (Z.to_nat i) with (List.length Md) in HR by (unfold len in *; lia).
    now rewrite firstn_all in HR.
Qed.

Lemma sliding_window_correct (fuel : nat) (m w : Z) (Q : JacPoint) (c : cost) :
  0 <= m -> 1 <= w -> jac_point Q = Some a -> enough_fuel fuel m ->
  exists R c', _mult_jac_sliding_window fuel m w Q c = (Ret R, c') /\ repr a R m.
Proof.
  intros Hm Hw HQ Hf. unfold _mult_jac_sliding_window.
  replace (m <? 0) with false by lia.
  point_guard Q c HQ NE.
  replace (w <=? 0) with false by lia. cbv zeta.
  destruct (sliding_table_spec w Q c Hw (repr_base Q HQ)) as (T & c1 & ET & HlenT & HT & _).
  rewrite (bind_Ret _ ET).
  destruct (numberToBase_spec 2 fuel m ltac:(lia) Hm Hf) as (Md & EM & Hv & HMd & Hlen).
  rewrite (bind_lift_Ret _ _ EM). rewrite <- Hv.
  apply sliding_loop_spec; try easy; try lia.
  - eapply Forall_impl; [|exact HMd]. simpl. lia.
  - exact repr_INFJ.
Qed.

(** ** Signed digits *)

Lemma pow2_pos (w : Z) : 0 <= w -> 0 < 2 ^ w.
Proof. intros. apply Z.pow_pos_nonneg; lia. Qed.

Lemma pow2_half (w : Z) : 1 <= w -> 2 ^ w = 2 * 2 ^ (w - 1).
Proof.
  intros Hw. replace w with (w - 1 + 1) at 1 by lia.
  rewrite Z.pow_add_r, Z.pow_1_r by lia. ring.
Qed.

(** Within the range of the floats, [mods m w] is the remainder of [m] by
    [2 ** w], taken below zero from [2 ** (w - 1)] on. *)
Lemma mods_eq (m w : Z) :
  0 <= w <= 1024 ->
  mods m w = Ret (if 2 ^ w <=? 2 * (m mod 2 ^ w) then m mod 2 ^ w - 2 ^ w else m mod 2 ^ w).
Proof.
  intros Hw. unfold mods, pow2, py_mod, true_div_2, int_ge_float.
  replace (w <? 0) with false by lia. cbv beta iota delta [obind].
  pose proof (pow2_pos w ltac:(lia)) as Hpos.
  replace (2 ^ w =? 0) with false by lia.
  assert (Hlt : 2 ^ w < 2 ^ 1025) by (apply Z.pow_lt_mono_r; lia).
  replace (2 ^ 1025 <=? 2 ^ w) with false by lia.
  unfold Qle_bool. cbn [Qnum Qden inject_Z].
  replace (2 ^ w * 1 <=? m mod 2 ^ w * 2) with (2 ^ w <=? 2 * (m mod 2 ^ w)) by lia.
  now destruct (2 ^ w <=? 2 * (m mod 2 ^ w)).
Qed.

(** Beyond it, the division [w2 / 2] overflows. *)
Lemma mods_overflow (m w : Z) : 1025 <= w -> mods m w = Raise OverflowError.
Proof.
  intros Hw. unfold mods, pow2, py_mod, true_div_2.
  replace (w <? 0) with false by lia. cbv beta iota delta [obind].
  pose proof (pow2_pos w ltac:(lia)) as Hpos.
  replace (2 ^ w =? 0) with false by lia.
  assert (Hle : 2 ^ 1025 <= 2 ^ w) by (apply Z.pow_le_mono_r; lia).
  replace (2 ^ 1025 <=? 2 ^ w) with true by lia.
  reflexivity.
Qed.

Lemma mods_spec (m w : Z) :
  1 <= w <= 1024 ->
  exists r,
    mods m w = Ret r /\
    (r - m) mod 2 ^ w = 0 /\
    - 2 ^ (w - 1) <= r <= 2 ^ (w - 1) - 1.
Proof.
  intros Hw. rewrite mods_eq by lia.
  pose proof (pow2_pos w ltac:(lia)) as Hpos.
  pose proof (pow2_half w ltac:(lia)) as Hhalf.
  pose proof (Z.mod_pos_bound m (2 ^ w) Hpos) as Hb.
  pose proof (Z.div_mod m (2 ^ w) ltac:(lia)) as Hdm.
  eexists. split; [reflexivity|].
  destruct (Z.leb_spec (2 ^ w) (2 * (m mod 2 ^ w))) as [Hge|Hlt].
  - split; [|lia].
    replace (m mod 2 ^ w - 2 ^ w - m) with ((- (m / 2 ^ w) - 1) * 2 ^ w) by lia.
    apply Z.mod_mul; lia.
  - split; [|lia].
    replace (m mod 2 ^ w - m) with ((- (m / 2 ^ w)) * 2 ^ w) by lia.
    apply Z.mod_mul; lia.
Qed.

(** The arithmetic of one odd step of the signed-digit loop: the digit [d]
    taken from an odd [m <= 2 ** k] is odd and small, and the rest
    [(m - d) // 2] is at most [2 ** (k - 1)]. *)
Lemma naf_odd_step (w k m : Z) :
  2 <= w -> 0 <= k -> 0 < m <= 2 ^ k -> m mod 2 = 1 ->
  let d := if 2 ^ w <=? 2 * (m mod 2 ^ w) then m mod 2 ^ w - 2 ^ w else m mod 2 ^ w in
  d mod 2 = 1 /\
  - 2 ^ (w - 1) < d < 2 ^ (w - 1) /\
  d + 2 * ((m - d) / 2) = m /\
  0 <= (m - d) / 2 /\
  (k = 0 -> (m - d) / 2 = 0) /\
  (1 <= k -> (m - d) / 2 <= 2 ^ (k - 1)).
Proof.
  intros Hw Hk Hm Hodd.
  pose proof (pow2_pos (w - 1) ltac:(lia)) as Hh.
  pose proof (pow2_half w ltac:(lia)) as Hb.
  pose proof (pow2_half (w - 1) ltac:(lia)) as Hh2.
  pose proof (Z.mod_pos_bound m (2 ^ w) ltac:(lia)) as HM.
  pose proof (Z.div_mod m (2 ^ w) ltac:(lia)) as Hdm.
  pose proof (Z.div_mod m 2 ltac:(lia)) as Hm2.
  assert (Hq : 0 <= m / 2 ^ w) by (apply Z.div_pos; lia).
  set (h := 2 ^ (w - 1)) in *. set (h' := 2 ^ (w - 1 - 1)) in *.
  set (M := m mod 2 ^ w) in *. set (q := m / 2 ^ w) in *.
  rewrite Hb in *.
  assert (HMm : M = 2 * (m / 2 - h * q) + 1) by lia.
  assert (Hpow : k = 0 \/ (1 <= k /\ 2 ^ k = 2 * 2 ^ (k - 1))).
  { destruct (Z.eq_dec k 0); [now left|right]. split; [lia|]. apply pow2_half. lia. }
  intros d. subst d.
  destruct (Z.leb_spec (2 * h) (2 * M)) as [Hge|Hlt].
  - (* the digit is negative: [d = M - 2h] and the rest is [h * (q + 1)] *)
    assert (Ediv : (m - (M - 2 * h)) / 2 = h * (q + 1)).
    { replace (m - (M - 2 * h)) with (h * (q + 1) * 2) by lia. apply Z.div_mul. lia. }
    rewrite Ediv.
    assert (Hd : (M - 2 * h) mod 2 = 1).
    { replace (M - 2 * h) with (1 + (m / 2 - h * q - h) * 2) by lia.
      now rewrite Z.mod_add by lia. }
    split; [exact Hd|]. split; [lia|]. split; [lia|]. split; [nia|].
    destruct Hpow as [-> | [Hk1 Hpk]].
    + split; [|lia]. intros _. change (2 ^ 0) with 1 in Hm. lia.
    + split; [lia|]. intros _.
      destruct (Z.le_gt_cases w k) as [Hwk|Hkw].
      * assert (Hsplit : 2 ^ k = 2 * h * 2 ^ (k - w)).
        { rewrite <- Hb, <- Z.pow_add_r by lia. f_equal. lia. }
        pose proof (pow2_pos (k - w) ltac:(lia)) as Hp.
        assert (q + 1 <= 2 ^ (k - w)) by nia.
        nia.
      * assert (2 ^ k <= h).
        { unfold h. apply Z.pow_le_mono_r; lia. }
        lia.
  - (* the digit is positive: [d = M] and the rest is [h * q] *)
    assert (Ediv : (m - M) / 2 = h * q).
    { replace (m - M) with (h * q * 2) by lia. apply Z.div_mul. lia. }
    rewrite Ediv.
    assert (Hd : M mod 2 = 1).
    { rewrite HMm. replace (2 * (m / 2 - h * q) + 1) with (1 + (m / 2 - h * q) * 2) by lia.
      now rewrite Z.mod_add by lia. }
    split; [exact Hd|]. split; [lia|]. split; [lia|]. split; [nia|].
    destruct Hpow as [-> | [Hk1 Hpk]].
    + split; [|lia]. intros _. change (2 ^ 0) with 1 in Hm. nia.
    + split; [lia|]. intros _. nia.
Qed.

Lemma naf_digits_loop_unfold (fuel : nat) (w m i : Z) (Md : list Z) :
  naf_digits_loop fuel w m i Md =
  match fuel with
  | O => OutOfFuel
  | S fuel' =>
    if 0 <? m then
      if m mod 2 =? 1 then
        d <~ mods m w ;;
        Mi <~ index (Md ++ [d]) i ;;
        naf_digits_loop fuel' w ((m - Mi) / 2) (i + 1) (Md ++ [d])
      else naf_digits_loop fuel' w (m / 2) (i + 1) (Md ++ [0])
    else Ret (i, Md)
  end.
Proof. destruct fuel; reflexivity. Qed.

Lemma naf_digits_loop_spec (w : Z) (k : nat) (m i : Z) (Md : list Z) :
  2 <= w <= 1024 -> 0 <= m <= 2 ^ Z.of_nat k -> i = len Md ->
  exists ds,
    naf_digits_loop (S (S k)) w m i Md = Ret (i + len ds, Md ++ ds) /\
    lsb_value 2 ds = m /\
    Forall (naf_digit w) ds.
Proof.
  intros Hw. revert m i Md.
  assert (Hzero : forall fuel i Md,
            naf_digits_loop (S fuel) w 0 i Md = Ret (i + len (@nil Z), Md ++ [])).
  { intros. rewrite naf_digits_loop_unfold, app_nil_r. simpl (0 <? 0).
    change (len (@nil Z)) with 0. now rewrite Z.add_0_r. }
  induction k as [|k IH]; intros m i Md Hm Hi.
  - (* [m] is 0 or 1 *)
    change (2 ^ Z.of_nat 0) with 1 in Hm.
    destruct (Z.eq_dec m 0) as [->|Hm0].
    + exists []. split; [apply Hzero|]. now split.
    + assert (m = 1) by lia. subst m.
      destruct (naf_odd_step w 0 1 ltac:(lia) ltac:(lia) ltac:(change (2 ^ 0) with 1; lia) eq_refl)
        as (Hodd & Hrange & Hval & _ & Hrest & _).
      exists [if 2 ^ w <=? 2 * (1 mod 2 ^ w) then 1 mod 2 ^ w - 2 ^ w else 1 mod 2 ^ w].
      split; [|split].
      * rewrite naf_digits_loop_unfold. simpl (0 <? 1). simpl (1 mod 2 =? 1).
        rewrite mods_eq by lia. cbv beta iota delta [obind].
        subst i. rewrite index_app_last. rewrite (Hrest eq_refl), Hzero.
        rewrite app_nil_r. change (len (@nil Z)) with 0. rewrite Z.add_0_r.
        reflexivity.
      * cbn [lsb_value]. rewrite (Hrest eq_refl) in Hval. exact Hval.
      * constructor; [right; now split|constructor].
  - destruct (Z.eq_dec m 0) as [->|Hm0].
    + exists []. split; [apply Hzero|]. now split.
    + assert (Hpk : 2 ^ Z.of_nat (S k) = 2 * 2 ^ Z.of_nat k).
      { rewrite Nat2Z.inj_succ, Z.pow_succ_r by lia. reflexivity. }
      rewrite naf_digits_loop_unfold. replace (0 <? m) with true by lia.
      destruct (Z.eqb_spec (m mod 2) 1) as [Hodd|Heven].
      * destruct (naf_odd_step w (Z.of_nat (S k)) m ltac:(lia) ltac:(lia) ltac:(lia) Hodd)
          as (Hdodd & Hrange & Hval & Hnonneg & _ & Hle).
        rewrite mods_eq by lia. cbv beta iota delta [obind].
        set (d := if 2 ^ w <=? 2 * (m mod 2 ^ w) then m mod 2 ^ w - 2 ^ w else m mod 2 ^ w) in *.
        subst i. rewrite index_app_last.
        destruct (IH ((m - d) / 2) (len Md + 1) (Md ++ [d])) as (ds & E & Hv & Hds).
        { split; [exact Hnonneg|].
          replace (Z.of_nat k) with (Z.of_nat (S k) - 1) by lia. apply Hle. lia. }
        { rewrite len_app. reflexivity. }
        exists (d :: ds). split; [|split].
        -- rewrite E, <- app_assoc, len_cons. do 2 f_equal. lia.
        -- cbn [lsb_value]. rewrite Hv. exact Hval.
        -- constructor; [right; now split|exact Hds].
      * pose proof (Z.div_mod m 2 ltac:(lia)) as Hdm.
        pose proof (Z.mod_pos_bound m 2 ltac:(lia)) as Hmb.
        destruct (IH (m / 2) (i + 1) (Md ++ [0])) as (ds & E & Hv & Hds).
        { lia. }
        { rewrite len_app. subst i. reflexivity. }
        exists (0 :: ds). split; [|split].
        -- rewrite E, <- app_assoc, len_cons. do 2 f_equal. lia.
        -- cbn [lsb_value]. rewrite Hv. lia.
        -- constructor; [now left|exact Hds].
Qed.

(** ** wNAF *)

Lemma naf_table_spec (w : Z) (Q : JacPoint) (c : cost) :
  1 <= w -> repr a Q 1 ->
  exists T c',
    naf_table (2 ^ w) Q c = (Ret T, c') /\
    len T = 2 ^ w /\
    table_of a (naf_entry (2 ^ (w - 1))) T /\
    (forall k, 0 <= k < 2 ^ (w - 1) ->
       exists e, index T k = Ret e /\ index T (2 ^ (w - 1) + k) = Ret (negate e)).
Proof.
  intros Hw HQ. unfold naf_table.
  pose proof (pow2_half w Hw) as Hb.
  pose proof (pow2_pos (w - 1) ltac:(lia)) as Hh.
  assert (Ehalf : 2 ^ w / 2 = 2 ^ (w - 1)).
  { rewrite Hb, Z.mul_comm. apply Z.div_mul. lia. }
  rewrite Ehalf. set (h := 2 ^ (w - 1)) in *.
  unfold dbl_jac at 1. unfold bind at 1.
  assert (HQ2 : repr a (_add_jac Q Q) 2) by (apply repr_eq with (1 + 1); [lia|now apply repr_add]).
  destruct (chain_table (_add_jac Q Q) Q 2 1 h (tick_dbl c) HQ2 HQ) as (T1 & c1 & E1 & Hlen1 & HT1 & _).
  rewrite (bind_Ret _ E1). unfold for_range.
  destruct (for_loop_inv
    (fun k T (_ : cost) =>
       len T = h + Z.of_nat k /\ table_of a (naf_entry h) T /\
       forall i, 0 <= i < Z.of_nat k ->
         exists e, index T i = Ret e /\ index T (h + i) = Ret (negate e))
    (Z.to_nat (2 ^ w - h)) h 1 (append_negated h) T1 c1) as (T & c' & E & Hlen & HT & Hneg).
  - split; [lia|]. split; [|lia]. intros i Hi. destruct (HT1 i Hi) as (e & Ee & He).
    exists e. split; [exact Ee|]. apply repr_eq with (2 := He).
    unfold naf_entry. replace (i <? h) with true by lia. lia.
  - intros k T c2 Hk (Hlen & HT & Hneg).
    destruct (HT (Z.of_nat k) ltac:(lia)) as (e & Ee & He).
    exists (T ++ [negate e]), (tick_neg c2). split.
    + unfold append_negated.
      replace (h + Z.of_nat k * 1 - h) with (Z.of_nat k) by lia.
      now rewrite (bind_lift_Ret _ _ Ee).
    + split; [|split].
      * rewrite len_app. change (len [negate e]) with 1. lia.
      * apply table_of_snoc; [exact HT|].
        apply repr_eq with (- naf_entry h (Z.of_nat k)); [|now apply repr_negate].
        unfold naf_entry. rewrite Hlen.
        replace (Z.of_nat k <? h) with true by lia.
        replace (h + Z.of_nat k <? h) with false by lia. lia.
      * intros i Hi. destruct (Z.eq_dec i (Z.of_nat k)) as [->|NE].
        -- exists e. rewrite index_app_l by lia. split; [exact Ee|].
           rewrite <- Hlen. apply index_app_last.
        -- destruct (Hneg i ltac:(lia)) as (e' & Ee' & En').
           exists e'. now rewrite !index_app_l by lia.
  - exists T, c'. split; [exact E|]. split; [lia|]. split; [exact HT|].
    intros k Hk. apply Hneg. lia.
Qed.

Lemma skipn_nth_error {A} (l : list A) (j : nat) (x : A) :
  nth_error l j = Some x -> skipn j l = x :: skipn (S j) l.
Proof.
  revert j. induction l as [|y l IH]; intros [|j] E; simpl in *; try discriminate.
  - now injection E as ->.
  - now apply IH.
Qed.

(** One step of the scan: a doubling, and for a digit that is not zero the
    addition of the table entry that holds this multiple. *)
Lemma naf_step_spec (w : Z) (T : list JacPoint) (Md : list Z) (j d : Z)
    (R : JacPoint) (x : Z) (c : cost) :
  1 <= w -> len T = 2 ^ w -> table_of a (naf_entry (2 ^ (w - 1))) T ->
  index Md j = Ret d -> naf_digit w d -> repr a R x ->
  exists R' c', naf_step (2 ^ w) T Md j R c = (Ret R', c') /\ repr a R' (d + 2 * x).
Proof.
  intros Hw Hlen HT Ed Hd HR. unfold naf_step.
  pose proof (pow2_half w Hw) as Hb.
  pose proof (pow2_pos (w - 1) ltac:(lia)) as Hh.
  assert (Ehalf : 2 ^ w / 2 = 2 ^ (w - 1)).
  { rewrite Hb, Z.mul_comm. apply Z.div_mul. lia. }
  rewrite Ehalf. set (h := 2 ^ (w - 1)) in *.
  unfold dbl_jac at 1. unfold bind at 1. rewrite (bind_lift_Ret _ _ Ed).
  assert (H2 : repr a (_add_jac R R) (x + x)) by now apply repr_add.
  destruct Hd as [-> | [Hodd Hrange]].
  - simpl (negb _). exists (_add_jac R R), (tick_dbl c). split; [reflexivity|].
    apply repr_eq with (2 := H2). lia.
  - pose proof (Z.div_mod d 2 ltac:(lia)) as Hdm.
    replace (negb (d =? 0)) with true by (destruct (Z.eqb_spec d 0); [subst; discriminate|reflexivity]).
    destruct (Z.ltb_spec 0 d) as [Hpos|Hneg].
    + assert (E1 : (d - 1) / 2 = d / 2).
      { replace (d - 1) with (d / 2 * 2) by lia. apply Z.div_mul. lia. }
      rewrite E1.
      destruct (HT (d / 2) ltac:(lia)) as (e & Ee & He).
      rewrite (bind_lift_Ret _ _ Ee).
      exists (_add_jac (_add_jac R R) e), (tick_add (tick_dbl c)). split; [reflexivity|].
      apply repr_eq with (x + x + naf_entry h (d / 2)); [|now apply repr_add].
      unfold naf_entry. replace (d / 2 <? h) with true by lia. lia.
    + assert (E1 : (d + 1) / 2 = d / 2 + 1).
      { replace (d + 1) with ((d / 2 + 1) * 2) by lia. apply Z.div_mul. lia. }
      rewrite E1.
      destruct (HT (h - (d / 2 + 1)) ltac:(lia)) as (e & Ee & He).
      rewrite (bind_lift_Ret _ _ Ee).
      exists (_add_jac (_add_jac R R) e), (tick_add (tick_dbl c)). split; [reflexivity|].
      apply repr_eq with (x + x + naf_entry h (h - (d / 2 + 1))); [|now apply repr_add].
      unfold naf_entry. replace (h - (d / 2 + 1) <? h) with false by lia. lia.
Qed.

Lemma naf_scan_spec (w : Z) (T : list JacPoint) (Md : list Z) (c : cost) :
  1 <= w -> len T = 2 ^ w -> table_of a (naf_entry (2 ^ (w - 1))) T ->
  Forall (naf_digit w) Md ->
  exists R c',
    for_range_down (len Md - 1) (-1) (naf_step (2 ^ w) T Md) INFJ c = (Ret R, c') /\
    repr a R (lsb_value 2 Md).
Proof.
  intros Hw Hlen HT HMd. unfold for_range_down.
  replace (Z.to_nat (len Md - 1 - -1)) with (List.length Md) by (unfold len; lia).
  destruct (for_loop_inv
    (fun k R (_ : cost) => repr a R (lsb_value 2 (skipn (List.length Md - k) Md)))
    (List.length Md) (len Md - 1) (-1) (naf_step (2 ^ w) T Md) INFJ c) as (R & c' & E & HR).
  - rewrite Nat.sub_0_r, skipn_all. exact repr_INFJ.
  - intros k R c1 Hk HR.
    destruct (index_Forall _ Md (len Md - 1 + Z.of_nat k * -1) HMd ltac:(unfold len; lia))
      as (d & Ed & Hd & En).
    destruct (naf_step_spec w T Md (len Md - 1 + Z.of_nat k * -1) d R _ c1 Hw Hlen HT Ed Hd HR)
      as (R' & c' & E & HR').
    exists R', c'. split; [exact E|].
    apply repr_eq with (2 := HR').
    replace (Z.to_nat (len Md - 1 + Z.of_nat k * -1)) with (List.length Md - S k)%nat in En
      by (unfold len; lia).
    rewrite (skipn_nth_error _ _ _ En).
    replace (S (List.length Md - S k)) with (List.length Md - k)%nat by lia.
    reflexivity.
  - exists R, c'. split; [exact E|].
    now rewrite Nat.sub_diag in HR.
Qed.

Lemma w_NAF_correct (fuel : nat) (m w : Z) (Q : JacPoint) (c : cost) :
  0 <= m -> 2 <= w <= 1024 -> jac_point Q = Some a -> enough_fuel fuel m ->
  exists R c', _mult_jac_w_NAF fuel m w Q c = (Ret R, c') /\ repr a R m.
Proof.
  intros Hm Hw HQ Hf. unfold _mult_jac_w_NAF.
  replace (m <? 0) with false by lia.
  destruct (Z.eqb_spec m 0) as [->|Hm0].
  - exists INFJ, c. split; [reflexivity|exact repr_INFJ].
  - point_guard Q c HQ NE.
    replace (w <=? 0) with false by lia.
    unfold enough_fuel in Hf.
    destruct fuel as [|[|k]];
      [rewrite Z.pow_neg_r in Hf by lia; lia
      |rewrite Z.pow_neg_r in Hf by lia; lia|].
    replace (Z.of_nat (S (S k)) - 2) with (Z.of_nat k) in Hf by lia.
    destruct (naf_digits_loop_spec w k m 0 [] Hw ltac:(lia) eq_refl)
      as (Md & EM & Hv & HMd).
    rewrite (bind_lift_Ret _ _ EM). cbv beta iota zeta. cbn [app].
    destruct (naf_table_spec w Q c ltac:(lia) (repr_base Q HQ)) as (T & c1 & ET & Hlen & HT & _).
    rewrite (bind_Ret _ ET).
    rewrite <- Hv. replace (0 + len Md - 1) with (len Md - 1) by lia.
    apply naf_scan_spec; [lia|exact Hlen|exact HT|exact HMd].
Qed.

(* ================================================================= *)
(** ** The Montgomery ladder, step by step *)

(** C10.  In the loop of [_mult_jac_mont_ladder] on an input [Q0] other
    than [INFJ], before every iteration, that is after any prefix [pre] of
    the bits of [m], the two accumulators [R] and [Q] are on the curve,
    their difference [Q - R] is the input point, and [R] is [v * Q0] for the
    value [v] of the bits consumed so far; the engine goes on from this
    state, and when no bit is left it returns [R], which is [m * Q0]. *)
Theorem mont_ladder_invariant (m : Z) (Q0 : JacPoint) (bits pre post : list Z) (c : cost) :
  0 <= m -> Q0 <> INFJ -> jac_point Q0 = Some a ->
  bin_digits m = Ret bits -> bits = pre ++ post ->
  exists R Q c1,
    ladder_loop pre (INFJ, Q0) c = (Ret (R, Q), c1) /\
    (exists r q,
       jac_point R = Some r /\ jac_point Q = Some q /\
       add q (opp r) = a /\ r = zmul (horner 2 0 pre) a) /\
    _mult_jac_mont_ladder m Q0 c = (RQ <- ladder_loop post (R, Q) ;; ret (fst RQ)) c1 /\
    (post = [] ->
     _mult_jac_mont_ladder m Q0 c = (Ret R, c1) /\ jac_point R = Some (zmul m a)).
Proof.
  intros Hm HQ0 Ha Ebits Esplit.
  destruct (bin_digits_spec m Hm) as (bits' & Eb & Hbits & Hv & _).
  rewrite Ebits in Eb. injection Eb as <-. subst bits.
  apply Forall_app in Hbits as [Hpre Hpost].
  destruct (ladder_loop_spec pre INFJ Q0 0 c Hpre repr_INFJ (repr_base Q0 Ha))
    as (R & Q & c1 & E & HR & HQ).
  exists R, Q, c1.
  assert (Erun : _mult_jac_mont_ladder m Q0 c
                 = (RQ <- ladder_loop post (R, Q) ;; ret (fst RQ)) c1).
  { unfold _mult_jac_mont_ladder. replace (m <? 0) with false by lia.
    unfold is_INFJ. destruct (JacPoint_eq_dec Q0 INFJ) as [|_]; [contradiction|].
    rewrite (bind_lift_Ret _ _ Ebits).
    unfold bind at 1. rewrite ladder_loop_app, (bind_Ret _ E).
    reflexivity. }
  split; [exact E|]. split; [|split; [exact Erun|]].
  - exists (zmul (horner 2 0 pre) a), (zmul (horner 2 0 pre + 1) a).
    split; [exact HR|]. split; [exact HQ|]. split; [|reflexivity].
    rewrite <- zmul_opp, <- zmul_add.
    replace (horner 2 0 pre + 1 + - horner 2 0 pre) with 1 by lia.
    apply zmul_1.
  - intros ->. rewrite app_nil_r in Hv. rewrite Erun. split; [reflexivity|].
    rewrite <- Hv. exact HR.
Qed.

(** C3, as the code has it.  On an input other than [INFJ] the ladder does
    one addition and one doubling for each binary digit of the scalar: as
    many of each as the scalar has bits, and one of each for the scalar 0,
    which has no bit and is written with the one digit 0.  Two scalars
    of the same bit length cost the same. *)
Theorem mont_ladder_operation_count (m1 m2 : Z) (Q : JacPoint) (c : cost) :
  0 <= m1 -> 0 <= m2 -> bit_length m1 = bit_length m2 -> Q <> INFJ ->
  exists R1 R2 c1 c2,
    _mult_jac_mont_ladder m1 Q c = (Ret R1, c1) /\
    _mult_jac_mont_ladder m2 Q c = (Ret R2, c2) /\
    additions c1 = (additions c + Z.to_nat (Z.max 1 (bit_length m1)))%nat /\
    doublings c1 = (doublings c + Z.to_nat (Z.max 1 (bit_length m1)))%nat /\
    negations c1 = negations c /\
    c2 = c1.
Proof.
  intros Hm1 Hm2 Hlen HQ.
  assert (Hrun : forall m, 0 <= m ->
            exists R c',
              _mult_jac_mont_ladder m Q c = (Ret R, c') /\
              additions c' = (additions c + Z.to_nat (Z.max 1 (bit_length m)))%nat /\
              doublings c' = (doublings c + Z.to_nat (Z.max 1 (bit_length m)))%nat /\
              negations c' = negations c).
  { intros m Hm. unfold _mult_jac_mont_ladder. replace (m <? 0) with false by lia.
    unfold is_INFJ. destruct (JacPoint_eq_dec Q INFJ) as [|_]; [contradiction|].
    destruct (bin_digits_spec m Hm) as (bits & Eb & _ & _ & Hk).
    rewrite (bind_lift_Ret _ _ Eb).
    destruct (ladder_loop_cost bits (INFJ, Q) c) as (RQ & c' & E & Ha & Hd & Hn).
    rewrite (bind_Ret _ E). exists (fst RQ), c'. split; [reflexivity|].
    unfold len in Hk. lia. }
  destruct (Hrun m1 Hm1) as (R1 & c1 & E1 & Ha1 & Hd1 & Hn1).
  destruct (Hrun m2 Hm2) as (R2 & c2 & E2 & Ha2 & Hd2 & Hn2).
  exists R1, R2, c1, c2. repeat split; try assumption.
  rewrite <- Hlen in Ha2, Hd2.
  destruct c1, c2; simpl in *. f_equal; lia.
Qed.

(* ================================================================= *)
(** ** The sliding-window table *)

(** C4, as the code has it.  For [w >= 1] the table of the sliding-window
    engine is built from [P], which is [Q] doubled [w - 1] times, that is
    [2^(w-1) * Q], by appending [2^(w-1) - 1] times the sum of the last
    entry and [Q]: it holds the consecutive multiples
    [2^(w-1) * Q, (2^(w-1) + 1) * Q, ..., (2^w - 1) * Q], the entry at
    index [i] being [(2^(w-1) + i) * Q]. *)
Theorem sliding_window_table (w : Z) (Q : JacPoint) (c : cost) :
  1 <= w -> jac_point Q = Some a ->
  exists P c0 T c',
    double_times (w - 1) Q c = (Ret P, c0) /\
    jac_point P = Some (zmul (2 ^ (w - 1)) a) /\
    for_range 1 (2 ^ (w - 1)) (append_sum Q) [P] c0 = (Ret T, c') /\
    sliding_table w Q c = (Ret T, c') /\
    len T = 2 ^ (w - 1) /\
    (forall i, 0 <= i < 2 ^ (w - 1) ->
       exists e, index T i = Ret e /\ jac_point e = Some (zmul (2 ^ (w - 1) + i) a)) /\
    doublings c' = (doublings c + Z.to_nat (w - 1))%nat /\
    additions c' = (additions c + Z.to_nat (2 ^ (w - 1) - 1))%nat /\
    negations c' = negations c /\
    (forall fuel m, 0 <= m -> Q <> INFJ ->
       _mult_jac_sliding_window fuel m w Q c
       = (Md <- lift (numberToBase fuel m 2) ;;
          sliding_loop fuel w (2 ^ (w - 1)) Q T Md 0 INFJ) c').
Proof.
  intros Hw HQ. pose proof (repr_base Q HQ) as HQ1.
  destruct (double_times_spec (w - 1) Q 1 c ltac:(lia) HQ1) as (P & c0 & EP & HP & _).
  destruct (sliding_table_spec w Q c Hw HQ1) as (T & c' & ET & Hlen & HT & Ha & Hd & Hn).
  exists P, c0, T, c'.
  assert (ET' : for_range 1 (2 ^ (w - 1)) (append_sum Q) [P] c0 = (Ret T, c')).
  { unfold sliding_table in ET. now rewrite (bind_Ret _ EP) in ET. }
  split; [exact EP|]. split.
  { apply repr_eq with (2 := HP). lia. }
  split; [exact ET'|]. split; [exact ET|]. split; [exact Hlen|].
  split; [intros i Hi; apply HT; lia|].
  repeat (split; [assumption|]).
  intros fuel m Hm NE. unfold _mult_jac_sliding_window.
  replace (m <? 0) with false by lia. rewrite (is_INFJ_false Q NE).
  replace (w <=? 0) with false by lia. cbv zeta.
  now rewrite (bind_Ret _ ET).
Qed.

(* ================================================================= *)
(** ** The guards of the engines *)

(** C6, as the code has it.  With [w <= 0] and a scalar [m >= 0], the
    fixed-window, sliding-window and wNAF engines raise the value error on
    [w] before any group operation, and so before any table, when the
    point is not [INFJ] (and, for wNAF, the scalar is not 0).  The test of
    the point comes first: on [INFJ] the three engines return [INFJ]
    whatever [w] is, and so does wNAF on the scalar 0. *)
Theorem nonpositive_window (fuel : nat) (m w : Z) (Q : JacPoint) (c : cost) :
  0 <= m -> w <= 0 ->
  (Q <> INFJ ->
   _mult_jac_fixed_window fuel m w Q c
     = (Raise (ValueError "w must be strictly positive"), c) /\
   _mult_jac_sliding_window fuel m w Q c
     = (Raise (ValueError "w must be strictly positive"), c) /\
   (m <> 0 ->
    _mult_jac_w_NAF fuel m w Q c
      = (Raise (ValueError "w must be strictly positive"), c))) /\
  _mult_jac_fixed_window fuel m w INFJ c = (Ret INFJ, c) /\
  _mult_jac_sliding_window fuel m w INFJ c = (Ret INFJ, c) /\
  _mult_jac_w_NAF fuel m w INFJ c = (Ret INFJ, c) /\
  _mult_jac_w_NAF fuel 0 w Q c = (Ret INFJ, c).
Proof.
  intros Hm Hw.
  unfold _mult_jac_fixed_window, _mult_jac_sliding_window, _mult_jac_w_NAF.
  replace (m <? 0) with false by lia. replace (w <=? 0) with true by lia.
  rewrite is_INFJ_true. simpl (0 <? 0). simpl (0 =? 0).
  split; [|repeat split; now destruct (m =? 0)].
  intros HQ. rewrite (is_INFJ_false Q HQ). repeat split.
  intros Hm0. now replace (m =? 0) with false by lia.
Qed.

Lemma negative_scalar_engines (fuel : nat) (m w : Z) (Q : JacPoint) (c : cost) :
  m < 0 ->
  _mult_jac_mont_ladder m Q c = (Raise (ValueError "negative m"), c) /\
  _mult_jac_base_3 fuel m Q c = (Raise (ValueError "negative m"), c) /\
  _mult_jac_fixed_window fuel m w Q c = (Raise (ValueError "negative m"), c) /\
  _mult_jac_sliding_window fuel m w Q c = (Raise (ValueError "negative m"), c) /\
  _mult_jac_w_NAF fuel m w Q c = (Raise (ValueError "negative m"), c).
Proof.
  intros Hm.
  unfold _mult_jac_mont_ladder, _mult_jac_base_3, _mult_jac_fixed_window,
    _mult_jac_sliding_window, _mult_jac_w_NAF.
  replace (m <? 0) with true by lia. now repeat split.
Qed.

(* ================================================================= *)
(** ** The public entry points *)

Lemma jac_of_point_spec (Q : option Point) (c : cost) :
  point_arg Q = Some a ->
  exists QJ, jac_of_point Q c = (Ret QJ, c) /\ jac_point QJ = Some a.
Proof.
  destruct Q as [P|]; simpl; intros HP.
  - exists (_jac_from_aff P). split; [|now apply jac_from_aff_point].
    assert (E : require_on_curve P = Ret tt).
    { apply require_on_curve_point. congruence. }
    now rewrite (bind_lift_Ret _ _ E).
  - now exists GJ.
Qed.

(** Without a point the entry points work on the generator, which is on
    the curve. *)
Lemma point_arg_generator : exists g, point_arg None = Some g.
Proof.
  simpl. destruct (jac_point GJ) as [g|] eqn:E; [now exists g|].
  now destruct GJ_on_curve.
Qed.

Lemma reduced_scalar_int (m : Z) (c : cost) :
  reduced_scalar (IInt m) c = (Ret (m mod n), c) /\ 0 <= m mod n < n.
Proof.
  pose proof order_pos as Hn. split; [|apply Z.mod_pos_bound; lia].
  unfold reduced_scalar. simpl int_from_integer.
  unfold py_mod. replace (n =? 0) with false by lia. reflexivity.
Qed.

(** An entry point on an integer scalar is the same computation as on the
    scalar reduced modulo [n]. *)
Lemma reduced_scalar_mod (m : Z) (c : cost) :
  reduced_scalar (IInt (m mod n)) c = reduced_scalar (IInt m) c.
Proof.
  unfold reduced_scalar. simpl int_from_integer.
  rewrite !(bind_lift_Ret _ _ eq_refl). unfold py_mod.
  destruct (Z.eqb_spec n 0) as [E|NE]; [reflexivity|].
  now rewrite Z.mod_mod.
Qed.

Lemma enough_fuel_le (fuel : nat) (m m' : Z) :
  m' <= m -> enough_fuel fuel m -> enough_fuel fuel m'.
Proof. unfold enough_fuel. lia. Qed.

(** From an engine that returns a triple of [m' * a] to its entry point. *)
Lemma entry_point_spec (engine : Z -> JacPoint -> M JacPoint) (m : Z)
    (Q : option Point) (c : cost) :
  point_arg Q = Some a ->
  (forall QJ c0, jac_point QJ = Some a ->
     exists R c', engine (m mod n) QJ c0 = (Ret R, c') /\ repr a R (m mod n)) ->
  exists R c',
    (QJ <- jac_of_point Q ;;
     m' <- reduced_scalar (IInt m) ;;
     R <- engine m' QJ ;;
     ret (_aff_from_jac R)) c = (Ret R, c') /\
    aff_point R = Some (zmul (m mod n) a).
Proof.
  intros HQ Hengine.
  destruct (jac_of_point_spec Q c HQ) as (QJ & E1 & HQJ).
  destruct (reduced_scalar_int m c) as (E2 & _).
  destruct (Hengine _ c HQJ) as (R & c' & E & HR).
  exists (_aff_from_jac R), c'. split.
  - now rewrite (bind_Ret _ E1), (bind_Ret _ E2), (bind_Ret _ E).
  - now apply aff_from_jac_point.
Qed.

Lemma mult_mont_ladder_correct (m : Z) (Q : option Point) (c : cost) :
  point_arg Q = Some a ->
  exists R c',
    mult_mont_ladder (IInt m) Q c = (Ret R, c') /\
    aff_point R = Some (zmul (m mod n) a).
Proof.
  intros HQ. apply (entry_point_spec _mult_jac_mont_ladder); [exact HQ|].
  intros QJ c0 HQJ. apply mont_ladder_correct; [|exact HQJ].
  apply reduced_scalar_int; exact c.
Qed.

Lemma mult_base_3_correct (fuel : nat) (m : Z) (Q : option Point) (c : cost) :
  point_arg Q = Some a -> enough_fuel fuel n ->
  exists R c',
    mult_base_3 fuel (IInt m) Q c = (Ret R, c') /\
    aff_point R = Some (zmul (m mod n) a).
Proof.
  intros HQ Hf. destruct (reduced_scalar_int m c) as (_ & Hmod).
  apply (entry_point_spec (_mult_jac_base_3 fuel)); [exact HQ|].
  intros QJ c0 HQJ. apply base_3_correct; [lia|exact HQJ|].
  apply enough_fuel_le with n; [lia|exact Hf].
Qed.

Lemma mult_fixed_window_correct (fuel : nat) (m w : Z) (Q : option Point) (c : cost) :
  point_arg Q = Some a -> 1 <= w -> enough_fuel fuel n ->
  exists R c',
    mult_fixed_window fuel (IInt m) (IInt w) Q c = (Ret R, c') /\
    aff_point R = Some (zmul (m mod n) a).
Proof.
  intros HQ Hw Hf. destruct (reduced_scalar_int m c) as (_ & Hmod).
  apply (entry_point_spec (fun m' QJ => _mult_jac_fixed_window fuel m' w QJ)); [exact HQ|].
  intros QJ c0 HQJ. apply fixed_window_correct; [lia|exact Hw|exact HQJ|].
  apply enough_fuel_le with n; [lia|exact Hf].
Qed.

Lemma mult_sliding_window_correct (fuel : nat) (m w : Z) (Q : option Point) (c : cost) :
  point_arg Q = Some a -> 1 <= w -> enough_fuel fuel n ->
  exists R c',
    mult_sliding_window fuel (IInt m) (IInt w) Q c = (Ret R, c') /\
    aff_point R = Some (zmul (m mod n) a).
Proof.
  intros HQ Hw Hf. destruct (reduced_scalar_int m c) as (_ & Hmod).
  apply (entry_point_spec (fun m' QJ => _mult_jac_sliding_window fuel m' w QJ)); [exact HQ|].
  intros QJ c0 HQJ. apply sliding_window_correct; [lia|exact Hw|exact HQJ|].
  apply enough_fuel_le with n; [lia|exact Hf].
Qed.

Lemma mult_w_NAF_correct (fuel : nat) (m w : Z) (Q : option Point) (c : cost) :
  point_arg Q = Some a -> 2 <= w <= 1024 -> enough_fuel fuel n ->
  exists R c',
    mult_w_NAF fuel (IInt m) (IInt w) Q c = (Ret R, c') /\
    aff_point R = Some (zmul (m mod n) a).
Proof.
  intros HQ Hw Hf. destruct (reduced_scalar_int m c) as (_ & Hmod).
  apply (entry_point_spec (fun m' QJ => _mult_jac_w_NAF fuel m' w QJ)); [exact HQ|].
  intros QJ c0 HQJ. apply w_NAF_correct; [lia|exact Hw|exact HQJ|].
  apply enough_fuel_le with n; [lia|exact Hf].
Qed.

(** Where [n * a] is the point at infinity, the multiple by [m mod n] is
    the multiple by [m]. *)
Lemma zmul_mod_order (m : Z) : zmul n a = zero -> zmul (m mod n) a = zmul m a.
Proof.
  intros Hn. pose proof order_pos as Hpos.
  rewrite (Z.div_mod m n) at 2 by lia.
  rewrite zmul_add, Z.mul_comm, zmul_mul, Hn, zmul_zero.
  symmetry. apply add_zero_l.
Qed.

(** The five engines, each on a valid window width (at most 1024 for wNAF),
    return Jacobian triples of the same point [m * Q]. *)
Theorem engines_agree (fuel : nat) (m w_fixed w_sliding w_naf : Z) (Q : JacPoint) (c : cost) :
  0 <= m -> jac_point Q = Some a -> enough_fuel fuel m ->
  1 <= w_fixed -> 1 <= w_sliding -> 2 <= w_naf <= 1024 ->
  exists R1 R2 R3 R4 R5 c1 c2 c3 c4 c5,
    _mult_jac_mont_ladder m Q c = (Ret R1, c1) /\
    _mult_jac_base_3 fuel m Q c = (Ret R2, c2) /\
    _mult_jac_fixed_window fuel m w_fixed Q c = (Ret R3, c3) /\
    _mult_jac_sliding_window fuel m w_sliding Q c = (Ret R4, c4) /\
    _mult_jac_w_NAF fuel m w_naf Q c = (Ret R5, c5) /\
    jac_point R1 = Some (zmul m a) /\
    jac_point R2 = Some (zmul m a) /\
    jac_point R3 = Some (zmul m a) /\
    jac_point R4 = Some (zmul m a) /\
    jac_point R5 = Some (zmul m a).
Proof.
  intros Hm HQ Hf H3 H4 H5.
  destruct (mont_ladder_correct m Q c Hm HQ) as (R1 & c1 & E1 & HR1).
  destruct (base_3_correct fuel m Q c Hm HQ Hf) as (R2 & c2 & E2 & HR2).
  destruct (fixed_window_correct fuel m w_fixed Q c Hm H3 HQ Hf) as (R3 & c3 & E3 & HR3).
  destruct (sliding_window_correct fuel m w_sliding Q c Hm H4 HQ Hf) as (R4 & c4 & E4 & HR4).
  destruct (w_NAF_correct fuel m w_naf Q c Hm H5 HQ Hf) as (R5 & c5 & E5 & HR5).
  exists R1, R2, R3, R4, R5, c1, c2, c3, c4, c5. repeat split; assumption.
Qed.

(** X9.  The five entry points, on a point of the curve or on the generator,
    return one and the same affine point, the multiple by [m mod n], which
    is the multiple by [m] where [n * a] is the point at infinity. *)
Theorem strategies_agree (fuel : nat) (m w_fixed w_sliding w_naf : Z)
    (Q : option Point) (c : cost) :
  point_arg Q = Some a -> enough_fuel fuel n ->
  1 <= w_fixed -> 1 <= w_sliding -> 2 <= w_naf <= 1024 ->
  exists R c1 c2 c3 c4 c5,
    aff_point R = Some (zmul (m mod n) a) /\
    (zmul n a = zero -> aff_point R = Some (zmul m a)) /\
    mult_mont_ladder (IInt m) Q c = (Ret R, c1) /\
    mult_base_3 fuel (IInt m) Q c = (Ret R, c2) /\
    mult_fixed_window fuel (IInt m) (IInt w_fixed) Q c = (Ret R, c3) /\
    mult_sliding_window fuel (IInt m) (IInt w_sliding) Q c = (Ret R, c4) /\
    mult_w_NAF fuel (IInt m) (IInt w_naf) Q c = (Ret R, c5).
Proof.
  intros HQ Hf H3 H4 H5.
  destruct (mult_mont_ladder_correct m Q c HQ) as (R1 & c1 & E1 & HR1).
  destruct (mult_base_3_correct fuel m Q c HQ Hf) as (R2 & c2 & E2 & HR2).
  destruct (mult_fixed_window_correct fuel m w_fixed Q c HQ H3 Hf) as (R3 & c3 & E3 & HR3).
  destruct (mult_sliding_window_correct fuel m w_sliding Q c HQ H4 Hf) as (R4 & c4 & E4 & HR4).
  destruct (mult_w_NAF_correct fuel m w_naf Q c HQ H5 Hf) as (R5 & c5 & E5 & HR5).
  rewrite (aff_point_inj R2 R1 _ HR2 HR1) in E2.
  rewrite (aff_point_inj R3 R1 _ HR3 HR1) in E3.
  rewrite (aff_point_inj R4 R1 _ HR4 HR1) in E4.
  rewrite (aff_point_inj R5 R1 _ HR5 HR1) in E5.
  exists R1, c1, c2, c3, c4, c5. repeat split; try assumption.
  intros Hn. now rewrite <- (zmul_mod_order m Hn).
Qed.

(** C2, as the code has it.  Every engine raises the value error on a
    negative scalar, before anything else.  The entry points never pass one
    on: they reduce the scalar modulo [n] first, so that on a negative
    scalar [m] and a point of the curve they return the multiple by
    [m mod n], which is not negative ([(n - 1) * Q] for the scalar -1). *)
Theorem negative_scalar (fuel : nat) (m w : Z) (QJ : JacPoint) (Q : option Point) (c : cost) :
  m < 0 -> point_arg Q = Some a -> enough_fuel fuel n -> 2 <= w <= 1024 ->
  (_mult_jac_mont_ladder m QJ c = (Raise (ValueError "negative m"), c) /\
   _mult_jac_base_3 fuel m QJ c = (Raise (ValueError "negative m"), c) /\
   _mult_jac_fixed_window fuel m w QJ c = (Raise (ValueError "negative m"), c) /\
   _mult_jac_sliding_window fuel m w QJ c = (Raise (ValueError "negative m"), c) /\
   _mult_jac_w_NAF fuel m w QJ c = (Raise (ValueError "negative m"), c)) /\
  0 <= m mod n < n /\
  exists R c1 c2 c3 c4 c5,
    aff_point R = Some (zmul (m mod n) a) /\
    mult_mont_ladder (IInt m) Q c = (Ret R, c1) /\
    mult_base_3 fuel (IInt m) Q c = (Ret R, c2) /\
    mult_fixed_window fuel (IInt m) (IInt w) Q c = (Ret R, c3) /\
    mult_sliding_window fuel (IInt m) (IInt w) Q c = (Ret R, c4) /\
    mult_w_NAF fuel (IInt m) (IInt w) Q c = (Ret R, c5).
Proof.
  intros Hm HQ Hf Hw.
  split; [now apply negative_scalar_engines|].
  split; [apply reduced_scalar_int; exact c|].
  destruct (mult_mont_ladder_correct m Q c HQ) as (R1 & c1 & E1 & HR1).
  destruct (mult_base_3_correct fuel m Q c HQ Hf) as (R2 & c2 & E2 & HR2).
  destruct (mult_fixed_window_correct fuel m w Q c HQ ltac:(lia) Hf) as (R3 & c3 & E3 & HR3).
  destruct (mult_sliding_window_correct fuel m w Q c HQ ltac:(lia) Hf) as (R4 & c4 & E4 & HR4).
  destruct (mult_w_NAF_correct fuel m w Q c HQ Hw Hf) as (R5 & c5 & E5 & HR5).
  rewrite (aff_point_inj R2 R1 _ HR2 HR1) in E2.
  rewrite (aff_point_inj R3 R1 _ HR3 HR1) in E3.
  rewrite (aff_point_inj R4 R1 _ HR4 HR1) in E4.
  rewrite (aff_point_inj R5 R1 _ HR5 HR1) in E5.
  exists R1, c1, c2, c3, c4, c5. repeat split; assumption.
Qed.

(** Each entry point is the same computation on an integer [m] as on
    [m mod n]. *)
Theorem entry_points_reduce (fuel : nat) (m : Z) (w : Integer) (Q : option Point) (c : cost) :
  mult_mont_ladder (IInt (m mod n)) Q c = mult_mont_ladder (IInt m) Q c /\
  mult_base_3 fuel (IInt (m mod n)) Q c = mult_base_3 fuel (IInt m) Q c /\
  mult_fixed_window fuel (IInt (m mod n)) w Q c = mult_fixed_window fuel (IInt m) w Q c /\
  mult_sliding_window fuel (IInt (m mod n)) w Q c = mult_sliding_window fuel (IInt m) w Q c /\
  mult_w_NAF fuel (IInt (m mod n)) w Q c = mult_w_NAF fuel (IInt m) w Q c.
Proof.
  unfold mult_mont_ladder, mult_base_3, mult_fixed_window, mult_sliding_window, mult_w_NAF.
  repeat split; apply bind_cong; intros QJ c0;
    unfold bind; now rewrite reduced_scalar_mod.
Qed.

(* ================================================================= *)
(** ** The digits of wNAF and the table entries they select *)

Lemma index_In {A} (l : list A) (i : Z) (x : A) : index l i = Ret x -> In x l.
Proof.
  unfold index. destruct (_ && _); [|discriminate].
  destruct (nth_error l _) eqn:E; [|discriminate].
  intros [= ->]. eapply nth_error_In, E.
Qed.

Lemma mods_Ret_inv (m w d : Z) :
  0 <= w -> mods m w = Ret d ->
  d = if 2 ^ w <=? 2 * (m mod 2 ^ w) then m mod 2 ^ w - 2 ^ w else m mod 2 ^ w.
Proof.
  intros Hw E. destruct (Z.le_gt_cases w 1024) as [Hle|Hgt].
  - rewrite mods_eq in E by lia. now injection E.
  - rewrite mods_overflow in E by lia. discriminate.
Qed.

(** Whenever the digit loop returns, each of its digits is zero or odd and
    below [2 ** (w - 1)] in absolute value. *)
Lemma naf_digits_loop_valid (w : Z) (fuel : nat) (m i : Z) (Md0 : list Z) (p : Z) (Md : list Z) :
  2 <= w -> i = len Md0 ->
  naf_digits_loop fuel w m i Md0 = Ret (p, Md) ->
  Forall (naf_digit w) Md0 -> Forall (naf_digit w) Md.
Proof.
  intros Hw. revert m i Md0.
  induction fuel as [|fuel IH]; intros m i Md0 Hi E H0; [discriminate|].
  rewrite naf_digits_loop_unfold in E.
  destruct (Z.ltb_spec 0 m) as [Hm|Hm]; [|now injection E as _ <-].
  destruct (Z.eqb_spec (m mod 2) 1) as [Hodd|Heven].
  - destruct (mods m w) as [d| |] eqn:Ed; try discriminate.
    cbv beta iota delta [obind] in E.
    subst i. rewrite index_app_last in E.
    apply mods_Ret_inv in Ed; [|lia].
    assert (Hpow : m <= 2 ^ m) by (pose proof (Z.pow_gt_lin_r 2 m); lia).
    destruct (naf_odd_step w m m ltac:(lia) ltac:(lia) ltac:(lia) Hodd) as (Hd1 & Hd2 & _).
    rewrite <- Ed in Hd1, Hd2.
    apply (IH ((m - d) / 2) (len Md0 + 1) (Md0 ++ [d]));
      [rewrite len_app; reflexivity|exact E|].
    apply Forall_app. split; [exact H0|]. constructor; [right; now split|constructor].
  - apply (IH (m / 2) (i + 1) (Md0 ++ [0]));
      [rewrite len_app; subst i; reflexivity|exact E|].
    apply Forall_app. split; [exact H0|]. constructor; [now left|constructor].
Qed.

(** C7, as the code has it.  In the wNAF engine with [w >= 2], let [T] be
    the table and [d] a digit other than zero of the signed-digit sequence,
    at whatever position [j].  The step for this digit doubles [R] and adds
    the entry of [T] at index [(|d| - 1) / 2], in the lower half, for
    [d > 0], and at index [halfSize - (d + 1) // 2], which is
    [halfSize + (|d| - 1) / 2], in the upper half, for [d < 0], where
    [halfSize = 2^(w-1)].  The entry added is [d * Q]: for [d < 0] it is the
    opposite of the entry for [|d|], that is [- |d| * Q]. *)
Theorem w_NAF_digit_lookup (fuel : nat) (m w : Z) (Q : JacPoint) (p : Z)
    (Md : list Z) (T : list JacPoint) (c0 c1 : cost)
    (j d : Z) (R : JacPoint) (c : cost) :
  2 <= w -> jac_point Q = Some a ->
  naf_digits_loop fuel w m 0 [] = Ret (p, Md) ->
  naf_table (2 ^ w) Q c0 = (Ret T, c1) ->
  index Md j = Ret d -> d <> 0 ->
  let h := 2 ^ (w - 1) in
  let i := if 0 <? d then (Z.abs d - 1) / 2 else h + (Z.abs d - 1) / 2 in
  exists e,
    index T i = Ret e /\
    jac_point e = Some (zmul d a) /\
    naf_step (2 ^ w) T Md j R c = (Ret (_add_jac (_add_jac R R) e), tick_add (tick_dbl c)) /\
    (0 < d -> 0 <= i < h) /\
    (d < 0 ->
     h <= i < 2 * h /\ i = h - (d + 1) / 2 /\
     exists e', index T (i - h) = Ret e' /\ e = negate e' /\
                jac_point e' = Some (zmul (Z.abs d) a)).
Proof.
  intros Hw HQ EM ET Ed Hd0 h i.
  assert (Hdig : naf_digit w d).
  { assert (HMd : Forall (naf_digit w) Md)
      by (apply (naf_digits_loop_valid w fuel m 0 [] p Md); auto).
    rewrite Forall_forall in HMd. apply HMd. eapply index_In, Ed. }
  destruct Hdig as [|[Hodd Hrange]]; [contradiction|]. fold h in Hrange.
  pose proof (pow2_half w ltac:(lia)) as Hb. fold h in Hb.
  assert (Ehalf : 2 ^ w / 2 = h).
  { rewrite Hb, Z.mul_comm. apply Z.div_mul. lia. }
  pose proof (Z.div_mod d 2 ltac:(lia)) as Hdm.
  destruct (naf_table_spec w Q c0 ltac:(lia) (repr_base Q HQ))
    as (T' & c' & ET' & Hlen & HT & Hneg).
  rewrite ET in ET'. injection ET' as <- <-. fold h in HT, Hneg.
  assert (Hstep : forall k e,
            (if 0 <? d then (d - 1) / 2 else 2 ^ w / 2 - (d + 1) / 2) = k ->
            index T k = Ret e ->
            naf_step (2 ^ w) T Md j R c
            = (Ret (_add_jac (_add_jac R R) e), tick_add (tick_dbl c))).
  { intros k e Ek Ee. unfold naf_step.
    unfold dbl_jac at 1. unfold bind at 1. rewrite (bind_lift_Ret _ _ Ed).
    replace (negb (d =? 0)) with true by (destruct (Z.eqb_spec d 0); easy).
    destruct (0 <? d); rewrite Ek, (bind_lift_Ret _ _ Ee); reflexivity. }
  subst i. destruct (Z.ltb_spec 0 d) as [Hpos|Hneg'].
  - replace (Z.abs d) with d by lia.
    assert (E1 : (d - 1) / 2 = d / 2).
    { replace (d - 1) with (d / 2 * 2) by lia. apply Z.div_mul. lia. }
    rewrite E1.
    destruct (HT (d / 2) ltac:(lia)) as (e & Ee & He).
    exists e. split; [exact Ee|]. split; [|split; [|split; [lia|lia]]].
    + apply repr_eq with (2 := He). unfold naf_entry.
      replace (d / 2 <? h) with true by lia. lia.
    + now apply (Hstep (d / 2)).
  - assert (Eabs : (Z.abs d - 1) / 2 = - (d / 2) - 1).
    { replace (Z.abs d - 1) with ((- (d / 2) - 1) * 2) by lia. apply Z.div_mul. lia. }
    assert (Eneg : (d + 1) / 2 = d / 2 + 1).
    { replace (d + 1) with ((d / 2 + 1) * 2) by lia. apply Z.div_mul. lia. }
    rewrite Eabs.
    destruct (Hneg (- (d / 2) - 1) ltac:(lia)) as (e' & Ee' & Ee).
    destruct (HT (- (d / 2) - 1) ltac:(lia)) as (e'' & Ee'' & He').
    rewrite Ee' in Ee''. injection Ee'' as <-.
    unfold naf_entry in He'. replace (- (d / 2) - 1 <? h) with true in He' by lia.
    exists (negate e'). split; [exact Ee|]. split; [|split; [|split; [lia|]]].
    + apply repr_eq with (- (2 * (- (d / 2) - 1) + 1)); [lia|].
      now apply repr_negate.
    + apply (Hstep (h + (- (d / 2) - 1))); [|exact Ee]. rewrite Ehalf, Eneg. lia.
    + intros _. split; [lia|]. split; [lia|].
      exists e'. replace (h + (- (d / 2) - 1) - h) with (- (d / 2) - 1) by lia.
      split; [exact Ee'|]. split; [reflexivity|].
      apply repr_eq with (2 := He'). lia.
Qed.

(* ================================================================= *)
(** ** wNAF on the window widths 1 and 1025 *)

(** With [w = 1] the digit of an odd [m] is -1 and the rest [(m + 1) // 2]
    is positive again: the loop never ends. *)
Lemma naf_digits_width_one (fuel : nat) (m i : Z) (Md : list Z) :
  0 < m -> i = len Md -> naf_digits_loop fuel 1 m i Md = OutOfFuel.
Proof.
  revert m i Md. induction fuel as [|fuel IH]; intros m i Md Hm Hi; [reflexivity|].
  rewrite naf_digits_loop_unfold. replace (0 <? m) with true by lia.
  pose proof (Z.div_mod m 2 ltac:(lia)) as Hdm.
  pose proof (Z.mod_pos_bound m 2 ltac:(lia)) as Hmb.
  destruct (Z.eqb_spec (m mod 2) 1) as [Hodd|Heven].
  - rewrite mods_eq by lia. change (2 ^ 1) with 2. rewrite Hodd. simpl (2 <=? 2 * 1).
    cbv beta iota delta [obind]. subst i. rewrite index_app_last.
    apply IH; [|rewrite len_app; reflexivity].
    change (if 2 <=? 2 then 1 - 2 else 1) with (-1).
    replace (m - -1) with ((m / 2 + 1) * 2) by lia. rewrite Z.div_mul by lia.
    assert (0 <= m / 2) by (apply Z.div_pos; lia). lia.
  - apply IH; [|rewrite len_app; subst i; reflexivity].
    assert (0 <= m / 2) by (apply Z.div_pos; lia). lia.
Qed.

(** C5: the code against the claim.  With [w = 1], a scalar [m > 0] and a
    point other than [INFJ], the wNAF engine raises no error: the width
    passes the guard [w <= 0] and the digit loop is still running when the
    fuel runs out, whatever the fuel. *)
Theorem w_NAF_width_one (fuel : nat) (m : Z) (Q : JacPoint) (c : cost) :
  0 < m -> Q <> INFJ ->
  _mult_jac_w_NAF fuel m 1 Q c = (OutOfFuel, c).
Proof.
  intros Hm HQ. unfold _mult_jac_w_NAF.
  replace (m <? 0) with false by lia. replace (m =? 0) with false by lia.
  rewrite (is_INFJ_false Q HQ). simpl (1 <=? 0).
  unfold bind, lift. now rewrite naf_digits_width_one.
Qed.

(** With [w >= 1025] the first odd value of [m] makes [mods] overflow. *)
Lemma naf_digits_overflow (w : Z) (k : nat) (m i : Z) (Md : list Z) :
  1025 <= w -> 0 < m <= 2 ^ Z.of_nat k ->
  naf_digits_loop (S k) w m i Md = Raise OverflowError.
Proof.
  intros Hw. revert m i Md. induction k as [|k IH]; intros m i Md Hm;
    rewrite naf_digits_loop_unfold; replace (0 <? m) with true by lia;
    pose proof (Z.div_mod m 2 ltac:(lia)) as Hdm;
    pose proof (Z.mod_pos_bound m 2 ltac:(lia)) as Hmb;
    destruct (Z.eqb_spec (m mod 2) 1) as [Hodd|Heven];
    try (now rewrite mods_overflow).
  - change (2 ^ Z.of_nat 0) with 1 in Hm. assert (m = 1) by lia. subst m.
    now contradiction Heven.
  - rewrite Nat2Z.inj_succ, Z.pow_succ_r in Hm by lia. apply IH.
    assert (0 <= m / 2) by (apply Z.div_pos; lia). lia.
Qed.

Lemma w_NAF_overflow_run (fuel : nat) (m w : Z) (Q : JacPoint) (c : cost) :
  0 < m -> 1025 <= w -> Q <> INFJ -> enough_fuel fuel m ->
  _mult_jac_w_NAF fuel m w Q c = (Raise OverflowError, c).
Proof.
  intros Hm Hw HQ Hf. unfold _mult_jac_w_NAF.
  replace (m <? 0) with false by lia. replace (m =? 0) with false by lia.
  rewrite (is_INFJ_false Q HQ). replace (w <=? 0) with false by lia.
  unfold enough_fuel in Hf.
  destruct fuel as [|[|k]];
    [rewrite Z.pow_neg_r in Hf by lia; lia
    |rewrite Z.pow_neg_r in Hf by lia; lia|].
  replace (Z.of_nat (S (S k)) - 2) with (Z.of_nat k) in Hf by lia.
  unfold bind, lift. rewrite naf_digits_overflow; [reflexivity|lia|].
  rewrite Nat2Z.inj_succ, Z.pow_succ_r by lia. lia.
Qed.

(** C1: the code against the claim.  On a scalar [m > 0], a point of the
    curve other than [INFJ] and a window width [w >= 1025], which is valid
    for the three windowed engines, the Montgomery ladder, the basis-3,
    the fixed-window and the sliding-window engines return Jacobian
    triples of [m * Q], and the wNAF engine raises [OverflowError]. *)
Theorem w_NAF_wide_window (fuel : nat) (m w : Z) (Q : JacPoint) (c : cost) :
  0 < m -> 1025 <= w -> Q <> INFJ -> jac_point Q = Some a -> enough_fuel fuel m ->
  (exists R1 R2 R3 R4 c1 c2 c3 c4,
     _mult_jac_mont_ladder m Q c = (Ret R1, c1) /\
     _mult_jac_base_3 fuel m Q c = (Ret R2, c2) /\
     _mult_jac_fixed_window fuel m w Q c = (Ret R3, c3) /\
     _mult_jac_sliding_window fuel m w Q c = (Ret R4, c4) /\
     jac_point R1 = Some (zmul m a) /\
     jac_point R2 = Some (zmul m a) /\
     jac_point R3 = Some (zmul m a) /\
     jac_point R4 = Some (zmul m a)) /\
  _mult_jac_w_NAF fuel m w Q c = (Raise OverflowError, c).
Proof.
  intros Hm Hw HQ Ha Hf. split; [|now apply w_NAF_overflow_run].
  destruct (mont_ladder_correct m Q c ltac:(lia) Ha) as (R1 & c1 & E1 & HR1).
  destruct (base_3_correct fuel m Q c ltac:(lia) Ha Hf) as (R2 & c2 & E2 & HR2).
  destruct (fixed_window_correct fuel m w Q c ltac:(lia) ltac:(lia) Ha Hf) as (R3 & c3 & E3 & HR3).
  destruct (sliding_window_correct fuel m w Q c ltac:(lia) ltac:(lia) Ha Hf) as (R4 & c4 & E4 & HR4).
  exists R1, R2, R3, R4, c1, c2, c3, c4. repeat split; assumption.
Qed.

(** C8: the code against the claim.  For [1 <= w <= 1024], [mods m w] is
    congruent to [m] modulo [2^w] and lies in the centered range
    [-2^(w-1) .. 2^(w-1) - 1]; for [w >= 1025] the float division
    [w2 / 2] raises [OverflowError] and [mods] returns nothing. *)
Theorem mods_range_or_overflow (m w : Z) :
  1 <= w ->
  (w <= 1024 ->
   exists r,
     mods m w = Ret r /\
     (r - m) mod 2 ^ w = 0 /\
     - 2 ^ (w - 1) <= r <= 2 ^ (w - 1) - 1) /\
  (1025 <= w -> mods m w = Raise OverflowError).
Proof.
  intros Hw. split.
  - intros Hle. apply mods_spec. lia.
  - apply mods_overflow.
Qed.

(** The identity laws, for wNAF up to the window width 1024: on a point of
    the curve the scalar 0 gives a triple of the point at infinity and the
    scalar 1 a triple of the point itself; on the input [INFJ] every
    engine returns [INFJ], for every scalar [m >= 0] and every [w]. *)
Theorem identity_laws :
  (forall (fuel : nat) (w_fixed w_sliding w_naf : Z) (Q : JacPoint) (c : cost),
     jac_point Q = Some a -> enough_fuel fuel 1 ->
     1 <= w_fixed -> 1 <= w_sliding -> 2 <= w_naf <= 1024 ->
     forall k, k = 0 \/ k = 1 ->
     exists R1 R2 R3 R4 R5 c1 c2 c3 c4 c5,
       _mult_jac_mont_ladder k Q c = (Ret R1, c1) /\
       _mult_jac_base_3 fuel k Q c = (Ret R2, c2) /\
       _mult_jac_fixed_window fuel k w_fixed Q c = (Ret R3, c3) /\
       _mult_jac_sliding_window fuel k w_sliding Q c = (Ret R4, c4) /\
       _mult_jac_w_NAF fuel k w_naf Q c = (Ret R5, c5) /\
       jac_point R1 = Some (if k =? 0 then zero else a) /\
       jac_point R2 = Some (if k =? 0 then zero else a) /\
       jac_point R3 = Some (if k =? 0 then zero else a) /\
       jac_point R4 = Some (if k =? 0 then zero else a) /\
       jac_point R5 = Some (if k =? 0 then zero else a)) /\
  (forall (fuel : nat) (m w : Z) (c : cost),
     0 <= m ->
     _mult_jac_mont_ladder m INFJ c = (Ret INFJ, c) /\
     _mult_jac_base_3 fuel m INFJ c = (Ret INFJ, c) /\
     _mult_jac_fixed_window fuel m w INFJ c = (Ret INFJ, c) /\
     _mult_jac_sliding_window fuel m w INFJ c = (Ret INFJ, c) /\
     _mult_jac_w_NAF fuel m w INFJ c = (Ret INFJ, c)).
Proof.
  split.
  - intros fuel w_fixed w_sliding w_naf Q c HQ Hf H3 H4 H5 k Hk.
    assert (Hfk : enough_fuel fuel k) by (apply enough_fuel_le with 1; [lia|exact Hf]).
    destruct (engines_agree fuel k w_fixed w_sliding w_naf Q c ltac:(lia) HQ Hfk H3 H4 H5)
      as (R1 & R2 & R3 & R4 & R5 & c1 & c2 & c3 & c4 & c5 & E).
    exists R1, R2, R3, R4, R5, c1, c2, c3, c4, c5.
    destruct Hk as [-> | ->]; exact E.
  - intros fuel m w c Hm.
    unfold _mult_jac_mont_ladder, _mult_jac_base_3, _mult_jac_fixed_window,
      _mult_jac_sliding_window, _mult_jac_w_NAF.
    replace (m <? 0) with false by lia. rewrite is_INFJ_true.
    repeat split. now destruct (m =? 0).
Qed.

(** C9: the code against the claim.  On the scalar 1 and a point other
    than [INFJ], the wNAF engine returns a Jacobian triple of the point
    itself for a window width from 2 to 1024, and raises [OverflowError]
    from the width 1025 on. *)
Theorem w_NAF_scalar_one (fuel : nat) (w : Z) (Q : JacPoint) (c : cost) :
  2 <= w -> Q <> INFJ -> jac_point Q = Some a -> enough_fuel fuel 1 ->
  (w <= 1024 ->
   exists R c', _mult_jac_w_NAF fuel 1 w Q c = (Ret R, c') /\ jac_point R = Some a) /\
  (1025 <= w -> _mult_jac_w_NAF fuel 1 w Q c = (Raise OverflowError, c)).
Proof.
  intros Hw HQ Ha Hf. split.
  - intros Hle.
    destruct (w_NAF_correct fuel 1 w Q c ltac:(lia) ltac:(lia) Ha Hf) as (R & c' & E & HR).
    exists R, c'. split; [exact E|]. unfold repr in HR. now rewrite zmul_1 in HR.
  - intros Hge. apply w_NAF_overflow_run; [lia|exact Hge|exact HQ|exact Hf].
Qed.

End EngineFacts.

(* ================================================================= *)
(** ** What a loop that returns has cost *)

Lemma bind_inv {A B} (m : M A) (k : A -> M B) (c : cost) (b : B) (c' : cost) :
  bind m k c = (Ret b, c') ->
  exists x c1, m c = (Ret x, c1) /\ k x c1 = (Ret b, c').
Proof.
  unfold bind. destruct (m c) as [[x|e|] c1]; try discriminate.
  intros E. now exists x, c1.
Qed.

Lemma bind_Raise {A B} {m : M A} (k : A -> M B) {c c' : cost} {e : exn} :
  m c = (Raise e, c') -> bind m k c = (Raise e, c').
Proof. unfold bind. now intros ->. Qed.

Lemma lift_inv {A} (o : outcome A) (c : cost) (x : A) (c' : cost) :
  lift o c = (Ret x, c') -> o = Ret x /\ c' = c.
Proof. unfold lift. intros [= -> ->]. now split. Qed.

Lemma for_loop_post {St} (Inv : nat -> cost -> Prop) (count : nat) (i step : Z)
    (body : Z -> St -> M St) (s : St) (c : cost) (s' : St) (c' : cost) :
  Inv O c ->
  (forall k s c s1 c1, (k < count)%nat -> Inv k c ->
     body (i + Z.of_nat k * step) s c = (Ret s1, c1) -> Inv (S k) c1) ->
  for_loop count i step body s c = (Ret s', c') -> Inv count c'.
Proof.
  revert Inv i s c. induction count as [|count IH]; intros Inv i s c H0 Hstep E.
  - injection E as _ <-. exact H0.
  - cbn [for_loop] in E. apply bind_inv in E as (s1 & c1 & E1 & E).
    apply (IH (fun k => Inv (S k)) (i + step) s1 c1); [| |exact E].
    + apply (Hstep O s c s1 c1); [lia|exact H0|].
      now replace (i + Z.of_nat 0 * step) with i by lia.
    + intros k s2 c2 s3 c3 Hk H2 E3.
      apply (Hstep (S k) s2 c2 s3 c3); [lia|exact H2|].
      rewrite <- E3. f_equal. lia.
Qed.

(** The same number of operations at every turn of a loop. *)
Lemma for_loop_cost {St} (da dd dn : nat) (count : nat) (i step : Z)
    (body : Z -> St -> M St) (s : St) (c : cost) (s' : St) (c' : cost) :
  (forall j s c s1 c1, body j s c = (Ret s1, c1) ->
     additions c1 = (additions c + da)%nat /\
     doublings c1 = (doublings c + dd)%nat /\
     negations c1 = (negations c + dn)%nat) ->
  for_loop count i step body s c = (Ret s', c') ->
  additions c' = (additions c + count * da)%nat /\
  doublings c' = (doublings c + count * dd)%nat /\
  negations c' = (negations c + count * dn)%nat.
Proof.
  intros Hbody E.
  apply (for_loop_post
    (fun k c1 => additions c1 = (additions c + k * da)%nat /\
                 doublings c1 = (doublings c + k * dd)%nat /\
                 negations c1 = (negations c + k * dn)%nat)
    count i step body s c s' c'); [cbn; lia| |exact E].
  intros k s0 c0 s1 c1 _ (Ha & Hd & Hn) E1.
  destruct (Hbody _ _ _ _ _ E1) as (Ha1 & Hd1 & Hn1). lia.
Qed.

Section EngineCosts.
Context {ec : CurveGroup}.

Lemma table_at_digit_pure (T : list JacPoint) (Md : list Z) (i : Z) (c : cost)
    (e : JacPoint) (c' : cost) :
  table_at_digit T Md i c = (Ret e, c') -> c' = c.
Proof.
  unfold table_at_digit. intros E.
  apply bind_inv in E as (d & c1 & E1 & E). apply lift_inv in E1 as (_ & ->).
  now apply lift_inv in E as (_ & ->).
Qed.

Lemma double_times_cost (w : Z) (R : JacPoint) (c : cost) (R' : JacPoint) (c' : cost) :
  double_times w R c = (Ret R', c') ->
  additions c' = additions c /\
  doublings c' = (doublings c + Z.to_nat w)%nat /\
  negations c' = negations c.
Proof.
  unfold double_times, for_range. intros E.
  apply (for_loop_cost 0 1 0) in E.
  - rewrite Z.sub_0_r in E. lia.
  - intros j s c0 s1 c1 [= <- <-]. cbn. lia.
Qed.

End EngineCosts.

(* ================================================================= *)
(** ** The digits of [numberToBase] *)

Lemma horner_bound (b : Z) (ds : list Z) :
  1 <= b -> Forall (fun d => 0 <= d < b) ds -> 0 <= horner b 0 ds < b ^ len ds.
Proof.
  intros Hb. induction ds as [|d ds IH] using rev_ind; intros H.
  - change (len (@nil Z)) with 0. unfold horner. cbn [fold_left]. rewrite Z.pow_0_r. lia.
  - apply Forall_app in H as [H1 H2]. apply Forall_cons_iff in H2 as [Hd _].
    specialize (IH H1). rewrite horner_app, len_app.
    change (len [d]) with 1. rewrite Z.pow_add_r, Z.pow_1_r by (lia || apply len_nonneg).
    change (horner b (horner b 0 ds) [d]) with (b * horner b 0 ds + d).
    assert (b * (horner b 0 ds + 1) <= b * b ^ len ds) by (apply Z.mul_le_mono_nonneg_l; lia).
    nia.
Qed.

Lemma numberToBase_loop_step (fuel : nat) (n b : Z) (digits : list Z) :
  n <> 0 -> b <> 0 ->
  numberToBase_loop (S fuel) n b digits
  = numberToBase_loop fuel (n / b) b (digits ++ [n mod b]).
Proof.
  intros Hn Hb. cbn [numberToBase_loop]. unfold py_mod, py_floordiv.
  replace (n =? 0) with false by lia. replace (b =? 0) with false by lia.
  reflexivity.
Qed.

(** The last digit that the loop writes is not 0. *)
Lemma numberToBase_loop_top (b : Z) (fuel : nat) (n : Z) (acc ds : list Z) :
  2 <= b -> 0 < n ->
  numberToBase_loop fuel n b acc = Ret ds ->
  exists ds' d, ds = ds' ++ [d] /\ 0 < d.
Proof.
  intros Hb. revert n acc. induction fuel as [|fuel IH]; intros n acc Hn E; [discriminate|].
  rewrite numberToBase_loop_step in E by lia.
  destruct (Z.eq_dec (n / b) 0) as [E0|N0].
  - rewrite E0 in E. destruct fuel; [discriminate|]. cbn in E. injection E as <-.
    exists acc, (n mod b). split; [reflexivity|].
    pose proof (Z.div_mod n b ltac:(lia)). pose proof (Z.mod_pos_bound n b ltac:(lia)). lia.
  - apply (IH (n / b) _) in E; [exact E|].
    pose proof (Z.div_pos n b ltac:(lia) ltac:(lia)). lia.
Qed.

(** X1.  For a base [b >= 2] and [n >= 0], [numberToBase] returns the
    digits of [n] in base [b], most significant first: each is in
    [0 .. b - 1], their value is [n], the list is [[0]] for 0, and for
    [n > 0] the first digit is not 0, which makes the list the shortest
    one. *)
Theorem numberToBase_digits (fuel : nat) (n b : Z) :
  2 <= b -> 0 <= n -> enough_fuel fuel n ->
  exists d ds,
    numberToBase fuel n b = Ret (d :: ds) /\
    horner b 0 (d :: ds) = n /\
    Forall (fun x => 0 <= x < b) (d :: ds) /\
    (n = 0 -> d = 0 /\ ds = []) /\
    (0 < n -> 0 < d /\ b ^ len ds <= n < b ^ (len ds + 1)).
Proof.
  intros Hb Hn Hf.
  destruct (numberToBase_spec b fuel n Hb Hn Hf) as (l & E & Hv & Hl & Hlen).
  destruct l as [|d ds]; [change (len (@nil Z)) with 0 in Hlen; lia|].
  exists d, ds. split; [exact E|]. split; [exact Hv|]. split; [exact Hl|].
  split.
  - intros ->. unfold numberToBase in E. cbn in E. now injection E as <- <-.
  - intros Hpos.
    assert (Hd : 0 < d).
    { unfold numberToBase in E. replace (n =? 0) with false in E by lia.
      destruct (numberToBase_loop fuel n b []) as [lsb| |] eqn:El; try discriminate.
      cbn [obind] in E. injection E as E.
      destruct (numberToBase_loop_top b fuel n [] lsb Hb Hpos El) as (ds' & d' & -> & Hd').
      rewrite rev_app_distr in E. cbn in E. now injection E as <- _. }
    split; [exact Hd|].
    apply Forall_cons_iff in Hl as [Hdb Hds].
    pose proof (horner_bound b ds ltac:(lia) Hds) as Hbound.
    change (horner b 0 (d :: ds)) with (horner b (b * 0 + d) ds) in Hv.
    rewrite horner_shift in Hv. pose proof (len_nonneg ds) as Hlds.
    rewrite Z.pow_add_r, Z.pow_1_r by lia.
    pose proof (Z.pow_pos_nonneg b (len ds) ltac:(lia) Hlds). nia.
Qed.

Lemma numberToBase_digits_witness :
  2 <= 3 /\ 0 <= 47 /\ enough_fuel 10 47 /\
  exists d ds,
    numberToBase 10 47 3 = Ret (d :: ds) /\
    horner 3 0 (d :: ds) = 47 /\
    Forall (fun x => 0 <= x < 3) (d :: ds) /\
    (47 = 0 -> d = 0 /\ ds = []) /\
    (0 < 47 -> 0 < d /\ 3 ^ len ds <= 47 < 3 ^ (len ds + 1)).
Proof.
  assert (H1 : 2 <= 3) by lia.
  assert (H2 : 0 <= 47) by lia.
  assert (H3 : enough_fuel 10 47) by (unfold enough_fuel; simpl; lia).
  repeat (split; [assumption|]).
  exact (numberToBase_digits 10 47 3 H1 H2 H3).
Defined.




(* ================================================================= *)
(** ** The signed digits of wNAF *)

Lemma spaced_weaken (w z z' : Z) (ds : list Z) :
  z' <= z -> spaced w z ds -> spaced w z' ds.
Proof.
  revert z z'. induction ds as [|d ds IH]; intros z z' Hz H; [exact I|].
  cbn [spaced] in *. destruct (d =? 0).
  - apply (IH (z - 1)); [lia|exact H].
  - destruct H as [H0 H]. split; [lia|exact H].
Qed.

(** What [spaced] says of the places of the digits. *)
Lemma spaced_apart (w : Z) (ds : list Z) (z : Z) :
  spaced w z ds ->
  (forall i d, nth_error ds i = Some d -> d <> 0 -> z <= Z.of_nat i) /\
  (forall i j di dj,
     nth_error ds i = Some di -> nth_error ds j = Some dj ->
     di <> 0 -> dj <> 0 -> (i < j)%nat -> Z.of_nat i + w <= Z.of_nat j).
Proof.
  revert z. induction ds as [|d ds IH]; intros z H.
  - split; intros [|?]; intros; discriminate.
  - cbn [spaced] in H. destruct (Z.eqb_spec d 0) as [->|Hd].
    + destruct (IH _ H) as (IH1 & IH2). split.
      * intros [|i] x E Hx; [now injection E as <-|].
        specialize (IH1 i x E Hx). lia.
      * intros [|i] [|j] di dj Ei Ej Hi Hj Hij; try lia.
        -- now injection Ei as <-.
        -- specialize (IH2 i j di dj Ei Ej Hi Hj ltac:(lia)). lia.
    + destruct H as (Hz & H). destruct (IH _ H) as (IH1 & IH2). split.
      * intros i x _ _. lia.
      * intros [|i] [|j] di dj Ei Ej Hi Hj Hij; try lia.
        -- specialize (IH1 j dj Ej Hj). lia.
        -- specialize (IH2 i j di dj Ei Ej Hi Hj ltac:(lia)). lia.
Qed.

Lemma odd_not_multiple (m z : Z) :
  0 <= z -> m mod 2 = 1 -> m mod 2 ^ z = 0 -> z = 0.
Proof.
  intros Hz Hodd Hdiv. destruct (Z.eq_dec z 0) as [|Hz0]; [assumption|exfalso].
  pose proof (pow2_half z ltac:(lia)) as Hp.
  pose proof (pow2_pos (z - 1) ltac:(lia)) as Hpos.
  pose proof (Z.div_mod m (2 ^ z) ltac:(lia)) as Hdm.
  rewrite Hdiv, Hp in Hdm.
  assert (E : m = (2 ^ (z - 1) * (m / (2 * 2 ^ (z - 1)))) * 2) by lia.
  rewrite E, Z.mod_mul in Hodd by lia. discriminate.
Qed.

Lemma half_multiple (m z : Z) :
  1 <= z -> m mod 2 ^ z = 0 -> (m / 2) mod 2 ^ (z - 1) = 0.
Proof.
  intros Hz Hdiv.
  pose proof (pow2_half z Hz) as Hp.
  pose proof (pow2_pos (z - 1) ltac:(lia)) as Hpos.
  pose proof (Z.div_mod m (2 ^ z) ltac:(lia)) as Hdm.
  rewrite Hdiv, Hp in Hdm.
  assert (E : m = (m / (2 * 2 ^ (z - 1)) * 2 ^ (z - 1)) * 2) by lia.
  rewrite E at 1. rewrite Z.div_mul by lia. apply Z.mod_mul. lia.
Qed.

(** The digits that the loop writes from [m], a multiple of [2 ** z]. *)
Lemma naf_digits_loop_shape (w : Z) (fuel : nat) (m i z : Z) (Md : list Z)
    (p : Z) (Md' : list Z) :
  2 <= w <= 1024 -> i = len Md -> 0 <= m -> 0 <= z -> m mod 2 ^ z = 0 ->
  naf_digits_loop fuel w m i Md = Ret (p, Md') ->
  exists ds,
    Md' = Md ++ ds /\
    spaced w z ds /\
    (m = 0 -> ds = []) /\
    (0 < m -> exists ds' d, ds = ds' ++ [d] /\ 0 < d) /\
    (forall k, 0 <= k -> m <= 2 ^ k -> len ds <= k + 1).
Proof.
  intros Hw. revert m i z Md. induction fuel as [|fuel IH]; intros m i z Md Hi Hm Hz Hdiv E;
    [discriminate|].
  rewrite naf_digits_loop_unfold in E.
  destruct (Z.ltb_spec 0 m) as [Hpos|Hzero].
  - destruct (Z.eqb_spec (m mod 2) 1) as [Hodd|Heven].
    + (* an odd [m]: a digit other than 0, then [w - 1] times 0 *)
      pose proof (odd_not_multiple m z Hz Hodd Hdiv). subst z.
      rewrite mods_eq in E by lia. cbv beta iota delta [obind] in E.
      set (d := if 2 ^ w <=? 2 * (m mod 2 ^ w) then m mod 2 ^ w - 2 ^ w else m mod 2 ^ w) in *.
      subst i. rewrite index_app_last in E.
      assert (Hk : 0 < m <= 2 ^ m).
      { split; [lia|]. apply Z.lt_le_incl, Z.pow_gt_lin_r; lia. }
      destruct (naf_odd_step w m m ltac:(lia) ltac:(lia) Hk Hodd)
        as (Hdodd & Hrange & Hval & Hnonneg & _).
      fold d in Hdodd, Hrange, Hval, Hnonneg.
      assert (Hd0 : d <> 0) by (intros E0; rewrite E0 in Hdodd; discriminate).
      assert (Hmult : ((m - d) / 2) mod 2 ^ (w - 1) = 0).
      { apply half_multiple; [lia|].
        destruct (mods_spec m w ltac:(lia)) as (r & Er & Hr & _).
        rewrite mods_eq in Er by lia. fold d in Er. injection Er as <-.
        replace (m - d) with (- (d - m)) by lia.
        apply Z.mod_opp_l_z; [|exact Hr].
        pose proof (pow2_pos w ltac:(lia)). lia. }
      destruct (IH ((m - d) / 2) (len Md + 1) (w - 1) (Md ++ [d])) as
        (ds & -> & Hsp & Hnil & Htop & Hlen); try assumption; try lia.
      { rewrite len_app. reflexivity. }
      exists (d :: ds). split; [now rewrite <- app_assoc|].
      split; [cbn [spaced]; replace (d =? 0) with false by lia; now split|].
      split; [lia|]. split.
      * intros _. destruct (Z.eq_dec ((m - d) / 2) 0) as [E0|N0].
        -- rewrite (Hnil E0). exists [], d. split; [reflexivity|]. lia.
        -- destruct (Htop ltac:(lia)) as (ds' & d' & -> & Hd').
           exists (d :: ds'), d'. now split.
      * intros k Hk0 Hmk. rewrite len_cons.
        destruct (naf_odd_step w k m ltac:(lia) Hk0 ltac:(lia) Hodd)
          as (_ & _ & _ & _ & Hk00 & Hk1).
        fold d in Hk00, Hk1.
        destruct (Z.eq_dec k 0) as [->|Hkpos].
        -- rewrite (Hnil (Hk00 eq_refl)). change (len (@nil Z)) with 0. lia.
        -- specialize (Hlen (k - 1) ltac:(lia) (Hk1 ltac:(lia))). lia.
    + (* an even [m]: the digit 0 *)
      pose proof (Z.div_mod m 2 ltac:(lia)) as Hdm.
      pose proof (Z.mod_pos_bound m 2 ltac:(lia)) as Hmb.
      assert (Hmult : (m / 2) mod 2 ^ Z.max 0 (z - 1) = 0).
      { destruct (Z.eq_dec z 0) as [->|Hz0].
        - change (2 ^ Z.max 0 (0 - 1)) with 1. apply Z.mod_1_r.
        - replace (Z.max 0 (z - 1)) with (z - 1) by lia. apply half_multiple; [lia|exact Hdiv]. }
      destruct (IH (m / 2) (i + 1) (Z.max 0 (z - 1)) (Md ++ [0])) as
        (ds & -> & Hsp & Hnil & Htop & Hlen); try assumption; try lia.
      { rewrite len_app. subst i. reflexivity. }
      exists (0 :: ds). split; [now rewrite <- app_assoc|].
      split; [cbn [spaced]; cbn; apply spaced_weaken with (2 := Hsp); lia|].
      split; [lia|]. split.
      * intros _. destruct (Htop ltac:(lia)) as (ds' & d' & -> & Hd').
        exists (0 :: ds'), d'. now split.
      * intros k Hk0 Hmk. rewrite len_cons.
        destruct (Z.eq_dec k 0) as [->|Hkpos]; [change (2 ^ 0) with 1 in Hmk; lia|].
        pose proof (pow2_half k ltac:(lia)) as Hpk.
        specialize (Hlen (k - 1) ltac:(lia) ltac:(lia)). lia.
  - injection E as _ <-. exists []. rewrite app_nil_r.
    repeat split; try easy; try lia.
    intros k Hk0 _. change (len (@nil Z)) with 0. lia.
Qed.

(** X7.  For a window width from 2 to 1024 and [m > 0], the loop of the
    wNAF engine writes [m] in signed digits, least significant first: their
    value is [m]; each is 0 or odd and below [2 ** (w - 1)] in absolute
    value; any two digits other than 0 are at least [w] places apart; the
    last one is positive; and there is at most one digit more than [m] has
    bits. *)
Theorem w_NAF_digits (fuel : nat) (w m : Z) :
  2 <= w <= 1024 -> 0 < m -> enough_fuel fuel m ->
  exists Md,
    naf_digits_loop fuel w m 0 [] = Ret (len Md, Md) /\
    lsb_value 2 Md = m /\
    Forall (naf_digit w) Md /\
    (forall i j di dj,
       nth_error Md i = Some di -> nth_error Md j = Some dj ->
       di <> 0 -> dj <> 0 -> (i < j)%nat -> Z.of_nat i + w <= Z.of_nat j) /\
    (exists Md' d, Md = Md' ++ [d] /\ 0 < d) /\
    len Md <= bit_length m + 1.
Proof.
  intros Hw Hm Hf. unfold enough_fuel in Hf.
  destruct fuel as [|[|k]];
    [rewrite Z.pow_neg_r in Hf by lia; lia
    |rewrite Z.pow_neg_r in Hf by lia; lia|].
  replace (Z.of_nat (S (S k)) - 2) with (Z.of_nat k) in Hf by lia.
  destruct (naf_digits_loop_spec w k m 0 [] Hw ltac:(lia) eq_refl) as (Md & EM & Hv & HMd).
  cbn [app] in EM. rewrite Z.add_0_l in EM.
  exists Md. split; [exact EM|]. split; [exact Hv|]. split; [exact HMd|].
  destruct (naf_digits_loop_shape w _ m 0 0 [] _ _ Hw eq_refl ltac:(lia) ltac:(lia)
              (Z.mod_1_r m) EM) as (ds & Eds & Hsp & _ & Htop & Hlen).
  cbn [app] in Eds. subst ds.
  split; [exact (proj2 (spaced_apart w Md 0 Hsp))|]. split; [exact (Htop Hm)|].
  apply Hlen.
  - unfold bit_length. replace (m =? 0) with false by lia.
    pose proof (Z.log2_nonneg (Z.abs m)). lia.
  - unfold bit_length. replace (m =? 0) with false by lia.
    rewrite Z.abs_eq by lia. pose proof (Z.log2_spec m Hm). lia.
Qed.

Lemma w_NAF_digits_witness :
  2 <= 3 <= 1024 /\ 0 < 91 /\ enough_fuel 10 91 /\
  exists Md,
    naf_digits_loop 10 3 91 0 [] = Ret (len Md, Md) /\
    lsb_value 2 Md = 91 /\
    Forall (naf_digit 3) Md /\
    (forall i j di dj,
       nth_error Md i = Some di -> nth_error Md j = Some dj ->
       di <> 0 -> dj <> 0 -> (i < j)%nat -> Z.of_nat i + 3 <= Z.of_nat j) /\
    (exists Md' d, Md = Md' ++ [d] /\ 0 < d) /\
    len Md <= bit_length 91 + 1.
Proof.
  assert (H1 : 2 <= 3 <= 1024) by lia.
  assert (H2 : 0 < 91) by lia.
  assert (H3 : enough_fuel 10 91) by (unfold enough_fuel; simpl; lia).
  repeat (split; [assumption|]).
  exact (w_NAF_digits 10 3 91 H1 H2 H3).
Defined.

(* ================================================================= *)
(** ** The group operations that the windowed engines perform *)

Section EngineOperations.
Context {ec : CurveGroup} {L : CurveLaws ec}.

(** The point the engine multiplies. *)
Variable a : pt.

(** X3.  On [m >= 0] and a point [Q] other than [INFJ],
    [_mult_jac_base_3] returns a triple of [m * Q] after two additions for
    each of the digits of [m] in base 3, and one doubling for each digit
    but the first: the number of group operations depends on [m] through
    its number of digits only. *)
Theorem base_3_operations (fuel : nat) (m : Z) (Q : JacPoint) (c : cost) :
  0 <= m -> Q <> INFJ -> jac_point Q = Some a -> enough_fuel fuel m ->
  exists Md R c',
    numberToBase fuel m 3 = Ret Md /\
    _mult_jac_base_3 fuel m Q c = (Ret R, c') /\
    jac_point R = Some (zmul m a) /\
    additions c' = (additions c + 2 * List.length Md)%nat /\
    doublings c' = (doublings c + (List.length Md - 1))%nat /\
    negations c' = negations c.
Proof.
  intros Hm NE HQ Hf.
  destruct (base_3_correct a fuel m Q c Hm HQ Hf) as (R & c' & E & HR).
  destruct (numberToBase_spec 3 fuel m ltac:(lia) Hm Hf) as (Md & EM & _ & HMd & Hlen).
  exists Md, R, c'. split; [exact EM|]. split; [exact E|]. split; [exact HR|].
  unfold _mult_jac_base_3 in E. replace (m <? 0) with false in E by lia.
  rewrite (is_INFJ_false Q NE) in E.
  destruct (chain_table a Q INFJ 1 0 3 c (repr_base a Q HQ) (repr_INFJ a))
    as (T & c1 & ET & _ & _ & Ha1 & Hd1 & Hn1).
  rewrite (bind_Ret _ ET), (bind_lift_Ret _ _ EM) in E.
  apply bind_inv in E as (R0 & c2 & E0 & E). apply table_at_digit_pure in E0. subst c2.
  unfold for_range in E. apply (for_loop_cost 2 1 0) in E.
  - unfold len in *. simpl in Ha1. lia.
  - clear. intros j R1 c1 R2 c2 E.
    unfold dbl_jac, add_jac in E. unfold bind at 1 in E. unfold bind at 1 in E.
    apply bind_inv in E as (e & c3 & E1 & E). apply table_at_digit_pure in E1. subst c3.
    injection E as _ <-. cbn. lia.
Qed.

(** X4.  On [m >= 0], a window width [w >= 1] and a point [Q] other than
    [INFJ], [_mult_jac_fixed_window] returns a triple of [m * Q].  It
    builds its table with [2 ** w - 1] additions, and then spends [w]
    doublings and one addition on each digit of [m] in base [2 ** w] but
    the first. *)
Theorem fixed_window_operations (fuel : nat) (m w : Z) (Q : JacPoint) (c : cost) :
  0 <= m -> 1 <= w -> Q <> INFJ -> jac_point Q = Some a -> enough_fuel fuel m ->
  exists Md R c',
    numberToBase fuel m (2 ^ w) = Ret Md /\
    _mult_jac_fixed_window fuel m w Q c = (Ret R, c') /\
    jac_point R = Some (zmul m a) /\
    additions c' = (additions c + Z.to_nat (2 ^ w - 1) + (List.length Md - 1))%nat /\
    doublings c' = (doublings c + (List.length Md - 1) * Z.to_nat w)%nat /\
    negations c' = negations c.
Proof.
  intros Hm Hw NE HQ Hf.
  destruct (fixed_window_correct a fuel m w Q c Hm Hw HQ Hf) as (R & c' & E & HR).
  assert (Hb : 2 <= 2 ^ w).
  { change 2 with (2 ^ 1) at 1. apply Z.pow_le_mono_r; lia. }
  destruct (numberToBase_spec (2 ^ w) fuel m Hb Hm Hf) as (Md & EM & _ & HMd & Hlen).
  exists Md, R, c'. split; [exact EM|]. split; [exact E|]. split; [exact HR|].
  unfold _mult_jac_fixed_window in E. replace (m <? 0) with false in E by lia.
  rewrite (is_INFJ_false Q NE) in E. replace (w <=? 0) with false in E by lia.
  cbv zeta in E.
  destruct (chain_table a Q INFJ 1 0 (2 ^ w) c (repr_base a Q HQ) (repr_INFJ a))
    as (T & c1 & ET & _ & _ & Ha1 & Hd1 & Hn1).
  rewrite (bind_Ret _ ET), (bind_lift_Ret _ _ EM) in E.
  apply bind_inv in E as (R0 & c2 & E0 & E). apply table_at_digit_pure in E0. subst c2.
  unfold for_range in E. apply (for_loop_cost 1 (Z.to_nat w) 0) in E.
  - unfold len in *. lia.
  - clear. intros j R1 c1 R2 c2 E.
    apply bind_inv in E as (R3 & c3 & E1 & E). apply double_times_cost in E1.
    apply bind_inv in E as (e & c4 & E2 & E). apply table_at_digit_pure in E2. subst c4.
    injection E as _ <-. cbn. lia.
Qed.

(** *** Sliding window *)

Lemma short_window_cost (Q : JacPoint) (Md : list Z) (i j : Z) (R : JacPoint) (c : cost)
    (R' : JacPoint) (c' : cost) :
  short_window Q Md i j R c = (Ret R', c') ->
  doublings c' = (doublings c + Z.to_nat j)%nat /\
  (additions c' <= additions c + Z.to_nat j)%nat /\
  negations c' = negations c.
Proof.
  unfold short_window, for_range. replace (i + j - i) with j by lia. intros E.
  apply (for_loop_post
    (fun k c1 => doublings c1 = (doublings c + k)%nat /\
                 (additions c1 <= additions c + k)%nat /\
                 negations c1 = negations c)
    _ _ _ _ _ _ _ _) in E; [exact E|cbn; lia|].
  intros k R0 c0 R1 c1 _ (Hd & Ha & Hn) E1.
  unfold dbl_jac in E1. unfold bind at 1 in E1.
  apply bind_inv in E1 as (Mb & c2 & E2 & E1). apply lift_inv in E2 as (_ & ->).
  destruct (Mb =? 1); injection E1 as _ <-; cbn; lia.
Qed.

Lemma window_value_pure (Md : list Z) (i j : Z) (c : cost) (t : Z) (c' : cost) :
  window_value Md i j c = (Ret t, c') -> c' = c.
Proof.
  unfold window_value, for_range. intros E.
  apply bind_inv in E as (t0 & c1 & E0 & E). apply lift_inv in E0 as (_ & ->).
  apply (for_loop_cost 0 0 0) in E.
  - destruct c, c'. cbn in E. f_equal; lia.
  - clear. intros j t c0 t1 c1 E.
    apply bind_inv in E as (x & c2 & E2 & E). apply lift_inv in E2 as (_ & ->).
    injection E as _ <-. lia.
Qed.

(** Every digit that the loop goes through costs one doubling, and at most
    one addition. *)
Lemma sliding_loop_cost (w p : Z) (Q : JacPoint) (T : list JacPoint) (Md : list Z)
    (fuel : nat) (i : Z) (R : JacPoint) (c : cost) (R' : JacPoint) (c' : cost) :
  1 <= w -> 0 <= i <= len Md ->
  sliding_loop fuel w p Q T Md i R c = (Ret R', c') ->
  doublings c' = (doublings c + Z.to_nat (len Md - i))%nat /\
  (additions c' <= additions c + Z.to_nat (len Md - i))%nat /\
  negations c' = negations c.
Proof.
  intros Hw. revert i R c. induction fuel as [|fuel IH]; intros i R c Hi E; [discriminate|].
  cbn [sliding_loop] in E.
  destruct (Z.ltb_spec i (len Md)) as [Hlt|Hge].
  - apply bind_inv in E as (Mi & c1 & E1 & E). apply lift_inv in E1 as (_ & ->).
    destruct (Mi =? 0).
    + unfold dbl_jac in E. unfold bind at 1 in E.
      apply IH in E; [|lia]. cbn in E. lia.
    + cbv zeta in E.
      apply bind_inv in E as (t & c1 & E1 & E). apply window_value_pure in E1. subst c1.
      destruct (Z.ltb_spec (len Md - i) w) as [Hshort|Hfull].
      * replace (len Md - i <? w) with true in E by lia.
        now apply short_window_cost in E.
      * replace (w <? w) with false in E by lia.
        apply bind_inv in E as (R1 & c1 & E1 & E). apply double_times_cost in E1.
        apply bind_inv in E as (e & c2 & E2 & E). apply lift_inv in E2 as (_ & ->).
        unfold add_jac in E. unfold bind at 1 in E.
        apply IH in E; [|lia]. cbn in E. lia.
  - injection E as _ <-. replace (len Md - i) with 0 by lia. cbn. lia.
Qed.

(** X5.  On [m >= 0], a window width [w >= 1] and a point [Q] other than
    [INFJ], [_mult_jac_sliding_window] returns a triple of [m * Q].  Its
    table costs [w - 1] doublings and [2 ** (w - 1) - 1] additions; after
    that every binary digit of [m] costs exactly one doubling, and the
    digits together at most as many additions. *)
Theorem sliding_window_operations (fuel : nat) (m w : Z) (Q : JacPoint) (c : cost) :
  0 <= m -> 1 <= w -> Q <> INFJ -> jac_point Q = Some a -> enough_fuel fuel m ->
  exists Md R c',
    numberToBase fuel m 2 = Ret Md /\
    _mult_jac_sliding_window fuel m w Q c = (Ret R, c') /\
    jac_point R = Some (zmul m a) /\
    doublings c' = (doublings c + Z.to_nat (w - 1) + List.length Md)%nat /\
    (additions c' <= additions c + Z.to_nat (2 ^ (w - 1) - 1) + List.length Md)%nat /\
    negations c' = negations c.
Proof.
  intros Hm Hw NE HQ Hf.
  destruct (sliding_window_correct a fuel m w Q c Hm Hw HQ Hf) as (R & c' & E & HR).
  destruct (numberToBase_spec 2 fuel m ltac:(lia) Hm Hf) as (Md & EM & _ & HMd & Hlen).
  exists Md, R, c'. split; [exact EM|]. split; [exact E|]. split; [exact HR|].
  unfold _mult_jac_sliding_window in E. replace (m <? 0) with false in E by lia.
  rewrite (is_INFJ_false Q NE) in E. replace (w <=? 0) with false in E by lia.
  cbv zeta in E.
  destruct (sliding_table_spec a w Q c Hw (repr_base a Q HQ))
    as (T & c1 & ET & _ & _ & Ha1 & Hd1 & Hn1).
  rewrite (bind_Ret _ ET), (bind_lift_Ret _ _ EM) in E.
  apply sliding_loop_cost in E; [|exact Hw|lia].
  unfold len in *. rewrite Z.sub_0_r, Nat2Z.id in E. lia.
Qed.

(** *** wNAF *)

Lemma append_sum_cost (Q : JacPoint) (j : Z) (T : list JacPoint) (c : cost)
    (T' : list JacPoint) (c' : cost) :
  append_sum Q j T c = (Ret T', c') ->
  additions c' = (additions c + 1)%nat /\
  doublings c' = (doublings c + 0)%nat /\
  negations c' = (negations c + 0)%nat.
Proof.
  unfold append_sum. intros E.
  apply bind_inv in E as (e & c1 & E1 & E). apply lift_inv in E1 as (_ & ->).
  injection E as _ <-. cbn. lia.
Qed.

Lemma append_negated_cost (h j : Z) (T : list JacPoint) (c : cost)
    (T' : list JacPoint) (c' : cost) :
  append_negated h j T c = (Ret T', c') ->
  additions c' = (additions c + 0)%nat /\
  doublings c' = (doublings c + 0)%nat /\
  negations c' = (negations c + 1)%nat.
Proof.
  unfold append_negated. intros E.
  apply bind_inv in E as (e & c1 & E1 & E). apply lift_inv in E1 as (_ & ->).
  injection E as _ <-. cbn. lia.
Qed.

Lemma naf_table_cost (w : Z) (Q : JacPoint) (c : cost) (T : list JacPoint) (c' : cost) :
  1 <= w ->
  naf_table (2 ^ w) Q c = (Ret T, c') ->
  doublings c' = (doublings c + 1)%nat /\
  additions c' = (additions c + Z.to_nat (2 ^ (w - 1) - 1))%nat /\
  negations c' = (negations c + Z.to_nat (2 ^ (w - 1)))%nat.
Proof.
  intros Hw E. unfold naf_table in E.
  pose proof (pow2_half w Hw) as Hb.
  pose proof (pow2_pos (w - 1) ltac:(lia)) as Hh.
  assert (Ehalf : 2 ^ w / 2 = 2 ^ (w - 1)).
  { rewrite Hb, Z.mul_comm. apply Z.div_mul. lia. }
  rewrite Ehalf in E. unfold dbl_jac at 1 in E. unfold bind at 1 in E.
  apply bind_inv in E as (T1 & c1 & E1 & E). unfold for_range in E1, E.
  apply (for_loop_cost 1 0 0) in E1; [|intros; eapply append_sum_cost; eassumption].
  apply (for_loop_cost 0 0 1) in E; [|intros; eapply append_negated_cost; eassumption].
  cbn in E1. replace (Z.to_nat (2 ^ w - 2 ^ (w - 1))) with (Z.to_nat (2 ^ (w - 1))) in E by lia.
  lia.
Qed.

(** X6.  For a window width [w >= 1] and a point [Q] of the curve, the
    table of the wNAF engine has [2 ** w] entries: the odd multiples
    [Q, 3Q, 5Q, ...] in its lower half and, [2 ** (w - 1)] places above
    each of them, its negation.  It costs one doubling, [2 ** (w - 1) - 1]
    additions and [2 ** (w - 1)] negations, and the engine goes on from it
    with the digits of the scalar. *)
Theorem w_NAF_table (w : Z) (Q : JacPoint) (c : cost) :
  1 <= w -> jac_point Q = Some a ->
  exists T c',
    naf_table (2 ^ w) Q c = (Ret T, c') /\
    len T = 2 ^ w /\
    (forall i, 0 <= i < 2 ^ (w - 1) ->
       exists e,
         index T i = Ret e /\
         jac_point e = Some (zmul (2 * i + 1) a) /\
         index T (2 ^ (w - 1) + i) = Ret (negate e) /\
         jac_point (negate e) = Some (zmul (- (2 * i + 1)) a)) /\
    doublings c' = (doublings c + 1)%nat /\
    additions c' = (additions c + Z.to_nat (2 ^ (w - 1) - 1))%nat /\
    negations c' = (negations c + Z.to_nat (2 ^ (w - 1)))%nat /\
    (forall fuel m p Md,
       0 < m -> Q <> INFJ ->
       naf_digits_loop fuel w m 0 [] = Ret (p, Md) ->
       _mult_jac_w_NAF fuel m w Q c
       = for_range_down (p - 1) (-1) (naf_step (2 ^ w) T Md) INFJ c').
Proof.
  intros Hw HQ.
  destruct (naf_table_spec a w Q c Hw (repr_base a Q HQ)) as (T & c' & ET & Hlen & HT & Hneg).
  destruct (naf_table_cost w Q c T c' Hw ET) as (Hd & Ha & Hn).
  exists T, c'. split; [exact ET|]. split; [exact Hlen|].
  pose proof (pow2_pos (w - 1) ltac:(lia)) as Hh.
  pose proof (pow2_half w Hw) as Hb.
  split; [|repeat (split; [assumption|])].
  - intros i Hi. destruct (Hneg i Hi) as (e & Ee & En).
    destruct (HT i ltac:(lia)) as (e' & Ee' & He').
    assert (e' = e) by congruence. subst e'.
    unfold repr, naf_entry in He'. replace (i <? 2 ^ (w - 1)) with true in He' by lia.
    exists e. repeat split; try assumption.
    rewrite zmul_opp. now apply negate_point.
  - intros fuel m p Md Hm NE EM. unfold _mult_jac_w_NAF.
    replace (m <? 0) with false by lia. replace (m =? 0) with false by lia.
    rewrite (is_INFJ_false Q NE). replace (w <=? 0) with false by lia.
    rewrite (bind_lift_Ret _ _ EM). cbv beta iota zeta.
    now rewrite (bind_Ret _ ET).
Qed.

Lemma index_nth (l : list Z) (j x : Z) :
  0 <= j -> index l j = Ret x -> nth_error l (Z.to_nat j) = Some x.
Proof.
  intros Hj E. unfold index in E. replace (j <? 0) with false in E by lia.
  destruct ((0 <=? j) && (j <? len l)); [|discriminate].
  destruct (nth_error l (Z.to_nat j)); [|discriminate]. now injection E as ->.
Qed.

Lemma count_nonzero_cons (d : Z) (ds : list Z) :
  count_nonzero (d :: ds) = ((if (d =? 0)%Z then 0 else 1) + count_nonzero ds)%nat.
Proof. unfold count_nonzero. cbn [filter]. now destruct (d =? 0). Qed.

Lemma naf_scan_cost (b : Z) (T : list JacPoint) (Md : list Z) (c : cost)
    (R : JacPoint) (c' : cost) :
  for_range_down (len Md - 1) (-1) (naf_step b T Md) INFJ c = (Ret R, c') ->
  doublings c' = (doublings c + List.length Md)%nat /\
  additions c' = (additions c + count_nonzero Md)%nat /\
  negations c' = negations c.
Proof.
  unfold for_range_down.
  replace (Z.to_nat (len Md - 1 - -1)) with (List.length Md) by (unfold len; lia).
  intros E.
  apply (for_loop_post
    (fun k c1 => doublings c1 = (doublings c + k)%nat /\
                 additions c1
                 = (additions c + count_nonzero (skipn (List.length Md - k) Md))%nat /\
                 negations c1 = negations c)
    _ _ _ _ _ _ _ _) in E.
  - now rewrite Nat.sub_diag in E.
  - rewrite Nat.sub_0_r, skipn_all. cbn. lia.
  - intros k R0 c0 R1 c1 Hk (Hd & Ha & Hn) E1.
    unfold naf_step in E1. unfold dbl_jac at 1 in E1. unfold bind at 1 in E1.
    apply bind_inv in E1 as (Mj & c2 & E2 & E1). apply lift_inv in E2 as (E2 & ->).
    apply index_nth in E2; [|unfold len; lia].
    replace (Z.to_nat (len Md - 1 + Z.of_nat k * -1)) with (List.length Md - S k)%nat in E2
      by (unfold len; lia).
    rewrite (skipn_nth_error _ _ _ E2), count_nonzero_cons.
    replace (S (List.length Md - S k)) with (List.length Md - k)%nat by lia.
    destruct (Mj =? 0); cbn [negb] in E1.
    + injection E1 as _ <-. cbn. lia.
    + destruct (0 <? Mj);
        apply bind_inv in E1 as (e & c3 & E3 & E1); apply lift_inv in E3 as (_ & ->);
        injection E1 as _ <-; cbn; lia.
Qed.

(** X8.  On [m > 0], a window width from 2 to 1024 and a point [Q] other
    than [INFJ], [_mult_jac_w_NAF] returns a triple of [m * Q].  Besides
    its table it spends one doubling on each signed digit of [m] and one
    addition on each digit other than 0; the only negations are those of
    the table. *)
Theorem w_NAF_operations (fuel : nat) (m w : Z) (Q : JacPoint) (c : cost) :
  0 < m -> 2 <= w <= 1024 -> Q <> INFJ -> jac_point Q = Some a -> enough_fuel fuel m ->
  exists Md R c',
    naf_digits_loop fuel w m 0 [] = Ret (len Md, Md) /\
    _mult_jac_w_NAF fuel m w Q c = (Ret R, c') /\
    jac_point R = Some (zmul m a) /\
    doublings c' = (doublings c + 1 + List.length Md)%nat /\
    additions c' = (additions c + Z.to_nat (2 ^ (w - 1) - 1) + count_nonzero Md)%nat /\
    negations c' = (negations c + Z.to_nat (2 ^ (w - 1)))%nat.
Proof.
  intros Hm Hw NE HQ Hf.
  destruct (w_NAF_correct a fuel m w Q c ltac:(lia) Hw HQ Hf) as (R & c' & E & HR).
  assert (HM : exists Md, naf_digits_loop fuel w m 0 [] = Ret (len Md, Md)).
  { unfold enough_fuel in Hf.
    destruct fuel as [|[|k]];
      [rewrite Z.pow_neg_r in Hf by lia; lia
      |rewrite Z.pow_neg_r in Hf by lia; lia|].
    replace (Z.of_nat (S (S k)) - 2) with (Z.of_nat k) in Hf by lia.
    destruct (naf_digits_loop_spec w k m 0 [] Hw ltac:(lia) eq_refl) as (Md & EM & _).
    exists Md. cbn [app] in EM. now rewrite Z.add_0_l in EM. }
  destruct HM as (Md & EM).
  exists Md, R, c'. split; [exact EM|]. split; [exact E|]. split; [exact HR|].
  unfold _mult_jac_w_NAF in E.
  replace (m <? 0) with false in E by lia. replace (m =? 0) with false in E by lia.
  rewrite (is_INFJ_false Q NE) in E. replace (w <=? 0) with false in E by lia.
  rewrite (bind_lift_Ret _ _ EM) in E. cbv beta iota zeta in E.
  apply bind_inv in E as (T & c1 & ET & E).
  apply naf_table_cost in ET; [|lia]. apply naf_scan_cost in E. lia.
Qed.

End EngineOperations.

(* ================================================================= *)
(** ** The order of the checks of an entry point *)

Section EntryPointErrors.
Context {ec : CurveGroup}.

(** X10.  What an entry point checks, in this order, before any group
    operation: the point, the scalar, then the window width.  A point that
    [require_on_curve] rejects makes every entry point raise that error,
    whatever the scalar and the width are; with a point that passes (or
    none, for the generator), a scalar that [int_from_integer] rejects
    makes every entry point raise, whatever the width is; and after a
    scalar that passes, so does a width that it rejects. *)
Theorem entry_point_errors (fuel : nat) (m w : Integer) (Q : option Point) (c : cost) :
  (forall P e,
     Q = Some P -> require_on_curve P = Raise e ->
     mult_mont_ladder m Q c = (Raise e, c) /\
     mult_base_3 fuel m Q c = (Raise e, c) /\
     mult_fixed_window fuel m w Q c = (Raise e, c) /\
     mult_sliding_window fuel m w Q c = (Raise e, c) /\
     mult_w_NAF fuel m w Q c = (Raise e, c)) /\
  (forall e,
     (forall P, Q = Some P -> require_on_curve P = Ret tt) ->
     int_from_integer m = Raise e ->
     mult_mont_ladder m Q c = (Raise e, c) /\
     mult_base_3 fuel m Q c = (Raise e, c) /\
     mult_fixed_window fuel m w Q c = (Raise e, c) /\
     mult_sliding_window fuel m w Q c = (Raise e, c) /\
     mult_w_NAF fuel m w Q c = (Raise e, c)) /\
  (forall m0 e,
     (forall P, Q = Some P -> require_on_curve P = Ret tt) ->
     int_from_integer m = Ret m0 -> n <> 0 ->
     int_from_integer w = Raise e ->
     mult_fixed_window fuel m w Q c = (Raise e, c) /\
     mult_sliding_window fuel m w Q c = (Raise e, c) /\
     mult_w_NAF fuel m w Q c = (Raise e, c)).
Proof.
  assert (Hpoint : (forall P, Q = Some P -> require_on_curve P = Ret tt) ->
                   exists QJ, jac_of_point Q c = (Ret QJ, c)).
  { intros HQ. destruct Q as [P|]; [|now exists GJ].
    exists (_jac_from_aff P). unfold jac_of_point, bind, lift.
    now rewrite (HQ P eq_refl). }
  unfold mult_mont_ladder, mult_base_3, mult_fixed_window, mult_sliding_window, mult_w_NAF.
  split; [|split].
  - intros P e -> HP.
    assert (E : jac_of_point (Some P) c = (Raise e, c))
      by (unfold jac_of_point, bind, lift; now rewrite HP).
    rewrite !(bind_Raise _ E). repeat split.
  - intros e HQ Hm. destruct (Hpoint HQ) as (QJ & EQ).
    rewrite !(bind_Ret _ EQ).
    assert (E : reduced_scalar m c = (Raise e, c))
      by (unfold reduced_scalar, bind, lift; now rewrite Hm).
    rewrite !(bind_Raise _ E). repeat split.
  - intros m0 e HQ Hm Hn Hw. destruct (Hpoint HQ) as (QJ & EQ).
    rewrite !(bind_Ret _ EQ).
    assert (E : reduced_scalar m c = (Ret (m0 mod n), c)).
    { unfold reduced_scalar, bind, lift, py_mod. rewrite Hm.
      now replace (n =? 0) with false by lia. }
    rewrite !(bind_Ret _ E).
    assert (Ew : lift (A := Z) (int_from_integer w) c = (Raise e, c))
      by (unfold lift; now rewrite Hw).
    rewrite !(bind_Raise _ Ew). repeat split.
Qed.

End EntryPointErrors.

(* ================================================================= *)
(** ** Hexadecimal text *)

Ltac digit_cases d H :=
  let E := fresh "E" in
  assert (E : d = 0 \/ d = 1 \/ d = 2 \/ d = 3 \/ d = 4 \/ d = 5 \/ d = 6 \/ d = 7 \/
              d = 8 \/ d = 9 \/ d = 10 \/ d = 11 \/ d = 12 \/ d = 13 \/ d = 14 \/ d = 15)
    by lia;
  clear H;
  repeat (destruct E as [E | E]; [subst d|]); [..|subst d].

Ltac ascii_cases c := destruct c as [[] [] [] [] [] [] [] []].

Lemma hex_digit_range (c : ascii) (d : Z) : hex_digit c = Some d -> 0 <= d < 16.
Proof.
  unfold hex_digit. set (k := Z.of_nat (nat_of_ascii c)).
  destruct ((48 <=? k) && (k <=? 57)) eqn:E1; [intros [= <-]; lia|].
  destruct ((97 <=? k) && (k <=? 102)) eqn:E2; [intros [= <-]; lia|].
  destruct ((65 <=? k) && (k <=? 70)) eqn:E3; [intros [= <-]; lia|discriminate].
Qed.

Lemma hex_digit_hex_char (d : Z) : 0 <= d < 16 -> hex_digit (hex_char d) = Some d.
Proof. intros H. digit_cases d H; reflexivity. Qed.

Lemma hex_digit_lower (c : ascii) : hex_digit (lower_char c) = hex_digit c.
Proof. ascii_cases c; reflexivity. Qed.

Lemma hex_digit_not_space (c : ascii) (d : Z) :
  hex_digit c = Some d -> isspace c = false /\ is_ascii_space c = false.
Proof. ascii_cases c; vm_compute; intros E; (discriminate E || (split; reflexivity)). Qed.

Lemma lower_upper_hex_char (d : Z) :
  0 <= d < 16 -> lower_char (upper_char (hex_char d)) = hex_char d.
Proof. intros H. digit_cases d H; reflexivity. Qed.

Lemma hex_digit_upper_char (c : ascii) : hex_digit (upper_char c) = hex_digit c.
Proof. ascii_cases c; reflexivity. Qed.

Lemma text_digits_cons (c : ascii) (s : string) (ds : list Z) :
  text_digits (String c s) = Some ds ->
  exists d ds', ds = d :: ds' /\ hex_digit c = Some d /\ text_digits s = Some ds'.
Proof.
  simpl. destruct (hex_digit c) as [d|]; [|discriminate].
  destruct (text_digits s) as [ds'|]; [|discriminate].
  intros [= <-]. now exists d, ds'.
Qed.

Lemma text_digits_range (s : string) (ds : list Z) :
  text_digits s = Some ds -> Forall (fun d => 0 <= d < 16) ds.
Proof.
  revert ds. induction s as [|c s IH]; intros ds E.
  - injection E as <-. constructor.
  - apply text_digits_cons in E as (d & ds' & -> & Ed & Es).
    constructor; [now apply hex_digit_range with c|now apply IH].
Qed.

Lemma text_digits_len (s : string) (ds : list Z) :
  text_digits s = Some ds -> strlen s = len ds.
Proof.
  revert ds. induction s as [|c s IH]; intros ds E.
  - now injection E as <-.
  - apply text_digits_cons in E as (d & ds' & -> & _ & Es).
    unfold strlen, len in *. simpl. specialize (IH _ Es). lia.
Qed.

Lemma text_digits_hex_text (ds : list Z) :
  Forall (fun d => 0 <= d < 16) ds -> text_digits (hex_text ds) = Some ds.
Proof.
  induction 1 as [|d ds Hd _ IH]; [reflexivity|].
  simpl. now rewrite (hex_digit_hex_char d Hd), IH.
Qed.

Lemma text_digits_lower (s : string) : text_digits (lower s) = text_digits s.
Proof.
  induction s as [|c s IH]; [reflexivity|].
  simpl. now rewrite hex_digit_lower, IH.
Qed.

Lemma text_digits_app (s1 s2 : string) (ds1 ds2 : list Z) :
  text_digits s1 = Some ds1 -> text_digits s2 = Some ds2 ->
  text_digits (s1 ++ s2) = Some (ds1 ++ ds2).
Proof.
  revert ds1. induction s1 as [|c s1 IH]; intros ds1 E1 E2.
  - now injection E1 as <-.
  - apply text_digits_cons in E1 as (d & ds' & -> & Ed & Es).
    simpl. now rewrite Ed, (IH _ Es E2).
Qed.

Lemma strlen_hex_text (ds : list Z) : strlen (hex_text ds) = len ds.
Proof.
  unfold strlen, len. induction ds as [|d ds IH]; [reflexivity|]. simpl. lia.
Qed.

Lemma hex_text_app (ds1 ds2 : list Z) :
  hex_text (ds1 ++ ds2) = (hex_text ds1 ++ hex_text ds2)%string.
Proof. induction ds1 as [|d ds1 IH]; [reflexivity|]. simpl. now rewrite IH. Qed.

(* ================================================================= *)
(** ** [bytes.fromhex] and [bytes.hex] *)

Lemma byte_of_digits (hi lo : Z) :
  0 <= hi < 16 -> 0 <= lo < 16 ->
  exists x, Byte.of_N (Z.to_N (16 * hi + lo)) = Some x /\
            Z.of_N (Byte.to_N x) = 16 * hi + lo.
Proof.
  intros Hhi Hlo.
  destruct (Byte.of_N (Z.to_N (16 * hi + lo))) as [x|] eqn:E.
  - exists x. split; [reflexivity|].
    apply Byte.to_of_N in E. rewrite E. lia.
  - apply Byte.of_N_None_iff in E. lia.
Qed.

Lemma fromhex_space (c : ascii) (s : string) :
  is_ascii_space c = true -> bytes_fromhex (String c s) = bytes_fromhex s.
Proof. intros E. simpl. now rewrite E. Qed.

Lemma fromhex_pair (c1 c2 : ascii) (hi lo : Z) (s : string) :
  hex_digit c1 = Some hi -> hex_digit c2 = Some lo ->
  bytes_fromhex (String c1 (String c2 s))
  = (rest <~ bytes_fromhex s ;; Ret (bytes_of_digits [hi; lo] ++ rest)).
Proof.
  intros E1 E2.
  destruct (byte_of_digits hi lo (hex_digit_range _ _ E1) (hex_digit_range _ _ E2))
    as (x & Ex & _).
  cbn [bytes_fromhex bytes_of_digits].
  rewrite (proj2 (hex_digit_not_space _ _ E1)), E1, E2, Ex. reflexivity.
Qed.

Lemma bytes_of_digits_pair (hi lo : Z) (ds : list Z) :
  0 <= hi < 16 -> 0 <= lo < 16 ->
  bytes_of_digits (hi :: lo :: ds) = bytes_of_digits [hi; lo] ++ bytes_of_digits ds.
Proof.
  intros Hhi Hlo. destruct (byte_of_digits hi lo Hhi Hlo) as (x & Ex & _).
  cbn [bytes_of_digits]. now rewrite Ex.
Qed.

(** A text of an even number of digits, followed by anything. *)
Lemma fromhex_digits_app (k : nat) (s : string) (ds : list Z) (r : string) :
  text_digits s = Some ds -> List.length ds = (2 * k)%nat ->
  bytes_fromhex (s ++ r)
  = (rest <~ bytes_fromhex r ;; Ret (bytes_of_digits ds ++ rest)).
Proof.
  revert s ds. induction k as [|k IH]; intros s ds E Hlen.
  - destruct ds; [|discriminate]. destruct s as [|c s].
    + simpl. now destruct (bytes_fromhex r).
    + apply text_digits_cons in E as (? & ? & ? & _); discriminate.
  - destruct s as [|c1 s]; [injection E as <-; discriminate|].
    apply text_digits_cons in E as (hi & ds1 & -> & E1 & Es).
    destruct s as [|c2 s]; [injection Es as <-; simpl in Hlen; lia|].
    apply text_digits_cons in Es as (lo & ds2 & -> & E2 & Es).
    change ((String c1 (String c2 s) ++ r)%string) with (String c1 (String c2 (s ++ r))).
    rewrite (fromhex_pair c1 c2 hi lo _ E1 E2).
    rewrite (IH s ds2 Es) by (simpl in Hlen; lia).
    rewrite (bytes_of_digits_pair hi lo ds2 (hex_digit_range _ _ E1) (hex_digit_range _ _ E2)).
    destruct (bytes_fromhex r); cbn [obind]; [|reflexivity..].
    now rewrite app_assoc.
Qed.

Lemma string_app_nil (s : string) : (s ++ "")%string = s.
Proof. induction s as [|c s IH]; [reflexivity|]. simpl. now rewrite IH. Qed.

Lemma string_app_assoc (s1 s2 s3 : string) :
  ((s1 ++ s2) ++ s3)%string = (s1 ++ s2 ++ s3)%string.
Proof. induction s1 as [|c s1 IH]; [reflexivity|]. simpl. now rewrite IH. Qed.

Lemma fromhex_digits_even (s : string) (ds : list Z) :
  text_digits s = Some ds -> Z.even (len ds) = true ->
  bytes_fromhex s = Ret (bytes_of_digits ds).
Proof.
  intros E Hev. apply Z.even_spec in Hev as (k & Hk).
  rewrite <- (string_app_nil s).
  rewrite (fromhex_digits_app (Z.to_nat k) s ds "" E) by (unfold len in Hk; lia).
  simpl. now rewrite app_nil_r.
Qed.

Lemma fromhex_digits_odd (s : string) (ds : list Z) :
  text_digits s = Some ds -> Z.even (len ds) = false ->
  bytes_fromhex s = Raise (ValueError "non-hexadecimal number found in fromhex() arg").
Proof.
  intros E Hodd.
  assert (Hk : exists k, List.length ds = S (2 * k)).
  { rewrite <- Z.negb_odd in Hodd. apply negb_false_iff, Z.odd_spec in Hodd as (k & Hk).
    exists (Z.to_nat k). unfold len in Hk. lia. }
  destruct Hk as (k & Hk). clear Hodd. revert s ds E Hk.
  induction k as [|k IH]; intros s ds E Hk.
  - destruct s as [|c s]; [injection E as <-; discriminate|].
    apply text_digits_cons in E as (d & ds' & -> & Ed & Es).
    destruct ds'; [|discriminate]. destruct s as [|c2 s].
    + cbn [bytes_fromhex]. now rewrite (proj2 (hex_digit_not_space _ _ Ed)), Ed.
    + apply text_digits_cons in Es as (? & ? & ? & _); discriminate.
  - destruct s as [|c1 s]; [injection E as <-; discriminate|].
    apply text_digits_cons in E as (hi & ds1 & -> & E1 & Es).
    destruct s as [|c2 s]; [injection Es as <-; simpl in Hk; lia|].
    apply text_digits_cons in Es as (lo & ds2 & -> & E2 & Es).
    rewrite (fromhex_pair c1 c2 hi lo _ E1 E2).
    rewrite (IH s ds2 Es); [reflexivity|simpl in Hk; lia].
Qed.

Lemma from_bytes_fold (b : list Byte.byte) (acc : Z) :
  fold_left (fun acc x => 256 * acc + Z.of_N (Byte.to_N x)) b acc
  = 256 ^ len b * acc + int_from_bytes_big b.
Proof.
  unfold int_from_bytes_big. revert acc. induction b as [|x b IH]; intros acc.
  - change (len (@nil Byte.byte)) with 0. simpl fold_left. rewrite Z.pow_0_r. lia.
  - cbn [fold_left]. rewrite (IH (256 * acc + _)), (IH (256 * 0 + _)), len_cons.
    rewrite Z.pow_add_r, Z.pow_1_r by (lia || apply len_nonneg). ring.
Qed.

Lemma from_bytes_cons (x : Byte.byte) (b : list Byte.byte) :
  int_from_bytes_big (x :: b) = 256 ^ len b * Z.of_N (Byte.to_N x) + int_from_bytes_big b.
Proof.
  unfold int_from_bytes_big at 1. cbn [fold_left]. rewrite from_bytes_fold. ring.
Qed.

Lemma from_bytes_app (x y : list Byte.byte) :
  int_from_bytes_big (x ++ y) = 256 ^ len y * int_from_bytes_big x + int_from_bytes_big y.
Proof.
  unfold int_from_bytes_big at 1. rewrite fold_left_app.
  rewrite from_bytes_fold. reflexivity.
Qed.

Lemma byte_range (x : Byte.byte) : 0 <= Z.of_N (Byte.to_N x) < 256.
Proof. pose proof (Byte.to_N_bounded x). lia. Qed.

Lemma from_bytes_range (b : list Byte.byte) : 0 <= int_from_bytes_big b < 256 ^ len b.
Proof.
  induction b as [|x b IH].
  - change (len (@nil Byte.byte)) with 0. rewrite Z.pow_0_r. unfold int_from_bytes_big. simpl. lia.
  - rewrite from_bytes_cons, len_cons.
    pose proof (byte_range x). pose proof (len_nonneg b).
    rewrite Z.pow_add_r, Z.pow_1_r by lia. nia.
Qed.

(** The bytes of an even number of digits are worth the digits. *)
Lemma from_bytes_of_digits (k : nat) (ds : list Z) :
  Forall (fun d => 0 <= d < 16) ds -> List.length ds = (2 * k)%nat ->
  int_from_bytes_big (bytes_of_digits ds) = horner 16 0 ds /\
  len (bytes_of_digits ds) = Z.of_nat k.
Proof.
  revert ds. induction k as [|k IH]; intros ds Hds Hlen.
  - destruct ds; [|discriminate]. now split.
  - destruct ds as [|hi [|lo ds]]; try (simpl in Hlen; lia).
    apply Forall_cons_iff in Hds as [Hhi Hds]. apply Forall_cons_iff in Hds as [Hlo Hds].
    destruct (byte_of_digits hi lo Hhi Hlo) as (x & Ex & Hx).
    destruct (IH ds Hds ltac:(simpl in Hlen; lia)) as (IHv & IHl).
    cbn [bytes_of_digits]. rewrite Ex. split.
    + rewrite from_bytes_cons, Hx, IHv, IHl.
      change (horner 16 0 (hi :: lo :: ds)) with (horner 16 (16 * (16 * 0 + hi) + lo) ds).
      rewrite (horner_shift 16 (16 * (16 * 0 + hi) + lo) ds).
      replace (len ds) with (2 * Z.of_nat k) by (unfold len; simpl in Hlen; lia).
      rewrite Z.pow_mul_r by lia. change (16 ^ 2) with 256. ring.
    + rewrite len_cons, IHl. lia.
Qed.

Lemma digits_of_bytes_valid (b : list Byte.byte) :
  Forall (fun d => 0 <= d < 16) (digits_of_bytes b) /\
  List.length (digits_of_bytes b) = (2 * List.length b)%nat.
Proof.
  induction b as [|x b (IHv & IHl)]; [split; [constructor|reflexivity]|].
  pose proof (byte_range x) as Hx.
  unfold digits_of_bytes in *. cbn [flat_map app]. split.
  - constructor; [split; [apply Z.div_pos; lia|apply Z.div_lt_upper_bound; lia]|].
    constructor; [apply Z.mod_pos_bound; lia|exact IHv].
  - simpl. rewrite IHl. lia.
Qed.

Lemma bytes_hex_text (b : list Byte.byte) : bytes_hex b = hex_text (digits_of_bytes b).
Proof.
  induction b as [|x b IH]; [reflexivity|].
  cbn [bytes_hex]. rewrite IH. reflexivity.
Qed.

Lemma bytes_of_digits_of_bytes (b : list Byte.byte) :
  bytes_of_digits (digits_of_bytes b) = b.
Proof.
  induction b as [|x b IH]; [reflexivity|].
  unfold digits_of_bytes in *. cbn [flat_map app bytes_of_digits].
  pose proof (byte_range x) as Hx.
  replace (16 * (Z.of_N (Byte.to_N x) / 16) + Z.of_N (Byte.to_N x) mod 16)
    with (Z.of_N (Byte.to_N x)) by (pose proof (Z.div_mod (Z.of_N (Byte.to_N x)) 16); lia).
  rewrite N2Z.id, Byte.of_to_N. now rewrite IH.
Qed.

Lemma text_digits_bytes_hex (b : list Byte.byte) :
  text_digits (bytes_hex b) = Some (digits_of_bytes b).
Proof.
  rewrite bytes_hex_text. apply text_digits_hex_text, digits_of_bytes_valid.
Qed.

Lemma even_len_digits_of_bytes (b : list Byte.byte) :
  Z.even (len (digits_of_bytes b)) = true.
Proof.
  unfold len. rewrite (proj2 (digits_of_bytes_valid b)).
  rewrite Nat2Z.inj_mul. apply Z.even_mul.
Qed.

(** [bytes.fromhex(b.hex()) == b] *)
Lemma fromhex_bytes_hex (b : list Byte.byte) : bytes_fromhex (bytes_hex b) = Ret b.
Proof.
  rewrite (fromhex_digits_even _ _ (text_digits_bytes_hex b) (even_len_digits_of_bytes b)).
  now rewrite bytes_of_digits_of_bytes.
Qed.

Lemma bytes_of_digits_app (k : nat) (ds ds' : list Z) :
  Forall (fun d => 0 <= d < 16) ds -> List.length ds = (2 * k)%nat ->
  bytes_of_digits (ds ++ ds') = bytes_of_digits ds ++ bytes_of_digits ds'.
Proof.
  revert ds. induction k as [|k IH]; intros ds Hds Hlen.
  - destruct ds; [reflexivity|discriminate Hlen].
  - destruct ds as [|hi [|lo ds]]; try (simpl in Hlen; lia).
    apply Forall_cons_iff in Hds as [Hhi Hds]. apply Forall_cons_iff in Hds as [Hlo Hds].
    change ((hi :: lo :: ds) ++ ds') with (hi :: lo :: (ds ++ ds')).
    rewrite (bytes_of_digits_pair hi lo (ds ++ ds') Hhi Hlo).
    rewrite (bytes_of_digits_pair hi lo ds Hhi Hlo).
    rewrite (IH ds Hds) by (simpl in Hlen; lia). now rewrite app_assoc.
Qed.

(* ================================================================= *)
(** ** [strip], [lower], [upper] and [join] *)

Lemma str_all_app (P : ascii -> bool) (s1 s2 : string) :
  str_all P (s1 ++ s2) = str_all P s1 && str_all P s2.
Proof.
  induction s1 as [|c s1 IH]; [reflexivity|].
  simpl. now rewrite IH, andb_assoc.
Qed.

Lemma lstrip_spaces (ws s : string) :
  str_all isspace ws = true -> lstrip (ws ++ s) = lstrip s.
Proof.
  induction ws as [|c ws IH]; [reflexivity|].
  simpl. intros [Hc Hws]%andb_prop. rewrite Hc. now apply IH.
Qed.

Lemma rstrip_spaces (ws : string) : str_all isspace ws = true -> rstrip ws = EmptyString.
Proof.
  induction ws as [|c ws IH]; [reflexivity|].
  simpl. intros [Hc Hws]%andb_prop. now rewrite (IH Hws), Hc.
Qed.

Lemma rstrip_app_spaces (s ws : string) :
  str_all isspace ws = true -> rstrip (s ++ ws) = rstrip s.
Proof.
  intros Hws. induction s as [|c s IH].
  - now apply rstrip_spaces.
  - simpl. now rewrite IH.
Qed.

Lemma strip_spaces (ws1 s ws2 : string) :
  str_all isspace ws1 = true -> str_all isspace ws2 = true ->
  strip (ws1 ++ s ++ ws2) = strip s.
Proof.
  intros H1 H2. unfold strip. rewrite (lstrip_spaces ws1 _ H1).
  induction s as [|c s IH].
  - cbn [append]. rewrite <- (string_app_nil ws2), (lstrip_spaces ws2 "" H2). reflexivity.
  - cbn [append lstrip]. destruct (isspace c); [exact IH|].
    now apply (rstrip_app_spaces (String c s)).
Qed.

(** A text that ends in a character other than a space is not stripped. *)
Lemma rstrip_app_keep (s1 s2 : string) :
  s2 <> EmptyString -> rstrip s2 = s2 -> rstrip (s1 ++ s2) = (s1 ++ s2)%string.
Proof.
  intros Hne E. induction s1 as [|c s1 IH]; [exact E|].
  cbn [append rstrip]. rewrite IH.
  destruct (s1 ++ s2)%string eqn:Eapp; [|reflexivity].
  destruct s1; [now subst|discriminate].
Qed.

Lemma rstrip_digits (s : string) (ds : list Z) : text_digits s = Some ds -> rstrip s = s.
Proof.
  revert ds. induction s as [|c s IH]; intros ds E; [reflexivity|].
  apply text_digits_cons in E as (d & ds' & -> & Ed & Es).
  cbn [rstrip]. rewrite (IH _ Es).
  destruct s; [|reflexivity]. now rewrite (proj1 (hex_digit_not_space _ _ Ed)).
Qed.

Lemma lstrip_digits (s : string) (ds : list Z) (r : string) :
  text_digits s = Some ds -> ds <> [] -> lstrip (s ++ r) = (s ++ r)%string.
Proof.
  intros E Hne. destruct s as [|c s]; [injection E as <-; contradiction|].
  apply text_digits_cons in E as (d & ds' & -> & Ed & Es).
  cbn [append lstrip]. now rewrite (proj1 (hex_digit_not_space _ _ Ed)).
Qed.

Lemma lower_app (s1 s2 : string) : lower (s1 ++ s2) = (lower s1 ++ lower s2)%string.
Proof. induction s1 as [|c s1 IH]; [reflexivity|]. simpl. now rewrite IH. Qed.

Lemma upper_app (s1 s2 : string) : upper (s1 ++ s2) = (upper s1 ++ upper s2)%string.
Proof. induction s1 as [|c s1 IH]; [reflexivity|]. simpl. now rewrite IH. Qed.

Lemma text_digits_upper (s : string) : text_digits (upper s) = text_digits s.
Proof.
  induction s as [|c s IH]; [reflexivity|].
  simpl. now rewrite hex_digit_upper_char, IH.
Qed.

Lemma join_cons (sep x y : string) (l : list string) :
  join sep (x :: y :: l) = (x ++ sep ++ join sep (y :: l))%string.
Proof. reflexivity. Qed.

Lemma lower_join (l : list string) : lower (join " " l) = join " " (map lower l).
Proof.
  induction l as [|x [|y l] IH]; [reflexivity..|].
  rewrite join_cons, !lower_app, IH. reflexivity.
Qed.

Lemma upper_join (l : list string) : upper (join " " l) = join " " (map upper l).
Proof.
  induction l as [|x [|y l] IH]; [reflexivity..|].
  rewrite join_cons, !upper_app, IH. reflexivity.
Qed.

Lemma digit_groups_map (f : string -> string) (ts : list string) (dss : list (list Z)) :
  (forall s, text_digits (f s) = text_digits s) ->
  digit_groups ts dss -> digit_groups (map f ts) dss.
Proof.
  intros Hf. induction 1 as [|t ds ts dss (E & Hne & Hev) _ IH]; [constructor|].
  constructor; [|exact IH]. now rewrite Hf.
Qed.

Lemma even_half (ds : list Z) :
  Z.even (len ds) = true -> exists k, List.length ds = (2 * k)%nat.
Proof.
  intros (k & Hk)%Z.even_spec. exists (Z.to_nat k). unfold len in Hk. lia.
Qed.

Lemma fromhex_join (ts : list string) (dss : list (list Z)) :
  digit_groups ts dss ->
  bytes_fromhex (join " " ts) = Ret (bytes_of_digits (List.concat dss)).
Proof.
  induction 1 as [|t ds ts dss (E & Hne & Hev) Hrest IH]; [reflexivity|].
  destruct (even_half ds Hev) as (k & Hk).
  cbn [List.concat]. rewrite (bytes_of_digits_app k) by (eauto using text_digits_range).
  destruct ts as [|t' ts].
  - inversion Hrest; subst. cbn [join List.concat bytes_of_digits].
    rewrite app_nil_r. now apply fromhex_digits_even.
  - rewrite join_cons, (fromhex_digits_app k t ds _ E Hk).
    change (" " ++ join " " (t' :: ts))%string with (String " " (join " " (t' :: ts))).
    rewrite fromhex_space by reflexivity. now rewrite IH.
Qed.

Lemma join_nonempty (ts : list string) (dss : list (list Z)) :
  digit_groups ts dss -> ts <> [] -> join " " ts <> EmptyString.
Proof.
  intros H Hne. destruct H as [|t ds ts dss (E & Hds & _) _]; [contradiction|].
  destruct t as [|c t]; [injection E as <-; contradiction|].
  now destruct ts.
Qed.

Lemma strip_join (ts : list string) (dss : list (list Z)) :
  digit_groups ts dss -> strip (join " " ts) = join " " ts.
Proof.
  intros H. unfold strip.
  assert (El : lstrip (join " " ts) = join " " ts).
  { destruct H as [|t ds ts dss (E & Hds & _) _]; [reflexivity|].
    destruct ts; [|rewrite join_cons; now apply lstrip_digits with ds].
    cbn [join]. rewrite <- (string_app_nil t). now apply lstrip_digits with ds. }
  rewrite El.
  induction H as [|t ds ts dss (E & Hds & _) Hrest IH]; [reflexivity|].
  destruct ts as [|t' ts]; [now apply rstrip_digits with ds|].
  rewrite join_cons, <- string_app_assoc. apply rstrip_app_keep.
  - eapply join_nonempty; [exact Hrest|discriminate].
  - apply IH. inversion Hrest as [|? ds' ? ? (E' & Hds' & _)]; subst.
    destruct ts; [|rewrite join_cons; now apply lstrip_digits with ds'].
    cbn [join]. rewrite <- (string_app_nil t'). now apply lstrip_digits with ds'.
Qed.

Lemma no_prefix_0x (c1 c2 : ascii) (d : Z) (r : string) :
  hex_digit c2 = Some d -> String.prefix "0x" (String c1 (String c2 r)) = false.
Proof.
  intros E. cbn [String.prefix].
  destruct (ascii_dec "0" c1); [|reflexivity].
  destruct (ascii_dec "x" c2) as [<-|]; [discriminate E|reflexivity].
Qed.

Lemma no_prefix_minus (c1 : ascii) (d : Z) (r : string) :
  hex_digit c1 = Some d -> String.prefix "-0x" (String c1 r) = false.
Proof.
  intros E. cbn [String.prefix].
  destruct (ascii_dec "-" c1) as [<-|]; [discriminate E|reflexivity].
Qed.

(** A text of digits is not taken for a literal with the prefix [0x]. *)
Lemma digits_no_prefix (s : string) (ds : list Z) (r : string) :
  text_digits s = Some ds ->
  (r = EmptyString \/ 2 <= len ds) ->
  (String.prefix "0x" (s ++ r) || String.prefix "-0x" (s ++ r))%bool = false.
Proof.
  intros E Hr. destruct s as [|c1 s].
  - injection E as <-. destruct Hr as [-> | Hr]; [reflexivity|].
    change (len (@nil Z)) with 0 in Hr. lia.
  - apply text_digits_cons in E as (d1 & ds1 & -> & E1 & Es).
    cbn [append]. rewrite (no_prefix_minus c1 d1 _ E1), orb_false_r.
    destruct s as [|c2 s].
    + injection Es as <-. destruct Hr as [-> | Hr].
      * cbn [append String.prefix]. now destruct (ascii_dec "0" c1).
      * change (len [d1]) with 1 in Hr. lia.
    + apply text_digits_cons in Es as (d2 & ds2 & -> & E2 & _).
      cbn [append]. now apply no_prefix_0x with d2.
Qed.

(** What [int_from_integer] reads in groups of digits parted by a space. *)
Lemma int_from_groups (ts : list string) (dss : list (list Z)) :
  digit_groups ts dss ->
  int_from_integer (IStr (join " " ts)) = Ret (horner 16 0 (List.concat dss)).
Proof.
  intros H. cbn [int_from_integer].
  rewrite (strip_join ts dss H), lower_join.
  pose proof (digit_groups_map lower ts dss text_digits_lower H) as Hl.
  assert (Hp : (String.prefix "0x" (join " " (map lower ts))
                || String.prefix "-0x" (join " " (map lower ts)))%bool = false).
  { destruct Hl as [|t ds ts' dss' (E & Hds & Hev) _]; [reflexivity|].
    assert (H2 : 2 <= len ds).
    { destruct ds as [|? [|? ?]]; [contradiction|discriminate Hev|].
      rewrite !len_cons. pose proof (len_nonneg l). lia. }
    destruct ts'; [|rewrite join_cons; apply digits_no_prefix with ds; auto].
    cbn [join]. rewrite <- (string_app_nil t). apply digits_no_prefix with ds; auto. }
  rewrite Hp, (fromhex_join _ _ Hl). cbn [obind]. f_equal.
  assert (Hall : Forall (fun d => 0 <= d < 16) (List.concat dss) /\
                 Z.even (len (List.concat dss)) = true).
  { clear Hl Hp. induction H as [|t ds ts dss (E & _ & Hev) _ (IHv & IHe)].
    - split; [constructor|reflexivity].
    - cbn [List.concat]. split.
      + apply Forall_app. split; [now apply text_digits_range with t|exact IHv].
      + rewrite len_app, Z.even_add, Hev, IHe. reflexivity. }
  destruct Hall as (Hv & He). destruct (even_half _ He) as (k & Hk).
  apply (from_bytes_of_digits k _ Hv Hk).
Qed.

(* ================================================================= *)
(** ** [hex] and the groups of [hex_string] *)

Lemma hex_digits_of_spec (fuel : nat) (i : Z) (acc : string) :
  0 <= i < 2 ^ Z.of_nat fuel ->
  exists ds,
    hex_digits_of fuel i acc = (hex_text ds ++ acc)%string /\
    horner 16 0 ds = i /\
    Forall (fun d => 0 <= d < 16) ds /\
    (i = 0 -> ds = []) /\
    (0 < i -> exists d ds', ds = d :: ds' /\ 0 < d).
Proof.
  revert i acc. induction fuel as [|fuel IH]; intros i acc Hi.
  - change (2 ^ Z.of_nat 0) with 1 in Hi. assert (i = 0) by lia. subst i.
    exists []. repeat split; auto; lia.
  - cbn [hex_digits_of]. destruct (Z.eqb_spec i 0) as [->|Hne].
    + exists []. repeat split; auto; lia.
    + assert (Hdiv : 0 <= i / 16 < 2 ^ Z.of_nat fuel).
      { split; [apply Z.div_pos; lia|].
        apply Z.div_lt_upper_bound; [lia|].
        rewrite Nat2Z.inj_succ, Z.pow_succ_r in Hi by lia. lia. }
      destruct (IH (i / 16) (String (hex_char (i mod 16)) acc) Hdiv)
        as (ds & E & Hv & Hds & Hz & Hlead).
      pose proof (Z.mod_pos_bound i 16 ltac:(lia)) as Hm.
      pose proof (Z.div_mod i 16 ltac:(lia)) as Hdm.
      exists (ds ++ [i mod 16]). split; [|split; [|split; [|split]]].
      * rewrite E, hex_text_app, string_app_assoc. reflexivity.
      * rewrite horner_app, Hv. unfold horner. cbn [fold_left]. lia.
      * apply Forall_app. split; [exact Hds|]. constructor; [lia|constructor].
      * lia.
      * intros _. destruct (Z.eq_dec (i / 16) 0) as [E0|N0].
        -- rewrite (Hz E0). exists (i mod 16), []. split; [reflexivity|lia].
        -- destruct (Hlead ltac:(lia)) as (d & ds' & -> & Hd).
           exists d, (ds' ++ [i mod 16]). now split.
Qed.

(** [hex(i)] for [i >= 0]: the prefix and the digits of [i], the first of
    them other than 0 unless [i] is 0. *)
Lemma hex_spec (i : Z) :
  0 <= i ->
  exists d ds,
    hex i = ("0x" ++ hex_text (d :: ds))%string /\
    horner 16 0 (d :: ds) = i /\
    Forall (fun d => 0 <= d < 16) (d :: ds) /\
    (i = 0 -> d = 0 /\ ds = []) /\
    (0 < i -> 0 < d).
Proof.
  intros Hi. unfold hex. replace (i <? 0) with false by lia.
  destruct (Z.eqb_spec i 0) as [->|Hne].
  - exists 0, []. repeat split; try lia. constructor; [lia|constructor].
  - rewrite Z.abs_eq by lia.
    assert (Hlt : 0 <= i < 2 ^ Z.of_nat (S (Z.to_nat (Z.log2 i)))).
    { pose proof (Z.log2_spec i ltac:(lia)). pose proof (Z.log2_nonneg i).
      rewrite Nat2Z.inj_succ, Z2Nat.id by lia. lia. }
    destruct (hex_digits_of_spec _ i EmptyString Hlt) as (ds & E & Hv & Hds & _ & Hlead).
    destruct (Hlead ltac:(lia)) as (d & ds' & -> & Hd).
    exists d, ds'. rewrite E, string_app_nil. repeat split; auto; lia.
Qed.

Lemma str_take_hex_text (k : nat) (ds : list Z) :
  str_take k (hex_text ds) = hex_text (firstn k ds).
Proof.
  revert ds. induction k as [|k IH]; intros [|d ds]; try reflexivity.
  cbn [hex_text str_take firstn]. now rewrite IH.
Qed.

Lemma str_drop_hex_text (k : nat) (ds : list Z) :
  str_drop k (hex_text ds) = hex_text (skipn k ds).
Proof.
  revert ds. induction k as [|k IH]; intros [|d ds]; try reflexivity.
  cbn [hex_text str_drop skipn]. now rewrite IH.
Qed.

Lemma slice_hex_text (ds : list Z) (lo hi : Z) :
  slice (hex_text ds) lo hi
  = hex_text (firstn (Z.to_nat (hi - lo)) (skipn (Z.to_nat lo) ds)).
Proof. unfold slice. now rewrite str_drop_hex_text, str_take_hex_text. Qed.

Lemma range_list_rev (k : nat) (i step : Z) :
  rev (range_list (S k) i step) = rev (range_list k (i + step) step) ++ [i].
Proof. reflexivity. Qed.

(** The slices that [hex_string] takes of its digits: they part the digits,
    the first one has from 2 to 8 of them, the others 8 each. *)
Lemma groups_spec (ds : list Z) (k : nat) (L : Z) :
  0 <= L <= len ds -> Z.even L = true -> Z.of_nat k = (L + 7) / 8 ->
  let gs := map (fun i => firstn (Z.to_nat (i - Z.max 0 (i - 8)))
                            (skipn (Z.to_nat (Z.max 0 (i - 8))) ds))
                (rev (range_list k L (-8))) in
  List.concat gs = firstn (Z.to_nat L) ds /\
  (0 < L -> exists first rest,
     gs = first :: rest /\
     2 <= len first <= 8 /\ Z.even (len first) = true /\
     Forall (fun g => len g = 8) rest).
Proof.
  revert L. induction k as [|k IH]; intros L HL Hev Hk gs.
  - assert (L = 0).
    { change (Z.of_nat 0) with 0 in Hk. symmetry in Hk.
      apply Z.div_small_iff in Hk; lia. }
    subst L. subst gs. split; [reflexivity|lia].
  - assert (HLk : 8 * Z.of_nat k < L <= 8 * Z.of_nat k + 8).
    { pose proof (Z.div_mod (L + 7) 8 ltac:(lia)).
      pose proof (Z.mod_pos_bound (L + 7) 8 ltac:(lia)). lia. }
    assert (Hk' : Z.of_nat k = (L + -8 + 7) / 8).
    { replace (L + -8 + 7) with (L + 7 + (-1) * 8) by lia.
      rewrite Z.div_add by lia. lia. }
    assert (Hev' : Z.even (L + -8) = true) by (rewrite Z.even_add, Hev; reflexivity).
    subst gs. rewrite range_list_rev, map_app, concat_app. cbn [map List.concat].
    rewrite app_nil_r.
    set (last := firstn (Z.to_nat (L - Z.max 0 (L - 8))) (skipn (Z.to_nat (Z.max 0 (L - 8))) ds)).
    destruct k as [|k].
    + (* the only group *)
      cbn [range_list rev map List.concat app].
      assert (El : last = firstn (Z.to_nat L) ds).
      { subst last. replace (Z.max 0 (L - 8)) with 0 by lia.
        now rewrite Z.sub_0_r. }
      split; [exact El|]. intros _. exists last, []. split; [reflexivity|].
      assert (Hlen : len last = L).
      { rewrite El. unfold len in *. rewrite length_firstn. lia. }
      rewrite Hlen. repeat split; try lia; auto.
      destruct (Z.eq_dec L 1) as [->|]; [discriminate Hev|lia].
    + destruct (IH (L + -8) ltac:(lia) Hev' Hk') as (Hcat & Hshape).
      assert (El : last = firstn 8 (skipn (Z.to_nat (L - 8)) ds)).
      { subst last. replace (Z.max 0 (L - 8)) with (L - 8) by lia.
        now replace (L - (L - 8)) with 8 by lia. }
      assert (Hlen : len last = 8).
      { rewrite El. unfold len in *. rewrite length_firstn, length_skipn. lia. }
      split.
      * rewrite Hcat, El. replace (L + -8) with (L - 8) by lia.
        replace (Z.to_nat L) with (Z.to_nat (L - 8) + 8)%nat by lia.
        now rewrite firstn_add_skipn.
      * intros _. destruct (Hshape ltac:(lia)) as (first & rest & Egs & Hfirst & Hfe & Hrest).
        exists first, (rest ++ [last]). rewrite Egs. split; [reflexivity|].
        repeat split; try easy.
        apply Forall_app. split; [exact Hrest|]. now constructor.
Qed.

Lemma Forall_concat_elt {A} (P : A -> Prop) (ls : list (list A)) :
  Forall P (List.concat ls) -> Forall (Forall P) ls.
Proof.
  induction ls as [|l ls IH]; [constructor|].
  cbn [List.concat]. intros [H1 H2]%Forall_app. constructor; auto.
Qed.

Lemma upper_hex_text (ds : list Z) :
  Forall (fun d => 0 <= d < 16) ds ->
  str_all is_upper_hex (upper (hex_text ds)) = true /\
  strlen (upper (hex_text ds)) = len ds.
Proof.
  induction 1 as [|d ds Hd _ (IH1 & IH2)]; [split; reflexivity|].
  cbn [hex_text upper str_all]. split.
  - rewrite IH1, andb_true_r. digit_cases d Hd; reflexivity.
  - unfold strlen, len in *. cbn [String.length List.length]. lia.
Qed.

(** [hex_string] on a non-negative integer: the groups of digits that it
    joins. *)
Lemma hex_string_groups (i : Integer) (n : Z) :
  int_from_integer i = Ret n -> 0 <= n ->
  exists first rest dss,
    hex_string i = Ret (join " " (first :: rest)) /\
    digit_groups (first :: rest) dss /\
    horner 16 0 (List.concat dss) = n /\
    2 <= strlen first <= 8 /\
    Forall (fun t => strlen t = 8) rest /\
    Forall (fun t => str_all is_upper_hex t = true) (first :: rest) /\
    (n = 0 -> List.concat dss = [0; 0]) /\
    (0 < n -> 16 ^ (len (List.concat dss) - 2) <= n).
Proof.
  intros Ei Hn. unfold hex_string. rewrite Ei. cbn [obind].
  replace (n <? 0) with false by lia.
  destruct (hex_spec n Hn) as (d & ds & Eh & Hv & Hds & Hzero & Hlead).
  rewrite Eh. change (slice_from ("0x" ++ hex_text (d :: ds)) 2) with (hex_text (d :: ds)).
  rewrite strlen_hex_text.
  set (ds' := if negb (len (d :: ds) mod 2 =? 0) then 0 :: d :: ds else d :: ds).
  assert (Ea : (if negb (len (d :: ds) mod 2 =? 0)
                then ("0" ++ hex_text (d :: ds))%string else hex_text (d :: ds))
               = hex_text ds').
  { subst ds'. now destruct (negb (len (d :: ds) mod 2 =? 0)). }
  rewrite Ea, strlen_hex_text. clear Ea.
  assert (Hds' : Forall (fun d => 0 <= d < 16) ds').
  { subst ds'. destruct (negb _); [constructor; [lia|]|]; exact Hds. }
  assert (Hv' : horner 16 0 ds' = n).
  { subst ds'. destruct (negb _); [|exact Hv].
    change (horner 16 0 (0 :: d :: ds)) with (horner 16 0 (d :: ds)). exact Hv. }
  assert (Hlen' : Z.even (len ds') = true /\ 2 <= len ds' <= len (d :: ds) + 1).
  { subst ds'. pose proof (len_nonneg ds) as Hl.
    destruct (Z.eqb_spec (len (d :: ds) mod 2) 0) as [E|NE]; cbn [negb].
    - split; [|rewrite len_cons in *; rewrite Zmod_even in E;
               destruct (Z.even (1 + len ds)) eqn:Ev;
               [destruct ds; [discriminate Ev|rewrite len_cons; pose proof (len_nonneg ds); lia]|lia]].
      rewrite Zmod_even in E. now destruct (Z.even (len (d :: ds))).
    - split; [|rewrite !len_cons; lia].
      rewrite (len_cons 0), Z.even_add. rewrite Zmod_even in NE.
      now destruct (Z.even (len (d :: ds))). }
  destruct Hlen' as (Hev & Hlen).
  unfold range. change (0 <? -8) with false. cbv iota.
  replace ((len ds' - 0 - -8 - 1) / - -8) with ((len ds' + 7) / 8) by (f_equal; lia).
  assert (Hk : Z.of_nat (Z.to_nat ((len ds' + 7) / 8)) = (len ds' + 7) / 8).
  { apply Z2Nat.id, Z.div_pos; lia. }
  destruct (groups_spec ds' _ (len ds') ltac:(lia) Hev Hk) as (Hcat & Hshape).
  destruct (Hshape ltac:(lia)) as (first & rest & Egs & Hfirst & Hfe & Hrest).
  rewrite <- (map_ext (fun i => hex_text (firstn (Z.to_nat (i - Z.max 0 (i - 8)))
                                          (skipn (Z.to_nat (Z.max 0 (i - 8))) ds'))))
    by (intros; symmetry; apply slice_hex_text).
  rewrite <- (map_map _ hex_text), Egs, upper_join.
  replace (Z.to_nat (len ds')) with (List.length ds') in Hcat by (unfold len; lia).
  rewrite firstn_all, Egs in Hcat.
  assert (Hall : Forall (Forall (fun d => 0 <= d < 16)) (first :: rest)).
  { apply Forall_concat_elt. now rewrite Hcat. }
  exists (upper (hex_text first)), (map upper (map hex_text rest)), (first :: rest).
  split; [reflexivity|].
  apply Forall_cons_iff in Hall as [Hall1 Hall2].
  split; [|split; [|split; [|split; [|split; [|split]]]]].
  - constructor.
    + rewrite text_digits_upper, text_digits_hex_text by exact Hall1.
      repeat split; [|exact Hfe]. intros ->. change (len (@nil Z)) with 0 in Hfirst. lia.
    + clear Egs Hcat. induction rest as [|g rest IH]; [constructor|].
      apply Forall_cons_iff in Hrest as [Hg Hrest].
      apply Forall_cons_iff in Hall2 as [Hg2 Hall2].
      constructor; [|now apply IH].
      rewrite text_digits_upper, text_digits_hex_text by exact Hg2.
      repeat split; [|now rewrite Hg]. intros ->. discriminate Hg.
  - now rewrite Hcat.
  - now rewrite (proj2 (upper_hex_text first Hall1)).
  - clear Egs Hcat. induction rest as [|g rest IH]; [constructor|].
    apply Forall_cons_iff in Hrest as [Hg Hrest].
    apply Forall_cons_iff in Hall2 as [Hg2 Hall2].
    constructor; [|now apply IH].
    now rewrite (proj2 (upper_hex_text g Hg2)).
  - constructor; [apply (upper_hex_text first Hall1)|].
    clear Egs Hcat Hrest. induction rest as [|g rest IH]; [constructor|].
    apply Forall_cons_iff in Hall2 as [Hg2 Hall2].
    constructor; [apply (upper_hex_text g Hg2)|now apply IH].
  - intros ->. rewrite Hcat. destruct (Hzero eq_refl) as (-> & ->). reflexivity.
  - intros Hpos. rewrite Hcat. specialize (Hlead Hpos).
    rewrite <- Hv. change (horner 16 0 (d :: ds)) with (horner 16 (16 * 0 + d) ds).
    rewrite horner_shift.
    assert (H0 : 0 <= horner 16 0 ds).
    { clear - Hds. apply Forall_cons_iff in Hds as [_ Hds].
      induction ds as [|x ds IH] using rev_ind; [unfold horner; simpl; lia|].
      apply Forall_app in Hds as [H1 H2]. apply Forall_cons_iff in H2 as [Hx _].
      rewrite horner_app. unfold horner at 1. cbn [fold_left]. specialize (IH H1). lia. }
    rewrite len_cons in Hlen. pose proof (len_nonneg ds) as Hl.
    assert (Hpow : 16 ^ (len ds' - 2) <= 16 ^ len ds) by (apply Z.pow_le_mono_r; lia).
    pose proof (Z.pow_pos_nonneg 16 (len ds) ltac:(lia) Hl). nia.
Qed.

Lemma bytes_from_octets_hex (b : list Byte.byte) (out_size : NoneOneOrMoreInt) :
  bytes_from_octets (OStr (bytes_hex b)) out_size = bytes_from_octets (OBytes b) out_size /\
  bytes_from_octets (OStr (bytes_hex b)) NoSize = Ret b.
Proof. unfold bytes_from_octets. now rewrite fromhex_bytes_hex. Qed.

(* ================================================================= *)
(** ** Octets: hex-strings and bytes *)

(** X11.  The hex-string that [token_or_string_to_hex_string] writes for
    bytes [b] has two characters a byte, and [bytes_from_octets] reads it
    back as [b]: it treats the string, whatever the size asked for, as it
    treats [b] itself. *)
Theorem bytes_from_octets_hex_text (b : list Byte.byte) (out_size : NoneOneOrMoreInt) :
  strlen (token_or_string_to_hex_string (TBytes b)) = 2 * len b /\
  bytes_from_octets (OStr (token_or_string_to_hex_string (TBytes b))) NoSize = Ret b /\
  bytes_from_octets (OStr (token_or_string_to_hex_string (TBytes b))) out_size
  = bytes_from_octets (OBytes b) out_size.
Proof.
  cbn [token_or_string_to_hex_string]. split; [|split].
  - rewrite bytes_hex_text, strlen_hex_text. unfold len.
    rewrite (proj2 (digits_of_bytes_valid b)). lia.
  - unfold bytes_from_octets. now rewrite fromhex_bytes_hex.
  - unfold bytes_from_octets. now rewrite fromhex_bytes_hex.
Qed.

(** X12.  Once the octets can be read as bytes [b], the size asked of
    [bytes_from_octets] decides alone: [b] is returned when its length is
    the size, or one of the sizes, asked for, and [BTClibValueError] is
    raised when it is not. *)
Theorem bytes_from_octets_size (octets : Octets) (out_size : NoneOneOrMoreInt)
    (b : list Byte.byte) :
  bytes_from_octets octets NoSize = Ret b ->
  (size_allowed out_size (len b) -> bytes_from_octets octets out_size = Ret b) /\
  (~ size_allowed out_size (len b) ->
   bytes_from_octets octets out_size = Raise (BTClibValueError "invalid size")).
Proof.
  unfold bytes_from_octets.
  destruct (match octets with OStr s => bytes_fromhex s | OBytes b0 => Ret b0 end)
    as [b0|e|]; cbn [obind]; try discriminate.
  intros [= ->]. destruct out_size as [|n|l]; cbn [size_allowed].
  - split; [reflexivity|tauto].
  - destruct (Z.eqb_spec (len b) n); split; tauto.
  - unfold contains. destruct (existsb (Z.eqb (len b)) l) eqn:E.
    + split; [reflexivity|]. intros Hn. exfalso. apply Hn.
      apply existsb_exists in E as (x & Hx & Ex). apply Z.eqb_eq in Ex. now subst x.
    + split; [|reflexivity]. intros Hin. exfalso.
      assert (E' : existsb (Z.eqb (len b)) l = true)
        by (apply existsb_exists; exists (len b); split; [exact Hin|apply Z.eqb_refl]).
      congruence.
Qed.

Lemma bytes_from_octets_size_witness :
  bytes_from_octets (OStr "00ff") NoSize = Ret [Byte.x00; Byte.xff] /\
  (size_allowed (Sizes [1; 2]) (len [Byte.x00; Byte.xff]) ->
   bytes_from_octets (OStr "00ff") (Sizes [1; 2]) = Ret [Byte.x00; Byte.xff]) /\
  (~ size_allowed (Sizes [1; 2]) (len [Byte.x00; Byte.xff]) ->
   bytes_from_octets (OStr "00ff") (Sizes [1; 2]) = Raise (BTClibValueError "invalid size")).
Proof.
  split; [reflexivity|].
  apply (bytes_from_octets_size (OStr "00ff") (Sizes [1; 2]) [Byte.x00; Byte.xff]).
  reflexivity.
Defined.

Section HashFacts.
Context {H : Hashlib}.

(** X13.  The three hashes take bytes and their hex-string alike:
    [sha256] is the digest of the bytes, [hash256] the digest of that
    digest, and [hash160] the RIPEMD160 of it. *)
Theorem hashes_of_hex_text (b : list Byte.byte) :
  let t := OStr (token_or_string_to_hex_string (TBytes b)) in
  sha256 t = Ret (hashlib_sha256 b) /\
  sha256 (OBytes b) = Ret (hashlib_sha256 b) /\
  hash256 t = Ret (hashlib_sha256 (hashlib_sha256 b)) /\
  hash256 (OBytes b) = Ret (hashlib_sha256 (hashlib_sha256 b)) /\
  hash160 t = hashlib_new_ripemd160 (hashlib_sha256 b) /\
  hash160 (OBytes b) = hashlib_new_ripemd160 (hashlib_sha256 b).
Proof.
  intros t.
  assert (Et : sha256 t = Ret (hashlib_sha256 b)).
  { unfold sha256. subst t.
    cbn [token_or_string_to_hex_string].
    now rewrite (proj2 (bytes_from_octets_hex b NoSize)). }
  assert (Eb : sha256 (OBytes b) = Ret (hashlib_sha256 b)) by reflexivity.
  unfold hash256, hash160. rewrite Et, Eb. repeat split.
Qed.

End HashFacts.

(* ================================================================= *)
(** ** The leftmost bits *)

Lemma int_from_bits_eq (b : list Byte.byte) (nlen : Z) :
  int_from_bits (OBytes b) nlen
  = Ret (int_from_bytes_big b / 2 ^ Z.max 0 (8 * len b - nlen)).
Proof.
  unfold int_from_bits, bytes_from_octets, rshift. cbn [obind]. cbv zeta.
  rewrite Z.geb_leb. f_equal.
  destruct (Z.leb_spec nlen (len b * 8)).
  - rewrite Z.shiftr_div_pow2 by lia. do 2 f_equal. lia.
  - rewrite Z.shiftr_0_r. replace (Z.max 0 (8 * len b - nlen)) with 0 by lia.
    now rewrite Z.pow_0_r, Z.div_1_r.
Qed.

(** X14.  For [nlen >= 0], [int_from_bits] returns a non-negative integer
    below [2 ** nlen]: the integer of the bytes, shifted right by the bits
    in excess of [nlen], and that integer itself when the bytes have no
    more than [nlen] bits. *)
Theorem int_from_bits_range (b : list Byte.byte) (nlen : Z) :
  0 <= nlen ->
  exists r,
    int_from_bits (OBytes b) nlen = Ret r /\
    0 <= r < 2 ^ nlen /\
    (nlen <= 8 * len b -> r = int_from_bytes_big b / 2 ^ (8 * len b - nlen)) /\
    (8 * len b <= nlen -> r = int_from_bytes_big b).
Proof.
  intros Hn. rewrite int_from_bits_eq. eexists. split; [reflexivity|].
  pose proof (from_bytes_range b) as Hb. pose proof (len_nonneg b) as Hl.
  replace (256 ^ len b) with (2 ^ (8 * len b)) in Hb
    by (rewrite Z.pow_mul_r by lia; reflexivity).
  destruct (Z.le_gt_cases nlen (8 * len b)) as [Hle|Hgt].
  - replace (Z.max 0 (8 * len b - nlen)) with (8 * len b - nlen) by lia.
    split; [|split; [reflexivity|]].
    + split; [apply Z.div_pos; [lia|apply Z.pow_pos_nonneg; lia]|].
      apply Z.div_lt_upper_bound; [apply Z.pow_pos_nonneg; lia|].
      rewrite <- Z.pow_add_r by lia. now replace (8 * len b - nlen + nlen) with (8 * len b) by lia.
    + intros Hge. replace (8 * len b - nlen) with 0 by lia.
      now rewrite Z.pow_0_r, Z.div_1_r.
  - replace (Z.max 0 (8 * len b - nlen)) with 0 by lia.
    rewrite Z.pow_0_r, Z.div_1_r. split; [|split; [lia|reflexivity]].
    split; [lia|]. apply Z.lt_le_trans with (2 ^ (8 * len b)); [lia|].
    apply Z.pow_le_mono_r; lia.
Qed.

Lemma int_from_bits_range_witness :
  0 <= 12 /\
  exists r,
    int_from_bits (OBytes [Byte.xab; Byte.xcd]) 12 = Ret r /\
    0 <= r < 2 ^ 12 /\
    (12 <= 8 * len [Byte.xab; Byte.xcd] ->
     r = int_from_bytes_big [Byte.xab; Byte.xcd] / 2 ^ (8 * len [Byte.xab; Byte.xcd] - 12)) /\
    (8 * len [Byte.xab; Byte.xcd] <= 12 -> r = int_from_bytes_big [Byte.xab; Byte.xcd]).
Proof.
  assert (H : 0 <= 12) by lia.
  split; [exact H|]. exact (int_from_bits_range [Byte.xab; Byte.xcd] 12 H).
Defined.

(** X15.  [int_from_bits] discards on the right: the bytes that follow the
    first [nlen] bits do not change the result, and on a whole number of
    bytes it returns the integer of the leading bytes. *)
Theorem int_from_bits_leftmost (x y : list Byte.byte) (nlen : Z) :
  nlen <= 8 * len x ->
  int_from_bits (OBytes (x ++ y)) nlen = int_from_bits (OBytes x) nlen /\
  int_from_bits (OBytes (x ++ y)) (8 * len x) = Ret (int_from_bytes_big x).
Proof.
  intros Hn.
  pose proof (from_bytes_range y) as Hy. pose proof (from_bytes_range x) as Hx.
  pose proof (len_nonneg x) as Hlx. pose proof (len_nonneg y) as Hly.
  replace (256 ^ len y) with (2 ^ (8 * len y)) in Hy
    by (rewrite Z.pow_mul_r by lia; reflexivity).
  assert (Hpy : 0 < 2 ^ (8 * len y)) by (apply Z.pow_pos_nonneg; lia).
  assert (Hcut : forall k, 0 <= k ->
            int_from_bytes_big (x ++ y) / 2 ^ (8 * len y + k) = int_from_bytes_big x / 2 ^ k).
  { intros k Hk. rewrite from_bytes_app, Z.pow_add_r by lia.
    rewrite <- Z.div_div by (try apply Z.pow_pos_nonneg; lia).
    f_equal. replace (256 ^ len y) with (2 ^ (8 * len y))
      by (rewrite Z.pow_mul_r by lia; reflexivity).
    rewrite Z.mul_comm, Z.div_add_l by lia. rewrite (Z.div_small (int_from_bytes_big y)) by lia.
    lia. }
  rewrite !int_from_bits_eq, len_app. split.
  - f_equal. replace (Z.max 0 (8 * (len x + len y) - nlen))
      with (8 * len y + (8 * len x - nlen)) by lia.
    replace (Z.max 0 (8 * len x - nlen)) with (8 * len x - nlen) by lia.
    apply Hcut. lia.
  - f_equal. replace (Z.max 0 (8 * (len x + len y) - 8 * len x)) with (8 * len y + 0) by lia.
    rewrite Hcut by lia. now rewrite Z.pow_0_r, Z.div_1_r.
Qed.

Lemma int_from_bits_leftmost_witness :
  12 <= 8 * len [Byte.xab; Byte.xcd] /\
  int_from_bits (OBytes ([Byte.xab; Byte.xcd] ++ [Byte.xef])) 12
  = int_from_bits (OBytes [Byte.xab; Byte.xcd]) 12 /\
  int_from_bits (OBytes ([Byte.xab; Byte.xcd] ++ [Byte.xef])) (8 * len [Byte.xab; Byte.xcd])
  = Ret (int_from_bytes_big [Byte.xab; Byte.xcd]).
Proof.
  assert (H : 12 <= 8 * len [Byte.xab; Byte.xcd]) by (vm_compute; discriminate).
  split; [exact H|].
  exact (int_from_bits_leftmost [Byte.xab; Byte.xcd] [Byte.xef] 12 H).
Defined.

(* ================================================================= *)
(** ** Integers from hex-strings *)

Lemma hex_digit_not_underscore (c : ascii) (d : Z) (r : string) :
  hex_digit c = Some d ->
  Ascii.eqb c "_" = false /\
  match String c r with String "_" r' => r' | _ => String c r end = String c r.
Proof. ascii_cases c; vm_compute; intros E; (discriminate E || (split; reflexivity)). Qed.

Lemma hex_digits_text (s : string) (ds : list Z) (acc : Z) (after_digit : bool) :
  text_digits s = Some ds -> ds <> [] \/ after_digit = true ->
  hex_digits s acc after_digit = Some (horner 16 acc ds).
Proof.
  revert ds acc after_digit. induction s as [|c s IH]; intros ds acc after_digit E H.
  - injection E as <-. destruct H as [H | ->]; [contradiction|reflexivity].
  - apply text_digits_cons in E as (d & ds' & -> & Ed & Es).
    cbn [hex_digits].
    rewrite (proj1 (hex_digit_not_underscore c d EmptyString Ed)), Ed.
    apply (IH ds' (16 * acc + d) true Es). now right.
Qed.

Lemma strip_digits (s : string) (ds : list Z) (pre : string) :
  text_digits s = Some ds -> ds <> [] ->
  lstrip (pre ++ s) = (pre ++ s)%string ->
  strip (pre ++ s) = (pre ++ s)%string.
Proof.
  intros E Hne El. unfold strip. rewrite El. apply rstrip_app_keep.
  - intros ->. injection E as <-. contradiction.
  - now apply rstrip_digits with ds.
Qed.

Lemma lower_digits (s : string) (ds : list Z) :
  text_digits s = Some ds -> text_digits (lower s) = Some ds.
Proof. now rewrite text_digits_lower. Qed.

(** X17.  A text [h] of hexadecimal digits, of either case.  After the
    prefix [0x] it is read as the integer of its digits, after [-0x] as the
    opposite of it.  Without a prefix it is read through [bytes.fromhex]:
    as the same integer when the digits are even in number, and with a
    [ValueError] when they are odd in number. *)
Theorem int_from_integer_hex_literal (h : string) (ds : list Z) :
  text_digits h = Some ds -> ds <> [] ->
  int_from_integer (IStr ("0x" ++ h)) = Ret (horner 16 0 ds) /\
  int_from_integer (IStr ("-0x" ++ h)) = Ret (- horner 16 0 ds) /\
  (Z.even (len ds) = true -> int_from_integer (IStr h) = Ret (horner 16 0 ds)) /\
  (Z.even (len ds) = false ->
   int_from_integer (IStr h)
   = Raise (ValueError "non-hexadecimal number found in fromhex() arg")).
Proof.
  intros E Hne.
  pose proof (lower_digits h ds E) as El.
  assert (Hl : exists c d r, lower h = String c r /\ hex_digit c = Some d).
  { destruct (lower h) as [|c r]; [injection El as <-; contradiction|].
    apply text_digits_cons in El as (d & ? & _ & Ed & _). now exists c, d, r. }
  destruct Hl as (c & d & r & Elh & Ec).
  pose proof (hex_digits_text (lower h) ds 0 false El (or_introl Hne)) as Hv.
  split; [|split; [|split]].
  - cbn [int_from_integer].
    rewrite (strip_digits h ds "0x" E Hne eq_refl), lower_app.
    change (lower "0x") with "0x"%string. rewrite Elh.
    change (String.prefix "0x" ("0x" ++ String c r)) with true. cbn [orb].
    unfold int_base16. cbn [append].
    rewrite (proj2 (hex_digit_not_underscore c d r Ec)), <- Elh, Hv. reflexivity.
  - cbn [int_from_integer].
    rewrite (strip_digits h ds "-0x" E Hne eq_refl), lower_app.
    change (lower "-0x") with "-0x"%string. rewrite Elh.
    change (String.prefix "-0x" ("-0x" ++ String c r)) with true. rewrite orb_true_r.
    unfold int_base16. cbn [append].
    rewrite (proj2 (hex_digit_not_underscore c d r Ec)), <- Elh, Hv. reflexivity.
  - intros Hev. cbn [int_from_integer].
    assert (Es : strip h = h).
    { unfold strip. destruct h as [|c0 h0]; [reflexivity|].
      pose proof E as E0. apply text_digits_cons in E0 as (d0 & ? & _ & Ed0 & _).
      cbn [lstrip]. rewrite (proj1 (hex_digit_not_space _ _ Ed0)).
      now apply rstrip_digits with ds. }
    rewrite Es. rewrite <- (string_app_nil (lower h)) at 1 2.
    rewrite (digits_no_prefix (lower h) ds "" El (or_introl eq_refl)).
    rewrite (fromhex_digits_even _ _ El Hev). cbn [obind]. f_equal.
    destruct (even_half ds Hev) as (k & Hk).
    apply (from_bytes_of_digits k ds (text_digits_range _ _ E) Hk).
  - intros Hodd. cbn [int_from_integer].
    assert (Es : strip h = h).
    { unfold strip. destruct h as [|c0 h0]; [reflexivity|].
      pose proof E as E0. apply text_digits_cons in E0 as (d0 & ? & _ & Ed0 & _).
      cbn [lstrip]. rewrite (proj1 (hex_digit_not_space _ _ Ed0)).
      now apply rstrip_digits with ds. }
    rewrite Es. rewrite <- (string_app_nil (lower h)) at 1 2.
    rewrite (digits_no_prefix (lower h) ds "" El (or_introl eq_refl)).
    now rewrite (fromhex_digits_odd _ _ El Hodd).
Qed.

Lemma int_from_integer_hex_literal_witness :
  text_digits "aBc" = Some [10; 11; 12] /\ [10; 11; 12] <> [] /\
  int_from_integer (IStr ("0x" ++ "aBc")) = Ret (horner 16 0 [10; 11; 12]) /\
  int_from_integer (IStr ("-0x" ++ "aBc")) = Ret (- horner 16 0 [10; 11; 12]) /\
  (Z.even (len [10; 11; 12]) = true ->
   int_from_integer (IStr "aBc") = Ret (horner 16 0 [10; 11; 12])) /\
  (Z.even (len [10; 11; 12]) = false ->
   int_from_integer (IStr "aBc")
   = Raise (ValueError "non-hexadecimal number found in fromhex() arg")).
Proof.
  assert (H1 : text_digits "aBc" = Some [10; 11; 12]) by reflexivity.
  assert (H2 : [10; 11; 12] <> []) by discriminate.
  split; [exact H1|]. split; [exact H2|].
  exact (int_from_integer_hex_literal "aBc" [10; 11; 12] H1 H2).
Defined.

(** X18.  White space around a string does not change the integer that
    [int_from_integer] reads from it, and a string of white space only,
    the empty string included, is read as 0. *)
Theorem int_from_integer_strips (ws1 s ws2 : string) :
  str_all isspace ws1 = true -> str_all isspace ws2 = true ->
  int_from_integer (IStr (ws1 ++ s ++ ws2)) = int_from_integer (IStr s) /\
  int_from_integer (IStr (ws1 ++ ws2)) = Ret 0.
Proof.
  intros H1 H2. split.
  - cbn [int_from_integer]. now rewrite (strip_spaces ws1 s ws2 H1 H2).
  - change (ws1 ++ ws2)%string with (ws1 ++ "" ++ ws2)%string.
    cbn [int_from_integer]. now rewrite (strip_spaces ws1 "" ws2 H1 H2).
Qed.

Lemma int_from_integer_strips_witness :
  str_all isspace " " = true /\ str_all isspace (String "010" (String "009" "")) = true /\
  int_from_integer (IStr (" " ++ "0x1f" ++ String "010" (String "009" "")))
  = int_from_integer (IStr "0x1f") /\
  int_from_integer (IStr (" " ++ String "010" (String "009" ""))) = Ret 0.
Proof.
  assert (H1 : str_all isspace " " = true) by reflexivity.
  assert (H2 : str_all isspace (String "010" (String "009" "")) = true) by reflexivity.
  split; [exact H1|]. split; [exact H2|].
  exact (int_from_integer_strips " " "0x1f" (String "010" (String "009" "")) H1 H2).
Defined.

(** X16.  Bytes and the hex-string that [token_or_string_to_hex_string]
    writes for them are read as one and the same integer, which is not
    negative and is below [256 ** len(b)]. *)
Theorem int_from_integer_bytes_hex (b : list Byte.byte) :
  int_from_integer (IStr (token_or_string_to_hex_string (TBytes b)))
  = int_from_integer (IBytes b) /\
  int_from_integer (IBytes b) = Ret (int_from_bytes_big b) /\
  0 <= int_from_bytes_big b < 256 ^ len b.
Proof.
  split; [|split; [reflexivity|apply from_bytes_range]].
  cbn [token_or_string_to_hex_string].
  destruct b as [|x b]; [reflexivity|].
  set (b' := x :: b).
  assert (Hg : digit_groups [bytes_hex b'] [digits_of_bytes b']).
  { constructor; [|constructor]. split; [apply text_digits_bytes_hex|].
    split; [discriminate|apply even_len_digits_of_bytes]. }
  change (bytes_hex b') with (join " " [bytes_hex b']).
  rewrite (int_from_groups _ _ Hg). cbn [List.concat int_from_integer]. rewrite app_nil_r.
  f_equal. destruct (even_half _ (even_len_digits_of_bytes b')) as (k & Hk).
  rewrite <- (proj1 (from_bytes_of_digits k _ (proj1 (digits_of_bytes_valid b')) Hk)).
  now rewrite bytes_of_digits_of_bytes.
Qed.

(* ================================================================= *)
(** ** [hex_string] *)

(** X19.  On an integer that is not negative, in any of its
    representations, [hex_string] returns groups of digits joined by one
    space, in upper case: the first group has 2, 4, 6 or 8 digits, every
    other one 8; together they are the digits of the integer, as few as an
    even number allows ([00] for 0).  On a negative integer it raises
    [BTClibValueError]. *)
Theorem hex_string_grouping (i : Integer) (n : Z) :
  int_from_integer i = Ret n ->
  (n < 0 -> hex_string i = Raise (BTClibValueError "negative integer")) /\
  (0 <= n ->
   exists first rest dss,
     hex_string i = Ret (join " " (first :: rest)) /\
     digit_groups (first :: rest) dss /\
     horner 16 0 (List.concat dss) = n /\
     2 <= strlen first <= 8 /\
     Forall (fun t => strlen t = 8) rest /\
     Forall (fun t => str_all is_upper_hex t = true) (first :: rest) /\
     (n = 0 -> List.concat dss = [0; 0]) /\
     (0 < n -> 16 ^ (len (List.concat dss) - 2) <= n)).
Proof.
  intros Ei. split.
  - intros Hn. unfold hex_string. rewrite Ei. cbn [obind].
    now replace (n <? 0) with true by lia.
  - intros Hn. exact (hex_string_groups i n Ei Hn).
Qed.

Lemma hex_string_grouping_witness :
  int_from_integer (IStr "0x123456789") = Ret 4886718345 /\
  (4886718345 < 0 ->
   hex_string (IStr "0x123456789") = Raise (BTClibValueError "negative integer")) /\
  (0 <= 4886718345 ->
   exists first rest dss,
     hex_string (IStr "0x123456789") = Ret (join " " (first :: rest)) /\
     digit_groups (first :: rest) dss /\
     horner 16 0 (List.concat dss) = 4886718345 /\
     2 <= strlen first <= 8 /\
     Forall (fun t => strlen t = 8) rest /\
     Forall (fun t => str_all is_upper_hex t = true) (first :: rest) /\
     (4886718345 = 0 -> List.concat dss = [0; 0]) /\
     (0 < 4886718345 -> 16 ^ (len (List.concat dss) - 2) <= 4886718345)).
Proof.
  assert (H : int_from_integer (IStr "0x123456789") = Ret 4886718345) by reflexivity.
  split; [exact H|].
  exact (hex_string_grouping (IStr "0x123456789") 4886718345 H).
Defined.

(** X20.  Round trip: the hex-string of an integer that is not negative
    is read back by [int_from_integer] as that integer, and [hex_string]
    leaves its own result as it is. *)
Theorem hex_string_round_trip (i : Integer) (n : Z) :
  int_from_integer i = Ret n -> 0 <= n ->
  exists h,
    hex_string i = Ret h /\
    int_from_integer (IStr h) = Ret n /\
    hex_string (IStr h) = Ret h.
Proof.
  intros Ei Hn.
  destruct (hex_string_groups i n Ei Hn) as (first & rest & dss & Eh & Hg & Hv & _).
  assert (Er : int_from_integer (IStr (join " " (first :: rest))) = Ret n)
    by (rewrite (int_from_groups _ _ Hg); now rewrite Hv).
  exists (join " " (first :: rest)). split; [exact Eh|]. split; [exact Er|].
  rewrite <- Eh. unfold hex_string. now rewrite Er, Ei.
Qed.

Lemma hex_string_round_trip_witness :
  int_from_integer (IBytes [Byte.x01; Byte.x23; Byte.x45; Byte.x67; Byte.x89])
  = Ret 4886718345 /\
  0 <= 4886718345 /\
  exists h,
    hex_string (IBytes [Byte.x01; Byte.x23; Byte.x45; Byte.x67; Byte.x89]) = Ret h /\
    int_from_integer (IStr h) = Ret 4886718345 /\
    hex_string (IStr h) = Ret h.
Proof.
  assert (H1 : int_from_integer (IBytes [Byte.x01; Byte.x23; Byte.x45; Byte.x67; Byte.x89])
               = Ret 4886718345) by reflexivity.
  assert (H2 : 0 <= 4886718345) by lia.
  split; [exact H1|]. split; [exact H2|].
  exact (hex_string_round_trip _ 4886718345 H1 H2).
Defined.

(* ================================================================= *)
(** ** Powers of two *)

Lemma land_even_odd (x y : Z) : Z.land (2 * x) (2 * y + 1) = 2 * Z.land x y.
Proof.
  apply Z.bits_inj'. intros k Hk.
  rewrite Z.land_spec.
  destruct (Z.eq_dec k 0) as [->|Hk0].
  - now rewrite !Z.testbit_even_0, Z.testbit_odd_0.
  - replace k with (Z.succ (k - 1)) by lia.
    rewrite !Z.testbit_even_succ, Z.testbit_odd_succ by lia.
    now rewrite Z.land_spec.
Qed.

Lemma land_odd_even (x y : Z) : Z.land (2 * x + 1) (2 * y) = 2 * Z.land x y.
Proof. rewrite Z.land_comm, land_even_odd, Z.land_comm. reflexivity. Qed.

Lemma land_pred_pos (p : positive) :
  Z.land (Z.pos p) (Z.pos p - 1) = 0 <-> exists k, 0 <= k /\ Z.pos p = 2 ^ k.
Proof.
  induction p as [p IH|p IH|].
  - (* 2p + 1 with p >= 1 *)
    replace (Z.pos p~1 - 1) with (2 * Z.pos p) by lia.
    replace (Z.pos p~1) with (2 * Z.pos p + 1) by lia.
    rewrite land_odd_even, Z.land_diag. split; [lia|].
    intros (k & Hk & E). exfalso.
    destruct (Z.eq_dec k 0) as [->|Hk0]; [simpl in E; lia|].
    replace k with (Z.succ (k - 1)) in E by lia.
    rewrite Z.pow_succ_r in E by lia. lia.
  - replace (Z.pos p~0 - 1) with (2 * (Z.pos p - 1) + 1) by lia.
    replace (Z.pos p~0) with (2 * Z.pos p) by lia.
    rewrite land_even_odd. split.
    + intros E. destruct (proj1 IH ltac:(lia)) as (k & Hk & Ek).
      exists (Z.succ k). split; [lia|]. rewrite Z.pow_succ_r by lia. lia.
    + intros (k & Hk & E).
      destruct (Z.eq_dec k 0) as [->|Hk0]; [simpl in E; lia|].
      replace k with (Z.succ (k - 1)) in E by lia.
      rewrite Z.pow_succ_r in E by lia.
      rewrite (proj2 IH); [lia|]. exists (k - 1). split; lia.
  - split; [|reflexivity]. intros _. exists 0. split; [lia|reflexivity].
Qed.

(** X21.  [ensure_is_power_of_two] returns exactly on 0 and on the powers
    of two [1, 2, 4, ...]; on every other integer, the negative ones
    included, it raises [BTClibValueError]. *)
Theorem ensure_is_power_of_two_spec (n : Z) (var_name : option string) :
  (ensure_is_power_of_two n var_name = Ret tt <->
   n = 0 \/ exists k, 0 <= k /\ n = 2 ^ k) /\
  (ensure_is_power_of_two n var_name = Ret tt \/
   ensure_is_power_of_two n var_name = Raise (BTClibValueError "must be a power of two")).
Proof.
  unfold ensure_is_power_of_two. split.
  - destruct n as [|p|p].
    + split; [now left|reflexivity].
    + pose proof (land_pred_pos p) as Hp.
      destruct (Z.eqb_spec (Z.land (Z.pos p) (Z.pos p - 1)) 0) as [E|NE]; cbn [negb].
      * split; [intros _; right; now apply Hp|reflexivity].
      * split; [discriminate|]. intros [E|Hk]; [discriminate E|].
        exfalso. apply NE. now apply Hp.
    + assert (Hneg : Z.land (Z.neg p) (Z.neg p - 1) < 0) by (apply Z.land_neg; lia).
      destruct (Z.eqb_spec (Z.land (Z.neg p) (Z.neg p - 1)) 0) as [E|NE]; [lia|].
      cbn [negb]. split; [discriminate|].
      intros [E|(k & Hk & E)]; [discriminate E|].
      pose proof (Z.pow_nonneg 2 k ltac:(lia)). lia.
  - destruct (negb (Z.land n (n - 1) =? 0)); [now right|now left].
Qed.

(* ================================================================= *)
(** ** Tokens *)

(** X22.  [token_or_string_to_printable] keeps the length of the list and
    its integers; every other token becomes the string that
    [token_or_string_to_hex_string] gives for it, which for bytes is the
    hex-string that [bytes_from_octets] reads back. *)
Theorem token_or_string_to_printable_spec (val : list ScriptToken) :
  len (token_or_string_to_printable val) = len val /\
  forall (k : nat) (v : ScriptToken),
    nth_error val k = Some v ->
    match v with
    | TInt i => nth_error (token_or_string_to_printable val) k = Some (PInt i)
    | TStr s =>
      nth_error (token_or_string_to_printable val) k = Some (PStr s) /\
      token_or_string_to_hex_string v = s
    | TBytes b =>
      nth_error (token_or_string_to_printable val) k
      = Some (PStr (token_or_string_to_hex_string v)) /\
      bytes_from_octets (OStr (token_or_string_to_hex_string v)) NoSize = Ret b
    end.
Proof.
  unfold token_or_string_to_printable, len. split; [now rewrite length_map|].
  intros k v E. rewrite nth_error_map, E. cbn [option_map].
  destruct v as [i|s|b]; [reflexivity|now split|].
  split; [reflexivity|]. exact (proj2 (bytes_from_octets_hex b NoSize)).
Qed.

(* ================================================================= *)
(** ** The small curve keeps the contract *)

Module TinyFacts.
Import Tiny.

Lemma in_field_elts (x : Z) : in_field x = true -> In x field_elts.
Proof.
  unfold in_field, p. intros H.
  assert (Hx : x = 0 \/ x = 1 \/ x = 2 \/ x = 3 \/ x = 4 \/ x = 5 \/ x = 6 \/
               x = 7 \/ x = 8 \/ x = 9 \/ x = 10 \/ x = 11 \/ x = 12) by lia.
  unfold field_elts. simpl. intuition auto.
Qed.

Lemma in_all_pairs (x y : Z) :
  in_field x = true -> in_field y = true -> In (x, y) all_pairs.
Proof.
  intros Hx Hy. unfold all_pairs. apply in_flat_map.
  exists x. split; [now apply in_field_elts|].
  apply in_map. now apply in_field_elts.
Qed.

Lemma in_all_triples (x y z : Z) :
  in_field x = true -> in_field y = true -> in_field z = true ->
  In (x, y, z) all_triples.
Proof.
  intros Hx Hy Hz. unfold all_triples. apply in_flat_map.
  exists (x, y). split; [now apply in_all_pairs|].
  apply (in_map (fun z => (x, y, z))). now apply in_field_elts.
Qed.

Lemma on_curve_triples_complete (P : JacTriple) :
  jac_on_curve P = true -> In P on_curve_triples.
Proof.
  intros H. apply filter_In. split; [|exact H].
  destruct P as [[x y] z]. unfold jac_on_curve in H.
  apply andb_prop in H as [H _]. apply andb_prop in H as [H Hz].
  apply andb_prop in H as [Hx Hy]. now apply in_all_triples.
Qed.

Lemma add_law_checked :
  forallb (fun P => forallb (add_law_holds P) on_curve_triples) on_curve_triples = true.
Proof. vm_compute. reflexivity. Qed.

Lemma neg_law_checked : forallb neg_law_holds on_curve_triples = true.
Proof. vm_compute. reflexivity. Qed.

Lemma on_curve_law_checked : forallb on_curve_law_holds all_pairs = true.
Proof. vm_compute. reflexivity. Qed.

Lemma jac_point_dlog (P : JacTriple) (x : Zmod 7) :
  point_of_jac P = Some x ->
  exists u, jac_dlog P = Some u /\ x = Zmod.of_Z 7 u /\ In P on_curve_triples.
Proof.
  unfold point_of_jac. destruct (jac_dlog P) as [u|] eqn:E; [|discriminate].
  intros [= <-]. exists u. repeat split.
  apply on_curve_triples_complete. unfold jac_dlog in E.
  now destruct (jac_on_curve P).
Qed.

Lemma add_law (P Q : JacTriple) (x y : Zmod 7) :
  point_of_jac P = Some x -> point_of_jac Q = Some y ->
  point_of_jac (jac_add P Q) = Some (Zmod.add x y).
Proof.
  intros HP HQ.
  destruct (jac_point_dlog P x HP) as (u & Eu & -> & InP).
  destruct (jac_point_dlog Q y HQ) as (v & Ev & -> & InQ).
  pose proof add_law_checked as H.
  rewrite forallb_forall in H. specialize (H P InP).
  rewrite forallb_forall in H. specialize (H Q InQ).
  unfold add_law_holds in H. rewrite Eu, Ev in H.
  unfold point_of_jac. destruct (jac_dlog (jac_add P Q)) as [s|]; [|discriminate].
  apply Z.eqb_eq in H. subst s. simpl.
  now rewrite Zmod.of_Z_mod, Zmod.of_Z_add.
Qed.

Lemma neg_law (P : JacTriple) (x : Zmod 7) :
  point_of_jac P = Some x -> point_of_jac (jac_neg P) = Some (Zmod.opp x).
Proof.
  intros HP.
  destruct (jac_point_dlog P x HP) as (u & Eu & -> & InP).
  pose proof neg_law_checked as H.
  rewrite forallb_forall in H. specialize (H P InP).
  unfold neg_law_holds in H. rewrite Eu in H.
  unfold point_of_jac. destruct (jac_dlog (jac_neg P)) as [s|]; [|discriminate].
  apply Z.eqb_eq in H. subst s. simpl.
  now rewrite Zmod.of_Z_mod, Zmod.of_Z_opp.
Qed.

Lemma AffPair_eqb_eq (P Q : AffPair) : AffPair_eqb P Q = true -> P = Q.
Proof.
  destruct P as [x y], Q as [x' y']. unfold AffPair_eqb. simpl.
  intros H. apply andb_prop in H as [Hx Hy].
  apply Z.eqb_eq in Hx, Hy. now subst.
Qed.

Lemma position_spec (Q : AffPair) (l : list AffPair) (i k : Z) :
  position Q l i = Some k ->
  i <= k < i + len l /\ nth_error l (Z.to_nat (k - i)) = Some Q.
Proof.
  revert i. induction l as [|P l IH]; intros i; simpl; [discriminate|].
  rewrite len_cons. pose proof (len_nonneg l).
  destruct (AffPair_eqb P Q) eqn:E.
  - intros [= <-]. apply AffPair_eqb_eq in E. subst.
    rewrite Z.sub_diag. split; [lia|reflexivity].
  - intros H'. apply IH in H' as [Hk Hn]. split; [lia|].
    replace (Z.to_nat (k - i)) with (S (Z.to_nat (k - (i + 1)))) by lia.
    exact Hn.
Qed.

Lemma dlog_range (P : AffPair) (k : Z) : dlog P = Some k -> 0 <= k < 7.
Proof. intros H. apply position_spec in H as [H _]. exact H. Qed.

Lemma aff_point_injective (P Q : AffPair) (x : Zmod 7) :
  point_of_aff P = Some x -> point_of_aff Q = Some x -> P = Q.
Proof.
  unfold point_of_aff.
  destruct (dlog P) as [u|] eqn:Eu; [|discriminate].
  destruct (dlog Q) as [v|] eqn:Ev; [|discriminate].
  simpl. intros Hx Hy.
  assert (E : Zmod.of_Z 7 u = Zmod.of_Z 7 v) by congruence.
  apply Zmod.of_Z_inj in E.
  pose proof (dlog_range P u Eu). pose proof (dlog_range Q v Ev).
  rewrite !Z.mod_small in E by lia. subst v.
  apply position_spec in Eu as [_ Hu]. apply position_spec in Ev as [_ Hv].
  congruence.
Qed.

Lemma on_curve_law (P : AffPair) :
  on_curve_or_raise P = Ret tt <-> point_of_aff P <> None.
Proof.
  assert (Hdec : is_on_curve P = true <-> dlog P <> None).
  { split.
    - intros H.
      assert (InP : In P all_pairs).
      { destruct P as [x y]. unfold is_on_curve in H.
        destruct (y =? 0) eqn:Ey.
        - apply Z.eqb_eq in H, Ey. subst x y. now apply in_all_pairs.
        - apply andb_prop in H as [H _]. apply andb_prop in H as [Hx Hy].
          now apply in_all_pairs. }
      pose proof on_curve_law_checked as Hc.
      rewrite forallb_forall in Hc. specialize (Hc P InP).
      unfold on_curve_law_holds in Hc. rewrite H in Hc.
      destruct (dlog P); [discriminate|discriminate Hc].
    - intros H. destruct (dlog P) as [k|] eqn:E; [|contradiction].
      apply position_spec in E as [Hk Hn].
      apply nth_error_In in Hn. unfold multiples in Hn. simpl in Hn.
      intuition (subst; reflexivity). }
  unfold on_curve_or_raise, point_of_aff.
  destruct (is_on_curve P) eqn:E.
  - split; [|reflexivity]. intros _.
    destruct (dlog P); [discriminate|]. exfalso. exact (proj1 Hdec eq_refl eq_refl).
  - split; [discriminate|]. intros H. exfalso.
    destruct (dlog P) eqn:Ed; [|contradiction].
    assert (false = true) by (apply (proj2 Hdec); discriminate). discriminate.
Qed.

Lemma jac_from_aff_law (P : AffPair) (x : Zmod 7) :
  point_of_aff P = Some x -> point_of_jac (jac_from_aff P) = Some x.
Proof.
  unfold point_of_aff. destruct (dlog P) as [k|] eqn:E; [|discriminate].
  intros [= <-]. pose proof (dlog_range P k E) as Hk.
  apply position_spec in E as [_ Hn].
  assert (Hcases : k = 0 \/ k = 1 \/ k = 2 \/ k = 3 \/ k = 4 \/ k = 5 \/ k = 6) by lia.
  repeat (destruct Hcases as [-> | Hcases]; [injection Hn as <-; reflexivity|]).
  subst k. injection Hn as <-. reflexivity.
Qed.

Lemma aff_from_jac_law (P : JacTriple) (x : Zmod 7) :
  point_of_jac P = Some x -> point_of_aff (aff_from_jac P) = Some x.
Proof.
  unfold point_of_jac, point_of_aff, jac_dlog.
  destruct (jac_on_curve P); [|discriminate]. trivial.
Qed.

(** The contract of the curve group, on the small curve. *)
#[export] Instance laws : CurveLaws Tiny.ec := {|
  pt := Zmod 7;
  pt_group := Zmod7_group;
  jac_point := point_of_jac;
  aff_point := point_of_aff;
  INFJ_point := eq_refl;
  add_jac_point := add_law;
  negate_point := neg_law;
  GJ_on_curve := ltac:(discriminate);
  require_on_curve_point := on_curve_law;
  jac_from_aff_point := jac_from_aff_law;
  aff_from_jac_point := aff_from_jac_law;
  aff_point_inj := aff_point_injective;
  order_pos := eq_refl
|}.

End TinyFacts.

(* ================================================================= *)
(** ** The theorems at work on the small curve *)

Import Tiny TinyFacts.

Lemma mont_ladder_invariant_witness :
  0 <= 5 /\ gen_jac <> INFJ /\ jac_point gen_jac = Some g /\
  bin_digits 5 = Ret [1; 0; 1] /\ [1; 0; 1] = [1; 0] ++ [1] /\
  exists (R Q : JacPoint) (c1 : cost),
    ladder_loop [1; 0] (INFJ, gen_jac) no_cost = (Ret (R, Q), c1) /\
    (exists r q : pt,
       jac_point R = Some r /\ jac_point Q = Some q /\
       add q (opp r) = g /\ r = zmul (horner 2 0 [1; 0]) g) /\
    _mult_jac_mont_ladder 5 gen_jac no_cost
      = (RQ <- ladder_loop [1] (R, Q) ;; ret (fst RQ)) c1 /\
    ([1] = [] ->
     _mult_jac_mont_ladder 5 gen_jac no_cost = (Ret R, c1) /\
     jac_point R = Some (zmul 5 g)).
Proof.
  assert (H1 : 0 <= 5) by lia.
  assert (H2 : gen_jac <> INFJ) by discriminate.
  assert (H3 : jac_point gen_jac = Some g) by reflexivity.
  repeat (split; [first [assumption | reflexivity]|]).
  exact (mont_ladder_invariant (L := laws) g 5 gen_jac [1; 0; 1] [1; 0] [1] no_cost
           H1 H2 H3 eq_refl eq_refl).
Defined.

Lemma mont_ladder_operation_count_witness :
  0 <= 5 /\ 0 <= 6 /\ bit_length 5 = bit_length 6 /\ gen_jac <> INFJ /\
  exists (R1 R2 : JacPoint) (c1 c2 : cost),
    _mult_jac_mont_ladder 5 gen_jac no_cost = (Ret R1, c1) /\
    _mult_jac_mont_ladder 6 gen_jac no_cost = (Ret R2, c2) /\
    additions c1 = (additions no_cost + Z.to_nat (Z.max 1 (bit_length 5)))%nat /\
    doublings c1 = (doublings no_cost + Z.to_nat (Z.max 1 (bit_length 5)))%nat /\
    negations c1 = negations no_cost /\ c2 = c1.
Proof.
  assert (H1 : 0 <= 5) by lia.
  assert (H2 : 0 <= 6) by lia.
  assert (H4 : gen_jac <> INFJ) by discriminate.
  repeat (split; [first [assumption | reflexivity]|]).
  exact (mont_ladder_operation_count (ec := Tiny.ec) 5 6 gen_jac no_cost H1 H2 eq_refl H4).
Defined.

(** C3, as the claim states it: the scalar 0 has the bit length 0, and the
    ladder does one addition and one doubling on it. *)
Lemma mont_ladder_count_at_zero :
  bit_length 0 = 0 /\
  _mult_jac_mont_ladder 0 gen_jac no_cost = (Ret (7, 0, 0), mkCost 1 1 0).
Proof. split; reflexivity. Qed.

Lemma sliding_window_table_witness :
  1 <= 3 /\ jac_point gen_jac = Some g /\
  exists (P : JacPoint) (c0 : cost) (T : list JacPoint) (c' : cost),
    double_times (3 - 1) gen_jac no_cost = (Ret P, c0) /\
    jac_point P = Some (zmul (2 ^ (3 - 1)) g) /\
    for_range 1 (2 ^ (3 - 1)) (append_sum gen_jac) [P] c0 = (Ret T, c') /\
    sliding_table 3 gen_jac no_cost = (Ret T, c') /\
    len T = 2 ^ (3 - 1) /\
    (forall i : Z,
       0 <= i < 2 ^ (3 - 1) ->
       exists e : JacPoint,
         index T i = Ret e /\ jac_point e = Some (zmul (2 ^ (3 - 1) + i) g)) /\
    doublings c' = (doublings no_cost + Z.to_nat (3 - 1))%nat /\
    additions c' = (additions no_cost + Z.to_nat (2 ^ (3 - 1) - 1))%nat /\
    negations c' = negations no_cost /\
    (forall fuel m, 0 <= m -> gen_jac <> INFJ ->
       _mult_jac_sliding_window fuel m 3 gen_jac no_cost
       = (Md <- lift (numberToBase fuel m 2) ;;
          sliding_loop fuel 3 (2 ^ (3 - 1)) gen_jac T Md 0 INFJ) c').
Proof.
  assert (H1 : 1 <= 3) by lia.
  assert (H2 : jac_point gen_jac = Some g) by reflexivity.
  repeat (split; [assumption|]).
  exact (sliding_window_table (L := laws) g 3 gen_jac no_cost H1 H2).
Defined.

(** C4, as the claim states it: for [w = 3] the table of the sliding
    window holds [4, 5, 6, 7] times the point, and not its odd multiples
    [1, 3, 5, 7] times the point (7 times the point being the point at
    infinity on this curve). *)
Lemma sliding_table_not_odd_multiples :
  exists T c',
    sliding_table 3 gen_jac no_cost = (Ret T, c') /\
    map jac_dlog T = [Some 4; Some 5; Some 6; Some 0] /\
    map jac_dlog T <> [Some 1; Some 3; Some 5; Some 0].
Proof.
  eexists _, _. split; [vm_compute; reflexivity|].
  split; [reflexivity|discriminate].
Qed.

Lemma nonpositive_window_witness :
  0 <= 3 /\ 0 <= 0 /\
  (gen_jac <> INFJ ->
   _mult_jac_fixed_window 0 3 0 gen_jac no_cost
     = (Raise (ValueError "w must be strictly positive"), no_cost) /\
   _mult_jac_sliding_window 0 3 0 gen_jac no_cost
     = (Raise (ValueError "w must be strictly positive"), no_cost) /\
   (3 <> 0 ->
    _mult_jac_w_NAF 0 3 0 gen_jac no_cost
      = (Raise (ValueError "w must be strictly positive"), no_cost))) /\
  _mult_jac_fixed_window 0 3 0 INFJ no_cost = (Ret INFJ, no_cost) /\
  _mult_jac_sliding_window 0 3 0 INFJ no_cost = (Ret INFJ, no_cost) /\
  _mult_jac_w_NAF 0 3 0 INFJ no_cost = (Ret INFJ, no_cost) /\
  _mult_jac_w_NAF 0 0 0 gen_jac no_cost = (Ret INFJ, no_cost).
Proof.
  assert (H1 : 0 <= 3) by lia.
  assert (H2 : 0 <= 0) by lia.
  repeat (split; [assumption|]).
  exact (nonpositive_window (ec := Tiny.ec) 0 3 0 gen_jac no_cost H1 H2).
Defined.

(** C6, as the claim states it: with [w = 0] on the point [INFJ], and for
    wNAF on the scalar 0, the engines return [INFJ] and raise nothing. *)
Lemma nonpositive_window_on_INFJ :
  _mult_jac_fixed_window 0 0 0 inf_jac no_cost = (Ret inf_jac, no_cost) /\
  _mult_jac_sliding_window 0 0 0 inf_jac no_cost = (Ret inf_jac, no_cost) /\
  _mult_jac_w_NAF 0 5 0 inf_jac no_cost = (Ret inf_jac, no_cost) /\
  _mult_jac_w_NAF 0 0 0 gen_jac no_cost = (Ret inf_jac, no_cost).
Proof. repeat split. Qed.

Lemma negative_scalar_witness :
  -1 < 0 /\ point_arg (Some gen_aff) = Some g /\ enough_fuel 6 n /\ 2 <= 2 <= 1024 /\
  (_mult_jac_mont_ladder (-1) gen_jac no_cost
     = (Raise (ValueError "negative m"), no_cost) /\
   _mult_jac_base_3 6 (-1) gen_jac no_cost
     = (Raise (ValueError "negative m"), no_cost) /\
   _mult_jac_fixed_window 6 (-1) 2 gen_jac no_cost
     = (Raise (ValueError "negative m"), no_cost) /\
   _mult_jac_sliding_window 6 (-1) 2 gen_jac no_cost
     = (Raise (ValueError "negative m"), no_cost) /\
   _mult_jac_w_NAF 6 (-1) 2 gen_jac no_cost
     = (Raise (ValueError "negative m"), no_cost)) /\
  0 <= -1 mod n < n /\
  exists (R : Point) (c1 c2 c3 c4 c5 : cost),
    aff_point R = Some (zmul (-1 mod n) g) /\
    mult_mont_ladder (IInt (-1)) (Some gen_aff) no_cost = (Ret R, c1) /\
    mult_base_3 6 (IInt (-1)) (Some gen_aff) no_cost = (Ret R, c2) /\
    mult_fixed_window 6 (IInt (-1)) (IInt 2) (Some gen_aff) no_cost = (Ret R, c3) /\
    mult_sliding_window 6 (IInt (-1)) (IInt 2) (Some gen_aff) no_cost = (Ret R, c4) /\
    mult_w_NAF 6 (IInt (-1)) (IInt 2) (Some gen_aff) no_cost = (Ret R, c5).
Proof.
  assert (H1 : -1 < 0) by lia.
  assert (H2 : point_arg (Some gen_aff) = Some g) by reflexivity.
  assert (H3 : enough_fuel 6 n) by (vm_compute; reflexivity).
  assert (H4 : 2 <= 2 <= 1024) by lia.
  repeat (split; [assumption|]).
  exact (negative_scalar (L := laws) g 6 (-1) 2 gen_jac (Some gen_aff) no_cost H1 H2 H3 H4).
Defined.

(** C2, as the claim states it: on the scalar -1 the entry points raise
    nothing; each returns [6 * gen_aff = (7, 8)], the opposite of the
    point. *)
Lemma entry_points_accept_minus_one :
  fst (mult_mont_ladder (IInt (-1)) (Some gen_aff) no_cost) = Ret (7, 8) /\
  fst (mult_base_3 6 (IInt (-1)) (Some gen_aff) no_cost) = Ret (7, 8) /\
  fst (mult_fixed_window 6 (IInt (-1)) (IInt 2) (Some gen_aff) no_cost) = Ret (7, 8) /\
  fst (mult_sliding_window 6 (IInt (-1)) (IInt 2) (Some gen_aff) no_cost) = Ret (7, 8) /\
  fst (mult_w_NAF 6 (IInt (-1)) (IInt 2) (Some gen_aff) no_cost) = Ret (7, 8).
Proof. repeat split; vm_compute; reflexivity. Qed.

Lemma w_NAF_digit_lookup_witness :
  2 <= 3 /\ jac_point gen_jac = Some g /\
  naf_digits_loop 10 3 7 0 [] = Ret (4, [-1; 0; 0; 1]) /\
  index [-1; 0; 0; 1] 0 = Ret (-1) /\ -1 <> 0 /\
  exists T c1,
    naf_table (2 ^ 3) gen_jac no_cost = (Ret T, c1) /\
    let h := 2 ^ (3 - 1) in
    let i := if 0 <? -1 then (Z.abs (-1) - 1) / 2 else h + (Z.abs (-1) - 1) / 2 in
    exists e : JacPoint,
      index T i = Ret e /\
      jac_point e = Some (zmul (-1) g) /\
      naf_step (2 ^ 3) T [-1; 0; 0; 1] 0 INFJ no_cost
        = (Ret (_add_jac (_add_jac INFJ INFJ) e), tick_add (tick_dbl no_cost)) /\
      (0 < -1 -> 0 <= i < h) /\
      (-1 < 0 ->
       h <= i < 2 * h /\ i = h - (-1 + 1) / 2 /\
       exists e' : JacPoint,
         index T (i - h) = Ret e' /\ e = negate e' /\
         jac_point e' = Some (zmul (Z.abs (-1)) g)).
Proof.
  assert (H1 : 2 <= 3) by lia.
  assert (H2 : jac_point gen_jac = Some g) by reflexivity.
  assert (H3 : naf_digits_loop 10 3 7 0 [] = Ret (4, [-1; 0; 0; 1])) by reflexivity.
  assert (H4 : index [-1; 0; 0; 1] 0 = Ret (-1)) by reflexivity.
  assert (H5 : -1 <> 0) by discriminate.
  repeat (split; [assumption|]).
  eexists _, _. split; [vm_compute; reflexivity|].
  exact (w_NAF_digit_lookup (L := laws) g 10 7 3 gen_jac 4 [-1; 0; 0; 1] _ no_cost _
           0 (-1) INFJ no_cost H1 H2 H3 eq_refl H4 H5).
Defined.

(** C7, as the claim states it: for [w = 3] and the digit -1 the claim's
    index [halfSize - (|d| + 1) / 2] is 3, in the lower half of the table,
    where 7 times the point is held, while the step adds the entry at
    index 4, the opposite of the point. *)
Lemma w_NAF_claimed_index_differs :
  exists T c1 e_code e_claim,
    naf_table (2 ^ 3) gen_jac no_cost = (Ret T, c1) /\
    2 ^ (3 - 1) - (Z.abs (-1) + 1) / 2 = 3 /\
    2 ^ 3 / 2 - (-1 + 1) / 2 = 4 /\
    index T 3 = Ret e_claim /\ jac_dlog e_claim = Some 0 /\
    index T 4 = Ret e_code /\ jac_dlog e_code = Some 6 /\
    naf_step (2 ^ 3) T [-1; 0; 0; 1] 0 gen_jac no_cost
      = (Ret (_add_jac (_add_jac gen_jac gen_jac) e_code), mkCost 1 1 0) /\
    _add_jac (_add_jac gen_jac gen_jac) e_code
      <> _add_jac (_add_jac gen_jac gen_jac) e_claim.
Proof.
  eexists _, _, _, _. split; [vm_compute; reflexivity|].
  repeat (split; [vm_compute; reflexivity|]).
  vm_compute. discriminate.
Qed.

Lemma w_NAF_width_one_witness :
  0 < 3 /\ gen_jac <> INFJ /\
  _mult_jac_w_NAF 100 3 1 gen_jac no_cost = (OutOfFuel, no_cost).
Proof.
  assert (H1 : 0 < 3) by lia.
  assert (H2 : gen_jac <> INFJ) by discriminate.
  repeat (split; [assumption|]).
  exact (w_NAF_width_one (ec := Tiny.ec) 100 3 gen_jac no_cost H1 H2).
Defined.

Lemma w_NAF_wide_window_witness :
  0 < 3 /\ 1025 <= 1025 /\ gen_jac <> INFJ /\ jac_point gen_jac = Some g /\
  enough_fuel 5 3 /\
  (exists (R1 R2 R3 R4 : JacPoint) (c1 c2 c3 c4 : cost),
     _mult_jac_mont_ladder 3 gen_jac no_cost = (Ret R1, c1) /\
     _mult_jac_base_3 5 3 gen_jac no_cost = (Ret R2, c2) /\
     _mult_jac_fixed_window 5 3 1025 gen_jac no_cost = (Ret R3, c3) /\
     _mult_jac_sliding_window 5 3 1025 gen_jac no_cost = (Ret R4, c4) /\
     jac_point R1 = Some (zmul 3 g) /\
     jac_point R2 = Some (zmul 3 g) /\
     jac_point R3 = Some (zmul 3 g) /\
     jac_point R4 = Some (zmul 3 g)) /\
  _mult_jac_w_NAF 5 3 1025 gen_jac no_cost = (Raise OverflowError, no_cost).
Proof.
  assert (H1 : 0 < 3) by lia.
  assert (H2 : 1025 <= 1025) by lia.
  assert (H3 : gen_jac <> INFJ) by discriminate.
  assert (H4 : jac_point gen_jac = Some g) by reflexivity.
  assert (H5 : enough_fuel 5 3) by (vm_compute; reflexivity).
  repeat (split; [assumption|]).
  exact (w_NAF_wide_window (L := laws) g 5 3 1025 gen_jac no_cost H1 H2 H3 H4 H5).
Defined.

Lemma mods_range_or_overflow_witness :
  1 <= 1025 /\
  (1025 <= 1024 ->
   exists r : Z,
     mods 1 1025 = Ret r /\
     (r - 1) mod 2 ^ 1025 = 0 /\ - 2 ^ (1025 - 1) <= r <= 2 ^ (1025 - 1) - 1) /\
  (1025 <= 1025 -> mods 1 1025 = Raise OverflowError).
Proof.
  assert (H1 : 1 <= 1025) by lia.
  split; [assumption|].
  exact (mods_range_or_overflow 1 1025 H1).
Defined.

Lemma w_NAF_scalar_one_witness :
  2 <= 1025 /\ gen_jac <> INFJ /\ jac_point gen_jac = Some g /\ enough_fuel 3 1 /\
  (1025 <= 1024 ->
   exists (R : JacPoint) (c' : cost),
     _mult_jac_w_NAF 3 1 1025 gen_jac no_cost = (Ret R, c') /\
     jac_point R = Some g) /\
  (1025 <= 1025 ->
   _mult_jac_w_NAF 3 1 1025 gen_jac no_cost = (Raise OverflowError, no_cost)).
Proof.
  assert (H1 : 2 <= 1025) by lia.
  assert (H2 : gen_jac <> INFJ) by discriminate.
  assert (H3 : jac_point gen_jac = Some g) by reflexivity.
  assert (H4 : enough_fuel 3 1) by (vm_compute; reflexivity).
  repeat (split; [assumption|]).
  exact (w_NAF_scalar_one (L := laws) g 3 1025 gen_jac no_cost H1 H2 H3 H4).
Defined.

Lemma strategies_agree_witness :
  point_arg None = Some g /\ enough_fuel 6 n /\
  1 <= 2 /\ 1 <= 3 /\ 2 <= 2 <= 1024 /\
  exists R c1 c2 c3 c4 c5,
    aff_point R = Some (zmul (100 mod n) g) /\
    (zmul n g = zero -> aff_point R = Some (zmul 100 g)) /\
    mult_mont_ladder (IInt 100) None no_cost = (Ret R, c1) /\
    mult_base_3 6 (IInt 100) None no_cost = (Ret R, c2) /\
    mult_fixed_window 6 (IInt 100) (IInt 2) None no_cost = (Ret R, c3) /\
    mult_sliding_window 6 (IInt 100) (IInt 3) None no_cost = (Ret R, c4) /\
    mult_w_NAF 6 (IInt 100) (IInt 2) None no_cost = (Ret R, c5).
Proof.
  assert (H1 : point_arg None = Some g) by reflexivity.
  assert (H2 : enough_fuel 6 n) by (vm_compute; reflexivity).
  assert (H3 : 1 <= 2) by lia.
  assert (H4 : 1 <= 3) by lia.
  assert (H5 : 2 <= 2 <= 1024) by lia.
  repeat (split; [assumption|]).
  exact (strategies_agree (L := laws) g 6 100 2 3 2 None no_cost H1 H2 H3 H4 H5).
Defined.

Lemma base_3_operations_witness :
  0 <= 5 /\ gen_jac <> INFJ /\ jac_point gen_jac = Some g /\ enough_fuel 5 5 /\
  exists Md R c',
    numberToBase 5 5 3 = Ret Md /\
    _mult_jac_base_3 5 5 gen_jac no_cost = (Ret R, c') /\
    jac_point R = Some (zmul 5 g) /\
    additions c' = (additions no_cost + 2 * List.length Md)%nat /\
    doublings c' = (doublings no_cost + (List.length Md - 1))%nat /\
    negations c' = negations no_cost.
Proof.
  assert (H1 : 0 <= 5) by lia.
  assert (H2 : gen_jac <> INFJ) by discriminate.
  assert (H3 : jac_point gen_jac = Some g) by reflexivity.
  assert (H4 : enough_fuel 5 5) by (vm_compute; reflexivity).
  repeat (split; [assumption|]).
  exact (base_3_operations (L := laws) g 5 5 gen_jac no_cost H1 H2 H3 H4).
Defined.

Lemma fixed_window_operations_witness :
  0 <= 5 /\ 1 <= 2 /\ gen_jac <> INFJ /\ jac_point gen_jac = Some g /\ enough_fuel 5 5 /\
  exists Md R c',
    numberToBase 5 5 (2 ^ 2) = Ret Md /\
    _mult_jac_fixed_window 5 5 2 gen_jac no_cost = (Ret R, c') /\
    jac_point R = Some (zmul 5 g) /\
    additions c' = (additions no_cost + Z.to_nat (2 ^ 2 - 1) + (List.length Md - 1))%nat /\
    doublings c' = (doublings no_cost + (List.length Md - 1) * Z.to_nat 2)%nat /\
    negations c' = negations no_cost.
Proof.
  assert (H1 : 0 <= 5) by lia.
  assert (H2 : 1 <= 2) by lia.
  assert (H3 : gen_jac <> INFJ) by discriminate.
  assert (H4 : jac_point gen_jac = Some g) by reflexivity.
  assert (H5 : enough_fuel 5 5) by (vm_compute; reflexivity).
  repeat (split; [assumption|]).
  exact (fixed_window_operations (L := laws) g 5 5 2 gen_jac no_cost H1 H2 H3 H4 H5).
Defined.

Lemma sliding_window_operations_witness :
  0 <= 5 /\ 1 <= 2 /\ gen_jac <> INFJ /\ jac_point gen_jac = Some g /\ enough_fuel 5 5 /\
  exists Md R c',
    numberToBase 5 5 2 = Ret Md /\
    _mult_jac_sliding_window 5 5 2 gen_jac no_cost = (Ret R, c') /\
    jac_point R = Some (zmul 5 g) /\
    doublings c' = (doublings no_cost + Z.to_nat (2 - 1) + List.length Md)%nat /\
    (additions c' <= additions no_cost + Z.to_nat (2 ^ (2 - 1) - 1) + List.length Md)%nat /\
    negations c' = negations no_cost.
Proof.
  assert (H1 : 0 <= 5) by lia.
  assert (H2 : 1 <= 2) by lia.
  assert (H3 : gen_jac <> INFJ) by discriminate.
  assert (H4 : jac_point gen_jac = Some g) by reflexivity.
  assert (H5 : enough_fuel 5 5) by (vm_compute; reflexivity).
  repeat (split; [assumption|]).
  exact (sliding_window_operations (L := laws) g 5 5 2 gen_jac no_cost H1 H2 H3 H4 H5).
Defined.

Lemma w_NAF_table_witness :
  1 <= 3 /\ jac_point gen_jac = Some g /\
  exists T c',
    naf_table (2 ^ 3) gen_jac no_cost = (Ret T, c') /\
    len T = 2 ^ 3 /\
    (forall i, 0 <= i < 2 ^ (3 - 1) ->
       exists e,
         index T i = Ret e /\
         jac_point e = Some (zmul (2 * i + 1) g) /\
         index T (2 ^ (3 - 1) + i) = Ret (negate e) /\
         jac_point (negate e) = Some (zmul (- (2 * i + 1)) g)) /\
    doublings c' = (doublings no_cost + 1)%nat /\
    additions c' = (additions no_cost + Z.to_nat (2 ^ (3 - 1) - 1))%nat /\
    negations c' = (negations no_cost + Z.to_nat (2 ^ (3 - 1)))%nat /\
    (forall fuel m p Md,
       0 < m -> gen_jac <> INFJ ->
       naf_digits_loop fuel 3 m 0 [] = Ret (p, Md) ->
       _mult_jac_w_NAF fuel m 3 gen_jac no_cost
       = for_range_down (p - 1) (-1) (naf_step (2 ^ 3) T Md) INFJ c').
Proof.
  assert (H1 : 1 <= 3) by lia.
  assert (H2 : jac_point gen_jac = Some g) by reflexivity.
  repeat (split; [assumption|]).
  exact (w_NAF_table (L := laws) g 3 gen_jac no_cost H1 H2).
Defined.

Lemma w_NAF_operations_witness :
  0 < 5 /\ 2 <= 2 <= 1024 /\ gen_jac <> INFJ /\ jac_point gen_jac = Some g /\
  enough_fuel 5 5 /\
  exists Md R c',
    naf_digits_loop 5 2 5 0 [] = Ret (len Md, Md) /\
    _mult_jac_w_NAF 5 5 2 gen_jac no_cost = (Ret R, c') /\
    jac_point R = Some (zmul 5 g) /\
    doublings c' = (doublings no_cost + 1 + List.length Md)%nat /\
    additions c' = (additions no_cost + Z.to_nat (2 ^ (2 - 1) - 1) + count_nonzero Md)%nat /\
    negations c' = (negations no_cost + Z.to_nat (2 ^ (2 - 1)))%nat.
Proof.
  assert (H1 : 0 < 5) by lia.
  assert (H2 : 2 <= 2 <= 1024) by lia.
  assert (H3 : gen_jac <> INFJ) by discriminate.
  assert (H4 : jac_point gen_jac = Some g) by reflexivity.
  assert (H5 : enough_fuel 5 5) by (vm_compute; reflexivity).
  repeat (split; [assumption|]).
  exact (w_NAF_operations (L := laws) g 5 5 2 gen_jac no_cost H1 H2 H3 H4 H5).
Defined.
